(** * oci-proxy: a caching reverse proxy for OCI registries

    A shallow embedding of the blob cache ([internal/pkg/proxy/cache/lru.go]),
    the cache and auth interceptors ([internal/pkg/proxy/middleware]), the
    routing director and the outer HTTP handler ([internal/pkg/proxy/proxy.go]),
    the interceptor pipeline and the cache manager ([internal/pkg/proxy]) and
    the configuration with its defaults ([internal/pkg/config]), followed by
    the properties proved about them.

    Conventions.
    - A Go [string] and a Go [[]byte] are both byte sequences; both are
      modelled by Rocq's [string] (a sequence of 8-bit [ascii]).
    - [int64] sizes and counters are [Z]; the sizes that occur are file
      lengths, far from the 64-bit bounds, so no wrap-around is written.
    - [time.Time] is a [Z] (an instant on the wall clock); [time.Now()] is an
      explicit argument [now] of every operation that reads the clock.
    - Mutable objects are passed explicitly: an operation takes the state
      before and returns the state after. The cache directory is part of
      the state: a finite map from file names to contents.
    - A failure of the operating system that the code returns as an error
      (a temp file that cannot be created, a write, sync or rename that
      fails) is an input of the operation, its fault; opening, stating and
      removing a file depend on the directory alone.
    - What lies outside the repository is a parameter: the JSON codec of
      the persistence file, the token endpoint, the rest of the middleware
      chain. SHA-256, hexadecimal and base64 are written out.
    - Locks and atomics are not modelled: every operation runs alone. *)

From Stdlib Require Import ZArith Ascii String List Bool Lia.
From stdpp Require Import base option list gmap strings stringmap fin_maps.

Local Open Scope string_scope.
Local Open Scope Z_scope.

(** stdpp keeps [String.append] folded; the proofs below compute with it. *)
#[local] Arguments String.append !s1 s2 : simpl nomatch.

(* ===================================================================== *)
(** * Part I: definitions                                                 *)
(* ===================================================================== *)

(** ** Go's [strings] package, on byte strings *)

Module GoStrings.

Definition is_upper (c : ascii) : bool :=
  ((65 <=? nat_of_ascii c) && (nat_of_ascii c <=? 90))%nat.

(** [strings.ToLower] on ASCII letters; bytes of 0x80 and above (the UTF-8
    encoding of other letters) are left as they are. *)
Definition lower_ascii (c : ascii) : ascii :=
  if is_upper c then ascii_of_nat (nat_of_ascii c + 32) else c.

Fixpoint ToLower (s : string) : string :=
  match s with
  | EmptyString => EmptyString
  | String c s' => String (lower_ascii c) (ToLower s')
  end.

Fixpoint HasPrefix (s prefix : string) : bool :=
  match prefix, s with
  | EmptyString, _ => true
  | String p prefix', String c s' => Ascii.eqb c p && HasPrefix s' prefix'
  | String _ _, EmptyString => false
  end.

Fixpoint drop_bytes (n : nat) (s : string) : string :=
  match n, s with
  | O, _ => s
  | S n', String _ s' => drop_bytes n' s'
  | S _, EmptyString => EmptyString
  end.

Definition TrimPrefix (s prefix : string) : string :=
  if HasPrefix s prefix then drop_bytes (String.length prefix) s else s.

Fixpoint in_cutset (c : ascii) (cutset : string) : bool :=
  match cutset with
  | EmptyString => false
  | String d cutset' => Ascii.eqb c d || in_cutset c cutset'
  end.

Fixpoint trim_left (f : ascii -> bool) (s : string) : string :=
  match s with
  | EmptyString => EmptyString
  | String c s' => if f c then trim_left f s' else s
  end.

Fixpoint trim_right (f : ascii -> bool) (s : string) : string :=
  match s with
  | EmptyString => EmptyString
  | String c s' =>
      match trim_right f s' with
      | EmptyString => if f c then EmptyString else String c EmptyString
      | t => String c t
      end
  end.

(** [strings.Trim(s, cutset)]: all leading and trailing bytes that occur in
    [cutset] are removed. *)
Definition Trim (s cutset : string) : string :=
  trim_right (fun c => in_cutset c cutset)
    (trim_left (fun c => in_cutset c cutset) s).

(** White space of [strings.TrimSpace] in the ASCII range:
    tab, line feed, vertical tab, form feed, carriage return, space. *)
Definition is_space (c : ascii) : bool :=
  let n := nat_of_ascii c in
  ((9 <=? n) && (n <=? 13) || (n =? 32))%nat.

Definition TrimSpace (s : string) : string :=
  trim_right is_space (trim_left is_space s).

(** [strings.Split(s, sep)] for a separator of one byte, which is what
    every call site passes (["/"] and [","]). The result is never empty:
    splitting the empty string gives one empty piece. *)
Fixpoint Split (s : string) (sep : ascii) : list string :=
  match s with
  | EmptyString => [EmptyString]
  | String c s' =>
      if Ascii.eqb c sep then EmptyString :: Split s' sep
      else match Split s' sep with
           | [] => [String c EmptyString]
           | w :: ws => String c w :: ws
           end
  end.

(** [strings.SplitN(s, sep, 2)]: cut at the first separator only. *)
Fixpoint SplitN2 (s : string) (sep : ascii) : list string :=
  match s with
  | EmptyString => [EmptyString]
  | String c s' =>
      if Ascii.eqb c sep then [EmptyString; s']
      else match SplitN2 s' sep with
           | w :: ws => String c w :: ws
           | [] => [String c EmptyString]
           end
  end.

(** [strings.Contains(s, sub)] for a one-byte [sub]. *)
Fixpoint Contains (s : string) (c : ascii) : bool :=
  match s with
  | EmptyString => false
  | String d s' => Ascii.eqb d c || Contains s' c
  end.

Fixpoint Join (elems : list string) (sep : string) : string :=
  match elems with
  | [] => EmptyString
  | [e] => e
  | e :: rest => e ++ sep ++ Join rest sep
  end.

End GoStrings.

(** ** [crypto/sha256] and [encoding/hex] *)

Module Sha256.

Definition mask32 : Z := 0xffffffff.
Definition w32 (x : Z) : Z := Z.land x mask32.
Definition add32 (a b : Z) : Z := w32 (a + b).
Definition rotr (n x : Z) : Z :=
  Z.lor (Z.shiftr x n) (w32 (Z.shiftl x (32 - n))).
Definition not32 (x : Z) : Z := Z.lxor x mask32.

Definition Ch (x y z : Z) : Z := Z.lxor (Z.land x y) (Z.land (not32 x) z).
Definition Maj (x y z : Z) : Z :=
  Z.lxor (Z.lxor (Z.land x y) (Z.land x z)) (Z.land y z).
Definition bsig0 (x : Z) : Z := Z.lxor (Z.lxor (rotr 2 x) (rotr 13 x)) (rotr 22 x).
Definition bsig1 (x : Z) : Z := Z.lxor (Z.lxor (rotr 6 x) (rotr 11 x)) (rotr 25 x).
Definition ssig0 (x : Z) : Z := Z.lxor (Z.lxor (rotr 7 x) (rotr 18 x)) (Z.shiftr x 3).
Definition ssig1 (x : Z) : Z := Z.lxor (Z.lxor (rotr 17 x) (rotr 19 x)) (Z.shiftr x 10).

(** The round constants are the first 32 bits of the fractional parts of
    the cube roots of the first 64 primes, the initial hash value those of
    the square roots of the first 8. *)
Definition primes64 : list Z :=
  [2; 3; 5; 7; 11; 13; 17; 19; 23; 29; 31; 37; 41; 43; 47; 53; 59; 61; 67;
   71; 73; 79; 83; 89; 97; 101; 103; 107; 109; 113; 127; 131; 137; 139; 149;
   151; 157; 163; 167; 173; 179; 181; 191; 193; 197; 199; 211; 223; 227; 229;
   233; 239; 241; 251; 257; 263; 269; 271; 277; 281; 283; 293; 307; 311].

(** The largest [x] in [lo, hi) with [x ^ k <= n], by bisection. *)
Fixpoint iroot (fuel : nat) (k lo hi n : Z) : Z :=
  match fuel with
  | O => lo
  | S fuel' =>
      if hi - lo <=? 1 then lo
      else
        let mid := (lo + hi) / 2 in
        if mid ^ k <=? n then iroot fuel' k mid hi n
        else iroot fuel' k lo mid n
  end.

Definition frac_root_bits (k p : Z) : Z :=
  w32 (iroot 64 k 0 (2 ^ 40) (p * 2 ^ (32 * k))).

Definition K : list Z := Eval vm_compute in map (frac_root_bits 3) primes64.

Definition H0 : list Z :=
  Eval vm_compute in map (frac_root_bits 2) (firstn 8 primes64).

Definition byte_val (c : ascii) : Z := Z.of_nat (nat_of_ascii c).

Fixpoint bytes_of (s : string) : list Z :=
  match s with
  | EmptyString => []
  | String c s' => byte_val c :: bytes_of s'
  end.

(** Big-endian bytes of [x], [n] of them. *)
Fixpoint be_bytes (n : nat) (x : Z) : list Z :=
  match n with
  | O => []
  | S n' => Z.land (Z.shiftr x (8 * Z.of_nat n')) 0xff :: be_bytes n' x
  end.

(** The message followed by 0x80, zeros up to 56 modulo 64, and the bit
    length on 8 bytes. *)
Definition pad (msg : list Z) : list Z :=
  let len := Z.of_nat (length msg) in
  let zeros := Z.to_nat ((55 - len) mod 64) in
  msg ++ 0x80 :: repeat 0 zeros ++ be_bytes 8 (8 * len).

Fixpoint words_of (fuel : nat) (bs : list Z) : list Z :=
  match fuel, bs with
  | S fuel', b0 :: b1 :: b2 :: b3 :: rest =>
      (Z.shiftl b0 24 + Z.shiftl b1 16 + Z.shiftl b2 8 + b3)
        :: words_of fuel' rest
  | _, _ => []
  end.

(** The message schedule, newest word first: [sched] holds
    [W(t-1), W(t-2), ...]. *)
Fixpoint extend (n : nat) (sched : list Z) : list Z :=
  match n with
  | O => sched
  | S n' =>
      let w := add32 (add32 (ssig1 (nth 1 sched 0)) (nth 6 sched 0))
                     (add32 (ssig0 (nth 14 sched 0)) (nth 15 sched 0)) in
      extend n' (w :: sched)
  end.

Definition schedule (block : list Z) : list Z :=
  rev (extend 48 (rev block)).

Record regs := Regs { ra : Z; rb : Z; rc : Z; rd : Z;
                      re : Z; rf : Z; rg : Z; rh : Z }.

Definition round (r : regs) (kw : Z * Z) : regs :=
  let t1 := add32 (add32 (add32 (rh r) (bsig1 (re r)))
                         (add32 (Ch (re r) (rf r) (rg r)) (fst kw)))
                  (snd kw) in
  let t2 := add32 (bsig0 (ra r)) (Maj (ra r) (rb r) (rc r)) in
  Regs (add32 t1 t2) (ra r) (rb r) (rc r) (add32 (rd r) t1) (re r) (rf r) (rg r).

Definition regs_of (h : list Z) : regs :=
  Regs (nth 0 h 0) (nth 1 h 0) (nth 2 h 0) (nth 3 h 0)
       (nth 4 h 0) (nth 5 h 0) (nth 6 h 0) (nth 7 h 0).

Definition list_of_regs (r : regs) : list Z :=
  [ra r; rb r; rc r; rd r; re r; rf r; rg r; rh r].

Definition compress (h : list Z) (block : list Z) : list Z :=
  let r := fold_left round (combine K (schedule block)) (regs_of h) in
  map (fun p => add32 (fst p) (snd p)) (combine h (list_of_regs r)).

Fixpoint blocks (fuel : nat) (h : list Z) (ws : list Z) : list Z :=
  match fuel with
  | O => h
  | S fuel' =>
      match ws with
      | [] => h
      | _ => blocks fuel' (compress h (firstn 16 ws)) (skipn 16 ws)
      end
  end.

(** [sha256.Sum256]: the 32 bytes of the digest. *)
Definition sum (data : string) : list Z :=
  let bs := pad (bytes_of data) in
  let ws := words_of (length bs) bs in
  flat_map (be_bytes 4) (blocks (length ws) H0 ws).

Definition hex_digit (n : Z) : ascii :=
  if n <? 10 then ascii_of_nat (Z.to_nat (48 + n))
  else ascii_of_nat (Z.to_nat (87 + n)).

(** [hex.EncodeToString]: two lowercase hexadecimal digits per byte. *)
Fixpoint HexEncodeToString (bs : list Z) : string :=
  match bs with
  | [] => EmptyString
  | b :: bs' =>
      String (hex_digit (Z.shiftr b 4))
        (String (hex_digit (Z.land b 0xf)) (HexEncodeToString bs'))
  end.

End Sha256.

(** ** The blob cache: [internal/pkg/proxy/cache/lru.go] *)

Module LRU.

(** [type entry struct] *)
Record entry := Entry { Key : string; Size : Z; LastAccess : Z }.

Definition zero_entry : entry := Entry EmptyString 0 0.

(** The cache directory: the files in it, by name, with their contents. The
    path [filepath.Join(c.cacheDir, name)] is the file [name] of this
    directory; path cleaning is not modelled. [os.Open] and [os.Stat] fail
    when the file is not there, [os.Remove] of a missing file is the
    [IsNotExist] error that the code ignores. *)
Abbreviation Dir := (gmap string string).

(** [encoding/json] on an [entry]: [json.Encoder.Encode] writes
    [json_encode e] and a newline, [json.Unmarshal] of a line is
    [json_decode]. The properties below hold for every codec. *)
Class EntryCodec := {
  json_encode : entry -> string;
  json_decode : string -> option entry
}.

(** [type Cache struct]. The recency list is a [container/list]: its
    elements are objects with identity, here addresses into [elems], each
    holding the [*entry] of the element; [ll] is the order of the list,
    front first; [cache] is the index [map[string]*list.Element]. *)
Record Cache := mkCache {
  maxSize : Z;
  size : Z;
  elems : gmap nat entry;
  ll : list nat;
  cache : gmap string nat;
  cacheDir : string;
  hits : Z;
  misses : Z;
  evictions : Z;
  lastPersist : Z;
  persistDirty : bool
}.

Definition set_size (v : Z) (c : Cache) : Cache :=
  mkCache (maxSize c) v (elems c) (ll c) (cache c) (cacheDir c)
          (hits c) (misses c) (evictions c) (lastPersist c) (persistDirty c).
Definition set_elems (v : gmap nat entry) (c : Cache) : Cache :=
  mkCache (maxSize c) (size c) v (ll c) (cache c) (cacheDir c)
          (hits c) (misses c) (evictions c) (lastPersist c) (persistDirty c).
Definition set_ll (v : list nat) (c : Cache) : Cache :=
  mkCache (maxSize c) (size c) (elems c) v (cache c) (cacheDir c)
          (hits c) (misses c) (evictions c) (lastPersist c) (persistDirty c).
Definition set_cache (v : gmap string nat) (c : Cache) : Cache :=
  mkCache (maxSize c) (size c) (elems c) (ll c) v (cacheDir c)
          (hits c) (misses c) (evictions c) (lastPersist c) (persistDirty c).
Definition set_hits (v : Z) (c : Cache) : Cache :=
  mkCache (maxSize c) (size c) (elems c) (ll c) (cache c) (cacheDir c)
          v (misses c) (evictions c) (lastPersist c) (persistDirty c).
Definition set_misses (v : Z) (c : Cache) : Cache :=
  mkCache (maxSize c) (size c) (elems c) (ll c) (cache c) (cacheDir c)
          (hits c) v (evictions c) (lastPersist c) (persistDirty c).
Definition set_evictions (v : Z) (c : Cache) : Cache :=
  mkCache (maxSize c) (size c) (elems c) (ll c) (cache c) (cacheDir c)
          (hits c) (misses c) v (lastPersist c) (persistDirty c).
Definition set_lastPersist (v : Z) (c : Cache) : Cache :=
  mkCache (maxSize c) (size c) (elems c) (ll c) (cache c) (cacheDir c)
          (hits c) (misses c) (evictions c) v (persistDirty c).
Definition set_persistDirty (v : bool) (c : Cache) : Cache :=
  mkCache (maxSize c) (size c) (elems c) (ll c) (cache c) (cacheDir c)
          (hits c) (misses c) (evictions c) (lastPersist c) v.

(** *** [container/list] *)

(** The entry held by an element: [e.Value], asserted to be an entry. *)
Definition Value (c : Cache) (e : nat) : entry :=
  default zero_entry (elems c !! e).

(** [l.PushFront(v)]: a new element, at the front. *)
Definition PushFront (v : entry) (c : Cache) : Cache * nat :=
  let e := fresh (dom (elems c)) in
  (set_ll (e :: ll c) (set_elems (<[e := v]> (elems c)) c), e).

Definition unlink (e : nat) (l : list nat) : list nat :=
  filter (fun x => x <> e) l.

(** [l.MoveToFront(e)]: nothing happens when [e] is not in the list. *)
Definition MoveToFront (e : nat) (c : Cache) : Cache :=
  if decide (e ∈ ll c) then set_ll (e :: unlink e (ll c)) c else c.

(** [l.Remove(e)] *)
Definition ListRemove (e : nat) (c : Cache) : Cache :=
  set_ll (unlink e (ll c)) c.

(** [l.Back()] *)
Definition Back (c : Cache) : option nat := last (ll c).

(** Assignment to the fields of the entry held by element [e]. *)
Definition set_Value (e : nat) (v : entry) (c : Cache) : Cache :=
  set_elems (<[e := v]> (elems c)) c.

(** *** Operations *)

Definition persistenceName : string := ".lru_persistence".

(** [persistencePath]: empty when there is no cache directory. *)
Definition persistencePath (c : Cache) : string :=
  if decide (cacheDir c = EmptyString) then EmptyString else persistenceName.

(** [removeElementLocked] *)
Definition removeElementLocked (c : Cache) (e : nat) : Cache * entry :=
  let c1 := ListRemove e c in
  let kv := Value c1 e in
  let c2 := set_cache (delete (Key kv) (cache c1)) c1 in
  (set_size (size c2 - Size kv) c2, kv).

(** [GetReader]: the opened file is returned as its contents. *)
Definition GetReader (key : string) (now : Z) (c : Cache) (d : Dir)
  : option (string * Z) * Cache :=
  match cache c !! key with
  | None => (None, set_misses (misses c + 1) c)
  | Some ee =>
      let c1 := MoveToFront ee c in
      let e := Value c1 ee in
      let c2 := set_Value ee (Entry (Key e) (Size e) now) c1 in
      let size := Size e in
      match d !! key with
      | None =>
          let c3 := match cache c2 !! key with
                    | Some ee' => fst (removeElementLocked c2 ee')
                    | None => c2
                    end in
          (None, set_misses (misses c3 + 1) c3)
      | Some file =>
          (Some (file, size),
           set_persistDirty true (set_hits (hits c2 + 1) c2))
      end
  end.

(** [deleteFiles] *)
Definition deleteFiles (entries : list entry) (d : Dir) : Dir :=
  fold_left (fun d e => delete (Key e) d) entries d.

(** The loop of [evictIfNeeded]; every round takes the back element off the
    list, so the length of the list bounds the number of rounds. *)
Fixpoint evict_loop (fuel : nat) (c : Cache) (toEvict : list entry)
  : Cache * list entry :=
  match fuel with
  | O => (c, toEvict)
  | S fuel' =>
      if size c >? maxSize c then
        match Back c with
        | None => (c, toEvict)
        | Some oldest =>
            let '(c1, removedEntry) := removeElementLocked c oldest in
            evict_loop fuel' (set_evictions (evictions c1 + 1) c1)
                       ((toEvict ++ [removedEntry])%list)
        end
      else (c, toEvict)
  end.

(** [evictIfNeeded] *)
Definition evictIfNeeded (c : Cache) (d : Dir) : Cache * Dir :=
  if maxSize c <=? 0 then (c, d)
  else
    let '(c', toEvict) := evict_loop (length (ll c)) c [] in
    (c', deleteFiles toEvict d).

(** The errors of [Put]: the error of the reader when there is no cache
    directory and the bytes are discarded, and the five errors of the
    insert. *)
Inductive PutError :=
| ErrDiscard
| ErrCreateTemp
| ErrWriteTemp
| ErrSyncTemp
| ErrDigestMismatch (expected actual : string)
| ErrMoveFile.

(** What the operating system does to one call of [Put]: a failure of
    [os.CreateTemp], of [io.Copy] after some bytes (a read or write error),
    of [Sync] or of [os.Rename], or none. *)
Inductive PutFault :=
| PutOk
| CreateTempFails
| CopyFails (written : nat)
| SyncFails
| RenameFails.

(** The name [os.CreateTemp] picks: one that is not in the directory. *)
Definition tempName (pattern : string) (d : Dir) : string :=
  fresh_string pattern d.

Definition actualDigest (data : string) : string :=
  "sha256:" ++ Sha256.HexEncodeToString (Sha256.sum data).

Definition take_bytes (n : nat) (s : string) : string := substring 0 n s.

(** The part of [Put] that runs under the lock before the eviction: the
    entry of the key is replaced and moved to the front, or a new entry is
    pushed to the front and indexed. *)
Definition putLocked (key : string) (size now : Z) (c : Cache) : Cache :=
  match cache c !! key with
  | Some ee =>
      let c' := MoveToFront ee c in
      let e := Value c' ee in
      let oldSize := Size e in
      let c'' := set_Value ee (Entry (Key e) size now) c' in
      set_size (LRU.size c'' + (size - oldSize)) c''
  | None =>
      let '(c', ee) := PushFront (Entry key size now) c in
      let c'' := set_cache (<[key := ee]> (cache c')) c' in
      set_size (LRU.size c'' + size) c''
  end.

(** [Put]. The deferred [os.Remove(tmpPath)] runs on every return after the
    temp file was created. *)
Definition Put (key : string) (reader : string) (expectedDigest : string)
    (now : Z) (fault : PutFault) (c : Cache) (d : Dir)
  : option PutError * Cache * Dir :=
  if decide (cacheDir c = EmptyString) then
    match fault with
    | CopyFails _ => (Some ErrDiscard, c, d)
    | _ => (None, c, d)
    end
  else
    match fault with
    | CreateTempFails => (Some ErrCreateTemp, c, d)
    | _ =>
      let tmpPath := tempName "blob-.tmp" d in
      match fault with
      | CopyFails n =>
          let d1 := <[tmpPath := take_bytes n reader]> d in
          (Some ErrWriteTemp, c, delete tmpPath d1)
      | _ =>
        let d1 := <[tmpPath := reader]> d in
        let size := Z.of_nat (String.length reader) in
        match fault with
        | SyncFails => (Some ErrSyncTemp, c, delete tmpPath d1)
        | _ =>
          if negb (String.eqb (actualDigest reader) expectedDigest) then
            (Some (ErrDigestMismatch expectedDigest (actualDigest reader)),
             c, delete tmpPath d1)
          else if (maxSize c >? 0) && (size >? maxSize c) then
            (None, c, delete tmpPath d1)
          else
            match fault with
            | RenameFails => (Some ErrMoveFile, c, delete tmpPath d1)
            | _ =>
              let d2 := <[key := reader]> (delete tmpPath d1) in
              let c1 := putLocked key size now c in
              let '(c2, d3) := evictIfNeeded c1 d2 in
              (None, set_persistDirty true c2, delete tmpPath d3)
            end
        end
      end
    end.

(** [Remove] *)
Definition Remove (key : string) (c : Cache) (d : Dir) : Cache * Dir :=
  match cache c !! key with
  | Some ee =>
      let c1 := fst (removeElementLocked c ee) in
      (set_persistDirty true c1, delete key d)
  | None => (c, d)
  end.

(** [Clear] *)
Definition Clear (c : Cache) (d : Dir) : Cache * Dir :=
  let d' := map_fold (fun key _ d => delete key d) d (cache c) in
  (set_persistDirty true (set_size 0 (set_cache ∅ (set_ll [] c))), d').

(** [Stats] *)
Record CacheStats := mkStats {
  Hits : Z; Misses : Z; Evictions : Z; Items : Z; CurrentSize : Z; MaxSize : Z
}.

Definition Stats (c : Cache) : CacheStats :=
  mkStats (hits c) (misses c) (evictions c) (Z.of_nat (length (ll c)))
          (size c) (maxSize c).

(** The errors of [Persist] and the failures the operating system can
    inject into one call. *)
Inductive PersistError :=
| ErrCreateTempPersistence
| ErrEncodeEntry
| ErrFlushWriter
| ErrSyncPersistence
| ErrRenamePersistence.

Inductive PersistFault :=
| PersistOk
| PersistCreateTempFails
| PersistEncodeFails
| PersistFlushFails
| PersistSyncFails
| PersistRenameFails.

Definition newline : string := String (ascii_of_nat 10) EmptyString.

(** The lines [encoder.Encode] writes for the entries, in order. *)
Definition encode_entries `{EntryCodec} (entries : list entry) : string :=
  fold_right (fun e acc => json_encode e ++ newline ++ acc) EmptyString entries.

(** [Persist]: the entries are collected from the back of the list to the
    front, written to a temp file, and the temp file is renamed over the
    persistence file. *)
Definition Persist `{EntryCodec} (now : Z) (fault : PersistFault)
    (c : Cache) (d : Dir) : option PersistError * Cache * Dir :=
  if negb (persistDirty c) then (None, c, d)
  else
    let path := persistencePath c in
    if decide (path = EmptyString) then (None, c, d)
    else
      let entries := map (Value c) (rev (ll c)) in
      match fault with
      | PersistCreateTempFails => (Some ErrCreateTempPersistence, c, d)
      | _ =>
        let tmpPath := tempName ".lru_persistence..tmp" d in
        let d1 := <[tmpPath := encode_entries entries]> d in
        match fault with
        | PersistEncodeFails => (Some ErrEncodeEntry, c, delete tmpPath d1)
        | PersistFlushFails => (Some ErrFlushWriter, c, delete tmpPath d1)
        | PersistSyncFails => (Some ErrSyncPersistence, c, delete tmpPath d1)
        | PersistRenameFails => (Some ErrRenamePersistence, c, delete tmpPath d1)
        | _ =>
          let d2 := <[path := encode_entries entries]> (delete tmpPath d1) in
          (None, set_lastPersist now (set_persistDirty false c),
           delete tmpPath d2)
        end
      end.

(** [bufio.Scanner] with the default [ScanLines]: the pieces between line
    feeds, without the empty piece after a final line feed, each without
    one trailing carriage return. *)
Definition drop_cr (line : string) : string :=
  match rev (list_ascii_of_string line) with
  | c :: rest =>
      if Ascii.eqb c (ascii_of_nat 13)
      then string_of_list_ascii (rev rest) else line
  | [] => line
  end.

Definition drop_last_empty (pieces : list string) : list string :=
  match rev pieces with
  | EmptyString :: rest => rev rest
  | _ => pieces
  end.

Definition ScanLines (file : string) : list string :=
  map drop_cr (drop_last_empty (GoStrings.Split file (ascii_of_nat 10))).

(** The first loop of [load]: every line that decodes, whose file exists
    and has the recorded size, is kept; a file of another size is removed. *)
Fixpoint validate `{EntryCodec} (lines : list string) (d : Dir)
  : list entry * Dir :=
  match lines with
  | [] => ([], d)
  | line :: rest =>
      match json_decode line with
      | None => validate rest d
      | Some e =>
          match d !! Key e with
          | None => validate rest d
          | Some file =>
              if negb (Z.of_nat (String.length file) =? Size e)
              then validate rest (delete (Key e) d)
              else let '(es, d') := validate rest d in (e :: es, d')
          end
      end
  end.

(** One round of the second loop of [load]. *)
Definition load_insert (c : Cache) (e : entry) : Cache :=
  let '(c', element) := PushFront e c in
  set_cache (<[Key e := element]> (cache c')) c'.

Inductive LoadError := ErrOpenPersistence | ErrScanPersistence.

(** Failures of [load]: [os.Open] fails though the file exists, or the
    scanner stops with an error after some lines. *)
Inductive LoadFault :=
| LoadOk
| OpenFails
| ScanFails (lines_read : nat).

(** [load] *)
Definition load `{EntryCodec} (fault : LoadFault) (c : Cache) (d : Dir)
  : option LoadError * Cache * Dir :=
  let path := persistencePath c in
  if decide (path = EmptyString) then (None, c, d)
  else
    match d !! path with
    | None => (None, c, d)
    | Some file =>
        match fault with
        | OpenFails => (Some ErrOpenPersistence, c, d)
        | ScanFails n =>
            let '(_, d') := validate (take n (ScanLines file)) d in
            (Some ErrScanPersistence, c, d')
        | LoadOk =>
            let '(validEntries, d') := validate (ScanLines file) d in
            let c1 := fold_left load_insert validEntries c in
            let totalSize :=
              fold_left (fun t e => t + Size e) validEntries 0 in
            (None, set_size (size c1 + totalSize) c1, d')
        end
    end.

(** [NewLRUCache]: [None] is the error of [os.MkdirAll]; an error of [load]
    is logged and the cache is returned as [load] left it. *)
Definition NewLRUCache `{EntryCodec} (maxSize : Z) (cacheDir : string)
    (mkdirFails : bool) (fault : LoadFault) (d : Dir)
  : option Cache * Dir :=
  if negb (String.eqb cacheDir EmptyString) && mkdirFails then (None, d)
  else
    let c := mkCache maxSize 0 ∅ [] ∅ cacheDir 0 0 0 0 false in
    let '(_, c', d') := load fault c d in
    (Some c', d').

Definition CurrentSize' (c : Cache) : Z := size c.
Definition Len (c : Cache) : Z := Z.of_nat (length (ll c)).

End LRU.

(** ** A codec to run the cache on concrete files *)

Module JsonLines.
Import LRU.

Definition dquote : string := String (ascii_of_nat 34) EmptyString.

(** One JSON object per entry, fields in the order of the struct; the
    instant is written as the integer that models it. Keys are written as
    they are: the keys in use are digests, which need no escaping. *)
Definition encode (e : entry) : string :=
  "{" ++ dquote ++ "key" ++ dquote ++ ":" ++ dquote ++ Key e ++ dquote ++
  "," ++ dquote ++ "size" ++ dquote ++ ":" ++ pretty (Size e) ++
  "," ++ dquote ++ "last_access" ++ dquote ++ ":" ++ pretty (LastAccess e) ++
  "}".

Definition expect (p s : string) : option string :=
  if GoStrings.HasPrefix s p
  then Some (GoStrings.drop_bytes (String.length p) s) else None.

Fixpoint until_quote (s : string) : option (string * string) :=
  match s with
  | EmptyString => None
  | String c s' =>
      if Ascii.eqb c (ascii_of_nat 34) then Some (EmptyString, s')
      else match until_quote s' with
           | Some (w, rest) => Some (String c w, rest)
           | None => None
           end
  end.

Definition digit_val (c : ascii) : option Z :=
  let n := nat_of_ascii c in
  if ((48 <=? n) && (n <=? 57))%nat then Some (Z.of_nat n - 48) else None.

Fixpoint digits (acc : Z) (s : string) : Z * string :=
  match s with
  | EmptyString => (acc, s)
  | String c s' =>
      match digit_val c with
      | Some v => digits (10 * acc + v) s'
      | None => (acc, s)
      end
  end.

Definition number (s : string) : option (Z * string) :=
  match s with
  | String c s' =>
      if Ascii.eqb c (ascii_of_nat 45) then
        match s' with
        | String c' _ =>
            match digit_val c' with
            | Some _ => let '(v, rest) := digits 0 s' in Some (- v, rest)
            | None => None
            end
        | EmptyString => None
        end
      else match digit_val c with
           | Some _ => Some (digits 0 s)
           | None => None
           end
  | EmptyString => None
  end.

Definition decode (line : string) : option entry :=
  s1 ← expect ("{" ++ dquote ++ "key" ++ dquote ++ ":" ++ dquote) line;
  '(key, s2) ← until_quote s1;
  s3 ← expect ("," ++ dquote ++ "size" ++ dquote ++ ":") s2;
  '(size, s4) ← number s3;
  s5 ← expect ("," ++ dquote ++ "last_access" ++ dquote ++ ":") s4;
  '(last, s6) ← number s5;
  if String.eqb s6 "}" then Some (Entry key size last) else None.

#[export] Instance codec : EntryCodec :=
  {| json_encode := encode; json_decode := decode |}.

End JsonLines.

(** ** Invariants of the blob cache *)

Module Invariants.
Import LRU.

(** The sum of [f] over a list. *)
Definition sumZ {A} (f : A -> Z) (l : list A) : Z :=
  foldr (fun x acc => f x + acc) 0 l.

(** The sizes of the entries on the recency list, added up. *)
Definition total (c : Cache) : Z := sumZ (fun a => Size (Value c a)) (ll c).

(** The list has no element twice, every element of the list is
    allocated, the index maps a key to an element exactly when the element
    is on the list and holds that key, and no size is negative. *)
Record shape (c : Cache) : Prop := mkShape {
  shape_nodup : NoDup (ll c);
  shape_alloc : forall a, a ∈ ll c -> is_Some (elems c !! a);
  shape_index : forall k a,
    cache c !! k = Some a <-> a ∈ ll c /\ Key (Value c a) = k;
  shape_nonneg : forall a, a ∈ ll c -> 0 <= Size (Value c a)
}.

(** A well-formed cache: the shape, and a size counter that is the total. *)
Definition wf (c : Cache) : Prop := shape c /\ size c = total c.

(** The loop of [evictIfNeeded]: the victims are the elements at the back
    of the list, taken from the back; the loop stops when the size fits
    or the list is empty. *)
Definition evict_post (c : Cache) (acc : list entry)
    (r : Cache * list entry) : Prop :=
  wf r.1 /\ maxSize r.1 = maxSize c /\ elems r.1 = elems c /\
  (size r.1 <= maxSize c \/ ll r.1 = []) /\
  (size c <= maxSize c -> r.1 = c) /\
  exists victims,
    ll c = (ll r.1 ++ rev victims)%list /\
    r.2 = (acc ++ map (Value c) victims)%list /\
    evictions r.1 = evictions c + Z.of_nat (length victims).

(** What a [Put] that gets as far as the index does to the cache. *)
Definition inserted (key reader : string) (now : Z) (c c' : Cache) : Prop :=
  exists d2,
    c' = set_persistDirty true
           (evictIfNeeded
              (putLocked key (Z.of_nat (String.length reader)) now c) d2).1.

(** The bound: with a positive maximum and an entry left, the size counter
    does not exceed the maximum. *)
Definition bounded (c : Cache) : Prop :=
  0 < maxSize c -> ll c <> [] -> size c <= maxSize c.

(** The sizes of the entries the index points to, added up. *)
Definition index_sum (c : Cache) : Z :=
  sumZ (fun ka => Size (Value c ka.2)) (map_to_list (cache c)).

(** The three equalities between index, list and counter: the sizes of
    the index entries add up to the size counter, the item count that
    [Stats] reports is the number of index entries, and no two elements of
    the recency list hold the same key. *)
Definition consistent (c : Cache) : Prop :=
  index_sum c = size c /\
  Items (Stats c) = Z.of_nat (base.size (cache c)) /\
  NoDup (map (fun a => Key (Value c a)) (ll c)).

(** A run of the cache: the operations a client can call, one after the
    other, on the cache and its directory. *)
Inductive Op :=
| OpGetReader (key : string) (now : Z)
| OpPut (key reader expectedDigest : string) (now : Z) (fault : PutFault)
| OpRemove (key : string)
| OpClear
| OpPersist (now : Z) (fault : PersistFault).

Definition step `{EntryCodec} (st : Cache * Dir) (o : Op) : Cache * Dir :=
  match o with
  | OpGetReader key now => ((GetReader key now st.1 st.2).2, st.2)
  | OpPut key reader expected now fault =>
      let r := Put key reader expected now fault st.1 st.2 in (r.1.2, r.2)
  | OpRemove key => Remove key st.1 st.2
  | OpClear => Clear st.1 st.2
  | OpPersist now fault =>
      let r := Persist now fault st.1 st.2 in (r.1.2, r.2)
  end.

Definition run `{EntryCodec} (ops : list Op) (st : Cache * Dir) : Cache * Dir :=
  fold_left step ops st.

End Invariants.

(** ** [encoding/base64], standard encoding with padding *)

Module Base64.

Definition alphabet : list ascii :=
  list_ascii_of_string
    "ABCDEFGHIJKLMNOPQRSTUVWXYZabcdefghijklmnopqrstuvwxyz0123456789+/".

Definition pad_char : ascii := ascii_of_nat 61.

Definition enc (v : Z) : ascii := nth (Z.to_nat (v mod 64)) alphabet pad_char.

Fixpoint encode_bytes (bs : list Z) : string :=
  match bs with
  | a :: b :: c :: rest =>
      let n := a * 65536 + b * 256 + c in
      String (enc (n / 262144)) (String (enc (n / 4096))
        (String (enc (n / 64)) (String (enc n) (encode_bytes rest))))
  | [a; b] =>
      let n := a * 65536 + b * 256 in
      String (enc (n / 262144)) (String (enc (n / 4096))
        (String (enc (n / 64)) (String pad_char EmptyString)))
  | [a] =>
      let n := a * 65536 in
      String (enc (n / 262144)) (String (enc (n / 4096))
        (String pad_char (String pad_char EmptyString)))
  | [] => EmptyString
  end.

(** [base64.StdEncoding.EncodeToString] *)
Definition EncodeToString (s : string) : string :=
  encode_bytes (Sha256.bytes_of s).

Fixpoint index_of (c : ascii) (l : list ascii) (i : Z) : option Z :=
  match l with
  | [] => None
  | x :: l' => if Ascii.eqb c x then Some i else index_of c l' (i + 1)
  end.

Definition dec (c : ascii) : option Z := index_of c alphabet 0.

Definition byte_char (v : Z) : ascii := ascii_of_nat (Z.to_nat (v mod 256)).

Fixpoint decode_chars (cs : list ascii) : option string :=
  match cs with
  | [] => Some EmptyString
  | c1 :: c2 :: c3 :: c4 :: rest =>
      v1 ← dec c1; v2 ← dec c2;
      if Ascii.eqb c4 pad_char then
        match rest with
        | [] =>
            if Ascii.eqb c3 pad_char then
              Some (String (byte_char ((v1 * 64 + v2) / 16)) EmptyString)
            else
              v3 ← dec c3;
              let n := v1 * 4096 + v2 * 64 + v3 in
              Some (String (byte_char (n / 1024))
                     (String (byte_char (n / 4)) EmptyString))
        | _ => None
        end
      else
        v3 ← dec c3; v4 ← dec c4;
        let n := v1 * 262144 + v2 * 4096 + v3 * 64 + v4 in
        tail ← decode_chars rest;
        Some (String (byte_char (n / 65536))
               (String (byte_char (n / 256)) (String (byte_char n) tail)))
  | _ => None
  end.

(** [base64.StdEncoding.DecodeString]; [None] is its error. *)
Definition DecodeString (s : string) : option string :=
  decode_chars (list_ascii_of_string s).

End Base64.

(** ** [net/http] values *)

Module Http.

(** [textproto.CanonicalMIMEHeaderKey] on keys made of letters, digits and
    hyphens: the first letter and every letter after a hyphen in upper case,
    the others in lower case. *)
Definition upper_ascii (c : ascii) : ascii :=
  let n := nat_of_ascii c in
  if ((97 <=? n) && (n <=? 122))%nat then ascii_of_nat (n - 32) else c.

Fixpoint canonical (upper : bool) (s : string) : string :=
  match s with
  | EmptyString => EmptyString
  | String c s' =>
      String (if upper then upper_ascii c else GoStrings.lower_ascii c)
             (canonical (Ascii.eqb c (ascii_of_nat 45)) s')
  end.

Definition CanonicalMIMEHeaderKey (s : string) : string := canonical true s.

(** [http.Header]: canonical key to values. *)
Abbreviation Header := (gmap string (list string)).

Definition Header_Get (h : Header) (key : string) : string :=
  match h !! CanonicalMIMEHeaderKey key with
  | Some (v :: _) => v
  | _ => EmptyString
  end.

Definition Header_Set (h : Header) (key value : string) : Header :=
  <[CanonicalMIMEHeaderKey key := [value]]> h.

Definition Header_Del (h : Header) (key : string) : Header :=
  delete (CanonicalMIMEHeaderKey key) h.

Record URL := mkURL { Scheme : string; Host : string; Path : string }.

(** [http.Request]: the fields the proxy reads or writes. *)
Record Request := mkRequest {
  Method : string;
  Url : URL;
  ReqHost : string;
  RequestURI : string;
  ReqHeader : Header
}.

Definition set_ReqHeader (h : Header) (r : Request) : Request :=
  mkRequest (Method r) (Url r) (ReqHost r) (RequestURI r) h.

(** A response body: the stream of an upstream response, the file opened by
    the cache, the [cacheWriter] that tees [original] into [Put(digest, _,
    digest)] on the cache of [host], or a body after [Close]. *)
Inductive Body :=
| NoBody
| Stream (data : string)
| File (name : string) (data : string)
| CacheWriter (original : Body) (host digest : string)
| Closed (b : Body).

Record Response := mkResponse {
  StatusCode : Z;
  Body_ : Body;
  RespHeader : Header;
  ContentLength : Z;
  RespRequest : option Request
}.

Definition set_Body (b : Body) (r : Response) : Response :=
  mkResponse (StatusCode r) b (RespHeader r) (ContentLength r) (RespRequest r).

Definition StatusOK : Z := 200.
Definition StatusUnauthorized : Z := 401.
Definition StatusForbidden : Z := 403.
Definition MethodGet : string := "GET".

(** [strings.Cut(s, ":")] *)
Fixpoint Cut (s : string) (sep : ascii) : option (string * string) :=
  match s with
  | EmptyString => None
  | String c s' =>
      if Ascii.eqb c sep then Some (EmptyString, s')
      else match Cut s' sep with
           | Some (a, b) => Some (String c a, b)
           | None => None
           end
  end.

(** [parseBasicAuth] of [net/http]. *)
Definition parseBasicAuth (auth : string) : option (string * string) :=
  let prefix := "Basic " in
  if (String.length auth <? String.length prefix)%nat
     || negb (String.eqb (GoStrings.ToLower (substring 0 6 auth))
                         (GoStrings.ToLower prefix))
  then None
  else
    match Base64.DecodeString (GoStrings.drop_bytes 6 auth) with
    | None => None
    | Some cs => Cut cs (ascii_of_nat 58)
    end.

(** [r.BasicAuth()] *)
Definition BasicAuth (r : Request) : option (string * string) :=
  let auth := Header_Get (ReqHeader r) "Authorization" in
  if String.eqb auth EmptyString then None else parseBasicAuth auth.

End Http.

(** ** Configuration: [internal/pkg/config] *)

Module Config.
Import Http.

Record Auth := mkAuth { Username : string; Password : string }.

Record RegistrySettings := mkSettings {
  SAuth : Auth;
  CacheDir : string;
  CacheMaxSize : Z;
  UpstreamProxy : string;
  FollowRedirects : option bool;
  Insecure : option bool
}.

Record Config := mkConfig {
  Port : Z;
  LogLevel : string;
  DefaultRegistry : string;
  BaseURL : string;
  WhitelistMode : bool;
  CAuth : Auth;
  Defaults : RegistrySettings;
  Registries : gmap string RegistrySettings
}.

(** [GetRegistrySettings] *)
Definition GetRegistrySettings (c : Config) (registryName : string)
  : RegistrySettings :=
  match Registries c !! registryName with
  | Some settings => settings
  | None => Defaults c
  end.

(** [IsRegistryAllowed] *)
Definition IsRegistryAllowed (c : Config) (registryName : string) : bool :=
  if negb (WhitelistMode c) then true
  else bool_decide (is_Some (Registries c !! registryName)).

(** [Auth.IsAuthenticated] *)
Definition IsAuthenticated (a : Auth) (r : Request) : bool :=
  if String.eqb (Username a) EmptyString || String.eqb (Password a) EmptyString
  then true
  else
    match BasicAuth r with
    | None => false
    | Some (user, pass) =>
        String.eqb user (Username a) && String.eqb pass (Password a)
    end.

(** [Auth.ApplyToRequest]: the request after the call and the result. *)
Definition ApplyToRequest (a : Auth) (req : Request) : Request * bool :=
  if String.eqb (Username a) EmptyString || String.eqb (Password a) EmptyString
  then (req, false)
  else
    let auth := Base64.EncodeToString (Username a ++ ":" ++ Password a) in
    (set_ReqHeader (Header_Set (ReqHeader req) "Authorization"
                               ("Basic " ++ auth)) req, true).

End Config.

(** ** The interceptors: [internal/pkg/proxy/middleware] *)

Module Middleware.
Import GoStrings Http Config.

Inductive TokenError :=
| TokenGetFailed (msg : string)
| TokenStatus (status : Z)
| TokenDecodeFailed
| TokenNotFound.

(** Errors: what the rest of the chain returns, and the two errors of
    [fetchTokenAndRetry]. *)
Inductive error :=
| Upstream (msg : string)
| MissingRealm
| AnonymousTokenFailed (cause : TokenError).

Definition Result : Type := Response + error.

(** [type Handler]: a function from a request to a response or an error;
    the rest of the chain, with a state [S] of its own (the upstream
    registries). *)
Definition Handler (S : Type) : Type := Request -> S -> Result * S.

(** A handler that also records every request it is given. *)
Definition logged {S : Type} (next : Handler S) : Handler (list Request * S) :=
  fun r st =>
    let '(res, s') := next r (snd st) in
    (res, ((fst st ++ [r])%list, s')).

(** *** The auth interceptor: [middleware_auth.go] *)

Record cachedToken := mkToken { token : string; expiresAt : Z }.

Record AuthMiddleware := mkAuthMiddleware {
  cfg : Config;
  tokenCache : gmap string cachedToken
}.

(** The token endpoint as [http.Get] sees it, and the body as
    [json.Decoder.Decode] reads it. *)
Inductive GetResult :=
| GetFails (msg : string)
| GetReturns (status : Z) (body : string).

Record tokenResp := mkTokenResp {
  Token : string; AccessToken : string; ExpiresIn : Z
}.

Record Net := mkNet {
  http_Get : string -> GetResult;
  json_Decode : string -> option tokenResp
}.

Definition second : Z := 1000000000.

(** [parseAuthHeader] *)
Definition parseAuthHeader (header : string) : gmap string string :=
  let parts := Split (TrimPrefix (ToLower header) "bearer ") (ascii_of_nat 44) in
  fold_left
    (fun params p =>
       let p := TrimSpace p in
       match SplitN2 p (ascii_of_nat 61) with
       | [k; v] => <[k := Trim v JsonLines.dquote]> params
       | _ => params
       end)
    parts ∅.

(** [getScopeFromRequest] *)
Definition getScopeFromRequest (req : Request) : string :=
  let path := Path (Url req) in
  let parts := Split (Trim path "/") (ascii_of_nat 47) in
  if (3 <=? length parts)%nat && String.eqb (nth 0 parts EmptyString) "v2" then
    let repo := Join (take (length parts - 3) (drop 1 parts)) "/" in
    let lastPart := nth (length parts - 2) parts EmptyString in
    if negb (String.eqb repo EmptyString)
       && (String.eqb lastPart "manifests" || String.eqb lastPart "blobs")
    then "repository:" ++ repo ++ ":pull"
    else EmptyString
  else EmptyString.

(** [tryApplyCachedToken] *)
Definition tryApplyCachedToken (m : AuthMiddleware) (req : Request) (now : Z)
  : Request * AuthMiddleware :=
  let scope := getScopeFromRequest req in
  if String.eqb scope EmptyString then (req, m)
  else
    let cacheKey := Host (Url req) ++ "::" ++ scope in
    match tokenCache m !! cacheKey with
    | None => (req, m)
    | Some cached =>
        if now >? expiresAt cached then
          (req, mkAuthMiddleware (cfg m) (delete cacheKey (tokenCache m)))
        else
          (set_ReqHeader (Header_Set (ReqHeader req) "Authorization"
                                     ("Bearer " ++ token cached)) req, m)
    end.

(** [applyAuth] *)
Definition applyAuth (m : AuthMiddleware) (req : Request) (now : Z)
  : Request * AuthMiddleware :=
  let settings := GetRegistrySettings (cfg m) (Host (Url req)) in
  if negb (String.eqb (Username (SAuth settings)) EmptyString) then
    (fst (ApplyToRequest (SAuth settings) req), m)
  else tryApplyCachedToken m req now.

(** [getAnonymousToken] *)
Definition getAnonymousToken (net : Net) (realm service scope : string)
  : (string * Z) + TokenError :=
  let authURL := realm ++ "?service=" ++ service in
  let authURL := if negb (String.eqb scope EmptyString)
                 then authURL ++ "&scope=" ++ scope else authURL in
  match http_Get net authURL with
  | GetFails msg => inr (TokenGetFailed msg)
  | GetReturns status body =>
      if negb (status =? StatusOK) then inr (TokenStatus status)
      else
        match json_Decode net body with
        | None => inr TokenDecodeFailed
        | Some tr =>
            if negb (String.eqb (Token tr) EmptyString)
            then inl (Token tr, ExpiresIn tr)
            else if negb (String.eqb (AccessToken tr) EmptyString)
            then inl (AccessToken tr, ExpiresIn tr)
            else inr TokenNotFound
        end
  end.

Definition param (params : gmap string string) (k : string) : string :=
  default EmptyString (params !! k).

(** [fetchTokenAndRetry]. The body of the original response is closed
    before the retry; the response the caller holds is the closed one. *)
Definition fetchTokenAndRetry {S : Type} (net : Net) (m : AuthMiddleware)
    (req : Request) (origResp : Response) (next : Handler S) (now : Z) (s : S)
  : Result * Response * AuthMiddleware * S :=
  let authHeader := Header_Get (RespHeader origResp) "Www-Authenticate" in
  let params := parseAuthHeader authHeader in
  match params !! "realm" with
  | None => (inr MissingRealm, origResp, m, s)
  | Some realm =>
      match getAnonymousToken net realm (param params "service")
                              (param params "scope") with
      | inr err => (inr (AnonymousTokenFailed err), origResp, m, s)
      | inl (token, expiresIn) =>
          let expiresIn := if expiresIn =? 0 then 60 else expiresIn in
          let cacheKey := Host (Url req) ++ "::" ++ param params "scope" in
          let expiresAt := now + expiresIn * second in
          let m' := mkAuthMiddleware (cfg m)
                      (<[cacheKey := mkToken token expiresAt]> (tokenCache m)) in
          let origResp' := set_Body (Closed (Body_ origResp)) origResp in
          let retryReq :=
            set_ReqHeader (Header_Set (ReqHeader req) "Authorization"
                                      ("Bearer " ++ token)) req in
          let '(res, s') := next retryReq s in
          (res, origResp', m', s')
      end
  end.

(** [handleAuthChallenge] *)
Definition handleAuthChallenge {S : Type} (net : Net) (m : AuthMiddleware)
    (req : Request) (resp : Response) (next : Handler S) (now : Z) (s : S)
  : Result * AuthMiddleware * S :=
  if negb (StatusCode resp =? StatusUnauthorized)
     && negb (StatusCode resp =? StatusForbidden)
  then (inl resp, m, s)
  else
    let authHeader := Header_Get (RespHeader resp) "Www-Authenticate" in
    if negb (HasPrefix (ToLower authHeader) "bearer ") then (inl resp, m, s)
    else
      match fetchTokenAndRetry net m req resp next now s with
      | (inr _, resp', m', s') => (inl resp', m', s')
      | (inl retryResp, _, m', s') => (inl retryResp, m', s')
      end.

(** [AuthMiddleware.Process]; [now] is the clock when the cached token is
    looked up, [now'] the clock when a fetched token is stored. *)
Definition AuthProcess {S : Type} (net : Net) (m : AuthMiddleware)
    (req : Request) (next : Handler S) (now now' : Z) (s : S)
  : Result * AuthMiddleware * S :=
  let '(req1, m1) := applyAuth m req now in
  match next req1 s with
  | (inr err, s1) => (inr err, m1, s1)
  | (inl resp, s1) => handleAuthChallenge net m1 req1 resp next now' s1
  end.

(** *** The cache manager: [CacheManager] of package [proxy] *)

(** The file system: the directories by path, each with its files. *)
Abbreviation FS := (gmap string LRU.Dir).

Record CacheManager := mkCacheManager {
  cm_cfg : Config;
  caches : gmap string LRU.Cache
}.

(** What the operating system does when a cache is constructed. *)
Record NewFaults := mkNewFaults {
  mkdirFails : bool;
  loadFault : LRU.LoadFault
}.

Definition dir_of (fs : FS) (path : string) : LRU.Dir :=
  default ∅ (fs !! path).

(** [GetCache]: the cache of the host, constructed on first use; when the
    construction fails a cache without directory takes its place. The
    cache is returned by its key in [caches]. *)
Definition GetCache `{LRU.EntryCodec} (cm : CacheManager)
    (registryHost : string) (faults : NewFaults) (fs : FS)
  : CacheManager * FS :=
  match caches cm !! registryHost with
  | Some _ => (cm, fs)
  | None =>
      let settings := GetRegistrySettings (cm_cfg cm) registryHost in
      let dir := CacheDir settings in
      match LRU.NewLRUCache (CacheMaxSize settings) dir (mkdirFails faults)
                            (loadFault faults) (dir_of fs dir) with
      | (Some newCache, d') =>
          (mkCacheManager (cm_cfg cm) (<[registryHost := newCache]> (caches cm)),
           if String.eqb dir EmptyString then fs else <[dir := d']> fs)
      | (None, _) =>
          let newCache :=
            LRU.mkCache 0 0 ∅ [] ∅ EmptyString 0 0 0 0 false in
          (mkCacheManager (cm_cfg cm) (<[registryHost := newCache]> (caches cm)),
           fs)
      end
  end.

(** *** The cache interceptor: [middleware_cache.go] *)

(** [isBlobRequest] *)
Definition isBlobRequest (req : Request) : bool :=
  if negb (String.eqb (Method req) MethodGet) then false
  else
    let parts := Split (Trim (Path (Url req)) "/") (ascii_of_nat 47) in
    (4 <=? length parts)%nat
    && String.eqb (nth (length parts - 2) parts EmptyString) "blobs".

(** [extractDigestFromPath] *)
Definition extractDigestFromPath (path : string) : string :=
  let parts := Split (Trim path "/") (ascii_of_nat 47) in
  if (2 <=? length parts)%nat
     && String.eqb (nth (length parts - 2) parts EmptyString) "blobs"
  then nth (length parts - 1) parts EmptyString
  else EmptyString.

(** [tryServeFromCache] *)
Definition tryServeFromCache `{LRU.EntryCodec} (cm : CacheManager)
    (req : Request) (now : Z) (faults : NewFaults) (fs : FS)
  : option Response * CacheManager * FS :=
  if negb (isBlobRequest req) then (None, cm, fs)
  else
    let digest := extractDigestFromPath (Path (Url req)) in
    if String.eqb digest EmptyString then (None, cm, fs)
    else
      let host := Host (Url req) in
      let '(cm1, fs1) := GetCache cm host faults fs in
      match caches cm1 !! host with
      | None => (None, cm1, fs1)
      | Some cache =>
          let '(res, cache') :=
            LRU.GetReader digest now cache (dir_of fs1 (LRU.cacheDir cache)) in
          let cm2 := mkCacheManager (cm_cfg cm1)
                                    (<[host := cache']> (caches cm1)) in
          match res with
          | None => (None, cm2, fs1)
          | Some (reader, size) =>
              (Some (mkResponse StatusOK (File digest reader) ∅ size (Some req)),
               cm2, fs1)
          end
      end.

(** [cacheResponse]: the tee is the [CacheWriter] body; the [Put] it feeds
    runs when the body is read, after the interceptor has returned. *)
Definition cacheResponse `{LRU.EntryCodec} (cm : CacheManager)
    (req : Request) (resp : Response) (faults : NewFaults) (fs : FS)
  : Response * CacheManager * FS :=
  if negb (isBlobRequest req) || negb (StatusCode resp =? StatusOK)
  then (resp, cm, fs)
  else
    let digest := extractDigestFromPath (Path (Url req)) in
    if String.eqb digest EmptyString then (resp, cm, fs)
    else
      let host := Host (Url req) in
      let '(cm1, fs1) := GetCache cm host faults fs in
      (set_Body (CacheWriter (Body_ resp) host digest) resp, cm1, fs1).

(** [CacheMiddleware.Process] *)
Definition CacheProcess `{LRU.EntryCodec} {S : Type} (cm : CacheManager)
    (req : Request) (next : Handler S) (now : Z) (faults : NewFaults)
    (fs : FS) (s : S)
  : Result * CacheManager * FS * S :=
  match tryServeFromCache cm req now faults fs with
  | (Some resp, cm1, fs1) => (inl resp, cm1, fs1, s)
  | (None, cm1, fs1) =>
      match next req s with
      | (inr err, s1) => (inr err, cm1, fs1, s1)
      | (inl resp, s1) =>
          let '(resp', cm2, fs2) := cacheResponse cm1 req resp faults fs1 in
          (inl resp', cm2, fs2, s1)
      end
  end.

End Middleware.

(** ** Routing and the outer handler: [internal/pkg/proxy/proxy.go] *)

Module Proxy.
Import GoStrings Http Config.

(** [newDirector] *)
Definition newDirector (cfg : Config) (req : Request) : Request :=
  let remoteHost := DefaultRegistry cfg in
  let path := Path (Url req) in
  let parts := Split (Trim path "/") (ascii_of_nat 47) in
  let '(remoteHost, path) :=
    if (2 <=? length parts)%nat && String.eqb (nth 0 parts EmptyString) "v2"
    then
      let potentialRegistry := nth 1 parts EmptyString in
      if Contains potentialRegistry (ascii_of_nat 46) then
        (potentialRegistry, "/v2/" ++ Join (drop 2 parts) "/")
      else if negb (Contains potentialRegistry (ascii_of_nat 47)) then
        (remoteHost, "/v2/library/" ++ Join (drop 1 parts) "/")
      else (remoteHost, path)
    else (remoteHost, path) in
  let settings := GetRegistrySettings cfg remoteHost in
  let scheme := match Insecure settings with
                | Some true => "http"
                | _ => "https"
                end in
  mkRequest (Method req) (mkURL scheme remoteHost path) remoteHost EmptyString
            (Header_Del (ReqHeader req) "Authorization").

(** [isRegistryAllowed] *)
Definition isRegistryAllowed (r : Request) (cfg : Config) : bool :=
  let parts := Split (Trim (Path (Url r)) "/") (ascii_of_nat 47) in
  if (2 <=? length parts)%nat && String.eqb (nth 0 parts EmptyString) "v2"
     && Contains (nth 1 parts EmptyString) (ascii_of_nat 46)
  then IsRegistryAllowed cfg (nth 1 parts EmptyString)
  else IsRegistryAllowed cfg (DefaultRegistry cfg).

(** [http.ResponseWriter]: the headers, the status and the body written so
    far; status 0 is a response whose header is not written yet. *)
Record ResponseWriter := mkWriter {
  w_Header : Header;
  w_Status : Z;
  w_Body : string
}.

Definition newWriter : ResponseWriter := mkWriter ∅ 0 EmptyString.

(** [http.Error] *)
Definition http_Error (w : ResponseWriter) (msg : string) (code : Z)
  : ResponseWriter :=
  let h := Header_Del (w_Header w) "Content-Length" in
  let h := Header_Set h "Content-Type" "text/plain; charset=utf-8" in
  let h := Header_Set h "X-Content-Type-Options" "nosniff" in
  mkWriter h code (w_Body w ++ msg ++ LRU.newline).

(** [http.HandlerFunc], over the state [S] of the server. *)
Definition HandlerFunc (S : Type) : Type :=
  ResponseWriter -> Request -> S -> ResponseWriter * S.

Definition basicRealm : string :=
  "Basic realm=" ++ JsonLines.dquote ++ "OCI-Proxy" ++ JsonLines.dquote.

(** [requireAuth] *)
Definition requireAuth {S : Type} (cfg : Config) (next : HandlerFunc S)
  : HandlerFunc S :=
  fun w r s =>
    if negb (IsAuthenticated (CAuth cfg) r) then
      let w1 := mkWriter (Header_Set (w_Header w) "WWW-Authenticate" basicRealm)
                         (w_Status w) (w_Body w) in
      (http_Error w1 "Unauthorized" StatusUnauthorized, s)
    else next w r s.

Section Handler.
Context {S : Type}.

(** [proxy.ServeHTTP], the file server of the embedded assets, the test
    [webRoot.Open(name)] succeeds, and the JSON text of
    [cacheManager.GetStats()]. *)
Variable proxy : HandlerFunc S.
Variable fileServer : HandlerFunc S.
Variable webAsset : string -> bool.
Variable statsJSON : S -> string.
Variable cfg : Config.

Definition healthHandler : HandlerFunc S :=
  fun w r s =>
    let q := JsonLines.dquote in
    (mkWriter (Header_Set (w_Header w) "Content-Type" "application/json")
              StatusOK
              (w_Body w ++ "{" ++ q ++ "status" ++ q ++ ":" ++ q ++ "healthy"
                 ++ q ++ "}" ++ LRU.newline), s).

Definition statsHandler : HandlerFunc S :=
  fun w r s =>
    (mkWriter (Header_Set (w_Header w) "Content-Type" "application/json")
              StatusOK (w_Body w ++ statsJSON s ++ LRU.newline), s).

Definition proxied : HandlerFunc S :=
  fun w r s =>
    if WhitelistMode cfg && negb (isRegistryAllowed r cfg) then
      (http_Error w "Registry not allowed" StatusForbidden, s)
    else proxy w r s.

Definition rootHandler : HandlerFunc S :=
  fun w r s =>
    let path := Path (Url r) in
    let path := if String.eqb path "/" then "/index.html" else path in
    if webAsset (TrimPrefix path "/") then fileServer w r s
    else requireAuth cfg proxied w r s.

(** [newProxyHandler]: the three routes of the mux; a path that is not one
    of the two exact patterns goes to the pattern ["/"]. *)
Definition newProxyHandler : HandlerFunc S :=
  fun w r s =>
    let path := Path (Url r) in
    if String.eqb path "/_/health" then healthHandler w r s
    else if String.eqb path "/_/stats" then requireAuth cfg statsHandler w r s
    else rootHandler w r s.

End Handler.

End Proxy.


(** ** Notions used to state the properties *)

Module Terms.
Import GoStrings Http Config Middleware Proxy LRU.

(** The response of the gate to a request it refuses. *)
Definition unauthorized (w : ResponseWriter) : ResponseWriter :=
  http_Error (mkWriter (Header_Set (w_Header w) "WWW-Authenticate" basicRealm)
                       (w_Status w) (w_Body w))
             "Unauthorized" StatusUnauthorized.

(** The endpoints behind the gate: the statistics, and a path under /v2/
    that is not an embedded asset. *)
Definition gated (webAsset : string -> bool) (r : Request) : Prop :=
  Path (Url r) = "/_/stats" \/
  (HasPrefix (Path (Url r)) "/v2/" = true /\
   webAsset (TrimPrefix (Path (Url r)) "/") = false).

(** What runs behind the gate. *)
Definition behind_gate {S : Type} (proxy : HandlerFunc S)
    (statsJSON : S -> string) (cfg : Config) (r : Request) : HandlerFunc S :=
  if String.eqb (Path (Url r)) "/_/stats" then statsHandler statsJSON
  else proxied proxy cfg.

Definition slash : ascii := ascii_of_nat 47.

(** The last byte of a string. *)
Fixpoint last_byte (s : string) : option ascii :=
  match s with
  | EmptyString => None
  | String c EmptyString => Some c
  | String _ s' => last_byte s'
  end.

Definition dot : ascii := ascii_of_nat 46.

(** The final segment of a path: the last piece of the trimmed path. *)
Definition final_segment (path : string) : string :=
  let parts := Split (Trim path "/") slash in
  nth (length parts - 1) parts EmptyString.

(** The directory a [Put] hands to the eviction: the blob under its key,
    the temp file gone. *)
Definition stored (key reader : string) (d : Dir) : Dir :=
  <[key := reader]>
    (delete (tempName "blob-.tmp" d) (<[tempName "blob-.tmp" d := reader]> d)).

(** A string without ASCII capitals. *)
Definition lowercase (s : string) : Prop := ToLower s = s.

End Terms.

(** ** Concrete caches, directories, requests and registries *)

Module Examples.
Import GoStrings Http Config Middleware Proxy LRU Terms.

Definition demo_cache : Cache :=
  mkCache 10 4 {[ 0%nat := Entry "A" 4 1 ]} [0%nat] {[ "A" := 0%nat ]}
          "/var/cache/oci" 0 0 0 0 false.

Definition demo_dir : Dir := {[ "A" := "abcd" ]}.

Definition demo_persisted : Cache * Dir :=
  let '(_, c1, d1) :=
    Persist (H := JsonLines.codec) 9 PersistOk
            (set_persistDirty true demo_cache) demo_dir in
  (c1, d1).

Definition demo_settings : RegistrySettings :=
  mkSettings (mkAuth EmptyString EmptyString) "/var/cache/oci" 1073741824
             EmptyString (Some true) (Some false).

Definition demo_cfg : Config :=
  mkConfig 80 "info" "docker.io" EmptyString false (mkAuth "admin" "s3cret")
           demo_settings ∅.

Definition demo_request (auth : list string) : Request :=
  mkRequest "GET"
    (mkURL EmptyString EmptyString "/v2/nginx/manifests/latest")
    "proxy.example.com" "/v2/nginx/manifests/latest"
    (if auth is a :: _ then {[ "Authorization" := [a] ]} else ∅).

Definition demo_proxy : HandlerFunc nat :=
  fun w r n => (mkWriter (w_Header w) 200 "proxied", S n).

Definition bot_settings : RegistrySettings :=
  mkSettings (mkAuth "bot" EmptyString) "/var/cache/oci" 0 EmptyString
             (Some true) (Some false).

Definition bot_cfg : Config :=
  mkConfig 80 "info" "docker.io" EmptyString false
           (mkAuth EmptyString EmptyString) demo_settings
           {[ "ghcr.io" := bot_settings ]}.

Definition bot_request (host : string) : Request :=
  mkRequest "GET" (mkURL "https" host "/v2/owner/img/manifests/latest")
            host EmptyString ∅.

Definition bot_middleware (c : Config) (host : string) : AuthMiddleware :=
  mkAuthMiddleware c
    {[ host ++ "::repository:owner/img:pull" := mkToken "T" 1000 ]}.

Definition q : string := JsonLines.dquote.

(** A challenge with capitals in the realm, the service and the scope. *)
Definition mixed_case_challenge : string :=
  "Bearer realm=" ++ q ++ "https://Auth.Example.com/Token" ++ q ++
  ",service=" ++ q ++ "Registry.Example.com" ++ q ++
  ",scope=" ++ q ++ "repository:Library/Alpine:pull" ++ q.

(** A registry that challenges every request without the token T, a token
    endpoint that grants T, and one that is down. *)
Definition demo_challenge : Response :=
  mkResponse 401 (Stream EmptyString)
    {[ "Www-Authenticate" :=
         ["Bearer realm=" ++ q ++ "https://auth/t" ++ q ++ ",service=" ++ q
            ++ "r" ++ q ++ ",scope=" ++ q ++ "repository:library/alpine:pull"
            ++ q] ]}
    0 None.

Definition demo_ok : Response := mkResponse 200 (Stream "abcd") ∅ 4 None.

Definition demo_next : Handler nat :=
  fun r n =>
    (if String.eqb (Header_Get (ReqHeader r) "Authorization") "Bearer T"
     then inl demo_ok else inl demo_challenge, Datatypes.S n).

Definition demo_net_up : Net :=
  mkNet (fun url =>
           if String.eqb url
                ("https://auth/t?service=r" ++
                 "&scope=repository:library/alpine:pull")
           then GetReturns 200 "token T" else GetReturns 404 EmptyString)
        (fun body => if String.eqb body "token T"
                     then Some (mkTokenResp "T" EmptyString 3600) else None).

Definition demo_net_down : Net :=
  mkNet (fun _ => GetFails "connection refused") (fun _ => None).

Definition demo_auth : AuthMiddleware :=
  mkAuthMiddleware demo_cfg ∅.

Definition demo_pull : Request :=
  mkRequest "GET"
    (mkURL "https" "docker.io" "/v2/library/alpine/manifests/latest")
    "docker.io" EmptyString ∅.

Definition demo_retry : Request :=
  set_ReqHeader (Header_Set (ReqHeader demo_pull) "Authorization" "Bearer T")
                demo_pull.

Definition inbound (path : string) : Request :=
  mkRequest "GET" (mkURL EmptyString EmptyString path) "proxy.example.com"
            path {[ "Authorization" := ["Basic YWRtaW46czNjcmV0"] ]}.

(** A cache directory with one blob and its persistence line, and a
    manager that has not yet opened the cache of the host. *)
Definition demo_fs : FS :=
  {[ "/var/cache/oci" :=
       {[ "sha256:aaaa" := "abcd";
          LRU.persistenceName :=
            JsonLines.encode (LRU.Entry "sha256:aaaa" 4 1) ++ LRU.newline ]} ]}.

Definition demo_cm : CacheManager := mkCacheManager demo_cfg ∅.

Definition demo_blob : Request :=
  mkRequest "GET"
    (mkURL "https" "docker.io" "/v2/library/alpine/blobs/sha256:aaaa")
    "docker.io" EmptyString ∅.

Definition demo_manifest : Request :=
  mkRequest "GET"
    (mkURL "https" "docker.io" "/v2/library/alpine/manifests/latest")
    "docker.io" EmptyString ∅.

Definition no_faults : NewFaults := mkNewFaults false LRU.LoadOk.

Definition demo_upstream : Handler nat :=
  fun r n => (inl (mkResponse 200 (Stream "upstream") ∅ 8 None), Datatypes.S n).

Definition demo_loaded : LRU.Cache :=
  default (LRU.mkCache 0 0 ∅ [] ∅ EmptyString 0 0 0 0 false)
    (caches (GetCache (H := JsonLines.codec) demo_cm "docker.io" no_faults
                      demo_fs).1 !! "docker.io").

Definition demo_after_hit : LRU.Cache :=
  (LRU.GetReader "sha256:aaaa" 5 demo_loaded
                 (dir_of demo_fs "/var/cache/oci")).2.

(** A cache directory persisted under a larger limit: one blob of twenty
    bytes and its line in the persistence file. *)
Definition over_budget_dir : Dir :=
  {[ "A" := "abcdefghijklmnopqrst";
     persistenceName := JsonLines.encode (Entry "A" 20 1) ++ newline ]}.

Definition over_budget_cache : Cache :=
  mkCache 10 20 {[ 0%nat := Entry "A" 20 1 ]} [0%nat] {[ "A" := 0%nat ]}
          "/var/cache/oci" 0 0 0 0 false.

(** A persistence file with the same line twice. *)
Definition repeated_key_dir : Dir :=
  {[ "A" := "abcd";
     persistenceName :=
       JsonLines.encode (Entry "A" 4 1) ++ newline ++
       JsonLines.encode (Entry "A" 4 1) ++ newline ]}.

Definition repeated_key_cache : Cache :=
  mkCache 10 8 {[ 0%nat := Entry "A" 4 1; 1%nat := Entry "A" 4 1 ]}
          [1%nat; 0%nat] {[ "A" := 1%nat ]} "/var/cache/oci" 0 0 0 0 false.

(** An empty cache of ten bytes, and a [Put] of a blob under its name with
    the digest of its bytes. *)
Definition fresh_cache : Cache :=
  mkCache 10 0 ∅ [] ∅ "/var/cache/oci" 0 0 0 0 false.

Definition put_blob (key data : string) (now : Z) (st : Cache * Dir)
  : Cache * Dir :=
  let '(_, c, d) := Put key data (actualDigest data) now PutOk st.1 st.2 in
  (c, d).

Definition hit_blob (key : string) (now : Z) (st : Cache * Dir)
  : Cache * Dir :=
  ((GetReader key now st.1 st.2).2, st.2).

End Examples.

(** ** More notions about runs of the cache *)

Module RunTerms.
Import LRU Invariants.

(** The number of lookups in a run. *)
Definition lookups (ops : list Op) : Z :=
  sumZ (fun o => match o with OpGetReader _ _ => 1 | _ => 0 end) ops.

(** The cache as [NewLRUCache] allocates it, before [load]. *)
Definition emptyCache (maxSize : Z) (cacheDir : string) : Cache :=
  mkCache maxSize 0 ∅ [] ∅ cacheDir 0 0 0 0 false.

(** The entries of the recency list, most recent first. *)
Definition entries (c : Cache) : list entry := map (Value c) (ll c).

(** An entry that survives the persistence file: its line decodes to it,
    holds no line feed and does not end in a carriage return. *)
Definition line_ok `{EntryCodec} (e : entry) : Prop :=
  json_decode (json_encode e) = Some e /\
  GoStrings.Contains (json_encode e) (ascii_of_nat 10) = false /\
  Terms.last_byte (json_encode e) <> Some (ascii_of_nat 13).

(** An entry that has its file: the file of its key holds as many bytes as
    the entry says. *)
Definition has_file (d : Dir) (e : entry) : Prop :=
  exists file, d !! Key e = Some file /\ Z.of_nat (String.length file) = Size e.

(** A key that cannot be taken for a file of the cache's own: not the
    name of a temp file of [Put], not the name of the persistence file.
    The digests under which the proxy stores blobs are such keys. *)
Definition plain_key (key : string) : Prop :=
  GoStrings.HasPrefix key "blob-.tmp" = false /\ key <> persistenceName.

(** An entry that has its file, not under the name of the persistence
    file, with a property [P] of the key, the recorded size and the bytes
    of the file. *)
Definition filed (P : string -> Z -> string -> Prop) (d : Dir) (e : entry)
  : Prop :=
  Key e <> persistenceName /\
  exists file, d !! Key e = Some file /\ P (Key e) (Size e) file.

Definition all_filed (P : string -> Z -> string -> Prop) (st : Cache * Dir)
  : Prop :=
  Forall (filed P st.2) (entries st.1).


(** The file holds as many bytes as the entry says, and the key is the
    digest of its bytes. *)
Definition verified (key : string) (size : Z) (file : string) : Prop :=
  Z.of_nat (String.length file) = size /\ actualDigest file = key.

(** An operation that files what it inserts as [P] says, under a plain
    key. Only a [Put] whose expected digest is the digest of its bytes
    gets as far as inserting. *)
Definition files_as (P : string -> Z -> string -> Prop) (o : Op) : Prop :=
  match o with
  | OpPut key reader expected _ _ =>
      expected = actualDigest reader ->
      plain_key key /\ P key (Z.of_nat (String.length reader)) reader
  | _ => True
  end.


(** An insert as the cache interceptor does it: the key is the digest
    that is expected. *)
Definition digest_put (o : Op) : Prop :=
  match o with
  | OpPut key _ expected _ _ => expected = key
  | _ => True
  end.

End RunTerms.

Module Examples2.
Import LRU.

(** Three blobs of four bytes in a cache that was shrunk to ten bytes
    after they were stored: C is the most recent, A the oldest. *)
Definition three_blobs : Cache :=
  mkCache 10 12
    {[ 0%nat := Entry "A" 4 1; 1%nat := Entry "B" 4 2; 2%nat := Entry "C" 4 3 ]}
    [2%nat; 1%nat; 0%nat] {[ "A" := 0%nat; "B" := 1%nat; "C" := 2%nat ]}
    "/var/cache/oci" 0 0 0 0 true.

End Examples2.

(** ** More requests and registries for the examples *)

Module Examples3.
Import GoStrings Http Config Middleware Proxy Examples.

(** A registry that challenges the first request and breaks the
    connection on the one that carries the token. *)
Definition flaky_next : Handler nat :=
  fun r n =>
    (if String.eqb (Header_Get (ReqHeader r) "Authorization") "Bearer T"
     then inr (Upstream "connection reset") else inl demo_challenge,
     Datatypes.S n).


(** A configuration in whitelist mode that knows one registry. *)
Definition strict_cfg : Config :=
  mkConfig 80 "info" "docker.io" EmptyString true
           (mkAuth EmptyString EmptyString) demo_settings
           {[ "ghcr.io" := bot_settings ]}.

End Examples3.

(** ** Loading the configuration: [internal/pkg/config] *)

Module ConfigLoad.
Import Config.

(** The two assignments at the head of [applyDefaults]: a flag the file
    leaves out is a pointer to true for [follow_redirects] and to false
    for [insecure]. *)
Definition flagged (defaults : RegistrySettings) : RegistrySettings :=
  mkSettings (SAuth defaults) (CacheDir defaults) (CacheMaxSize defaults)
             (UpstreamProxy defaults)
             (match FollowRedirects defaults with
              | None => Some true
              | f => f
              end)
             (match Insecure defaults with
              | None => Some false
              | f => f
              end).

(** One round of the loop of [applyDefaults]: the defaults, overlaid with
    the fields the registry sets. Credentials are taken as a pair, by the
    user name alone; a size of zero and an empty string count as not
    set. *)
Definition merged (defaults registrySettings : RegistrySettings)
  : RegistrySettings :=
  mkSettings
    (if negb (String.eqb (Username (SAuth registrySettings)) EmptyString)
     then SAuth registrySettings else SAuth defaults)
    (if negb (String.eqb (CacheDir registrySettings) EmptyString)
     then CacheDir registrySettings else CacheDir defaults)
    (if negb (CacheMaxSize registrySettings =? 0)
     then CacheMaxSize registrySettings else CacheMaxSize defaults)
    (if negb (String.eqb (UpstreamProxy registrySettings) EmptyString)
     then UpstreamProxy registrySettings else UpstreamProxy defaults)
    (match FollowRedirects registrySettings with
     | Some b => Some b
     | None => FollowRedirects defaults
     end)
    (match Insecure registrySettings with
     | Some b => Some b
     | None => Insecure defaults
     end).

(** [applyDefaults]: the loop assigns to the keys it ranges over, so it is
    a map over the registries. *)
Definition applyDefaults (c : Config) : Config :=
  let defaults := flagged (Defaults c) in
  mkConfig (Port c) (LogLevel c) (DefaultRegistry c) (BaseURL c)
           (WhitelistMode c) (CAuth c) defaults
           (merged defaults <$> Registries c).

(** [LoadConfig]; [ReadFile] is [os.ReadFile] and [Unmarshal] is
    [yaml.Unmarshal] into an empty [Config], [None] being their errors. *)
Definition LoadConfig (ReadFile : string -> option string)
    (Unmarshal : string -> option Config) (path : string) : option Config :=
  match ReadFile path with
  | None => None
  | Some data =>
      match Unmarshal data with
      | None => None
      | Some config => Some (applyDefaults config)
      end
  end.

End ConfigLoad.

(** ** The chain of interceptors: [internal/pkg/proxy/pipeline.go] *)

Module Pipeline.
Import Http Middleware.

Section Stages.
Context {S : Type}.

(** [type Middleware interface]. The [next] that [Process] is given is a
    function value, which may be nil: [None]. *)
Record Middleware := mkMiddleware {
  Name : string;
  Process : Request -> option (Handler S) -> S -> Result * S
}.

Record Pipeline := mkPipeline {
  middlewares : list Middleware;
  finalHandler : option (Handler S)
}.

Definition NewPipeline : Pipeline := mkPipeline [] None.

Definition Use (p : Pipeline) (m : Middleware) : Pipeline :=
  mkPipeline (middlewares p ++ [m]) (finalHandler p).

Definition SetFinalHandler (p : Pipeline) (h : option (Handler S)) : Pipeline :=
  mkPipeline (middlewares p) h.

(** [http.ErrNotSupported] *)
Definition ErrNotSupported : error := Upstream "feature not supported".

(** One round of the loop of [Execute]: the chain so far becomes the
    [next] of the middleware. *)
Definition wrap (chain : option (Handler S)) (m : Middleware)
  : option (Handler S) :=
  Some (fun r => Process m r chain).

(** [Execute]. The loop runs from the last middleware to the first. With a
    middleware in the pipeline the chain it builds is not nil, so the last
    case of the final call is never taken. *)
Definition Execute (p : Pipeline) (req : Request) (s : S) : Result * S :=
  if decide (length (middlewares p) = 0%nat) then
    match finalHandler p with
    | Some h => h req s
    | None => (inr ErrNotSupported, s)
    end
  else
    let chain := fold_left wrap (rev (middlewares p)) (finalHandler p) in
    match chain with
    | Some h => h req s
    | None => (inr ErrNotSupported, s)
    end.

(** [Transport] and [RoundTrip] *)
Record Transport := mkTransport { pipeline : Pipeline }.

Definition NewTransport (p : Pipeline) : Transport := mkTransport p.

Definition RoundTrip (t : Transport) (req : Request) (s : S) : Result * S :=
  Execute (pipeline t) req s.

(** The interceptors nested by hand, the first one outermost. *)
Fixpoint nested (ms : list Middleware) (final : option (Handler S))
  : option (Handler S) :=
  match ms with
  | [] => final
  | m :: ms' => Some (fun r => Process m r (nested ms' final))
  end.

End Stages.

Arguments Middleware S : clear implicits.
Arguments Pipeline S : clear implicits.
Arguments Transport S : clear implicits.

End Pipeline.

(** ** The cache manager, continued, and the bodies of cached responses *)

Module Caches.
Import Http Config Middleware.

(** [NewCacheManager] *)
Definition NewCacheManager (cfg : Config) : CacheManager :=
  mkCacheManager cfg ∅.

(** [GetStats] *)
Definition GetStats (cm : CacheManager) : gmap string LRU.CacheStats :=
  LRU.Stats <$> caches cm.

(** A cache that has nothing to save: its dirty flag is clear, or it has
    no directory to save to. *)
Definition saved (c : LRU.Cache) : Prop :=
  LRU.persistDirty c = false \/ LRU.cacheDir c = EmptyString.

(** [Persist] on the cache of one host, in its directory. *)
Definition persistHost `{LRU.EntryCodec} (now : Z) (fault : LRU.PersistFault)
    (st : CacheManager * FS) (host : string) : CacheManager * FS :=
  match caches st.1 !! host with
  | None => st
  | Some c =>
      let '(_, c', d') :=
        LRU.Persist now fault c (dir_of st.2 (LRU.cacheDir c)) in
      (mkCacheManager (cm_cfg st.1) (<[host := c']> (caches st.1)),
       if String.eqb (LRU.cacheDir c) EmptyString then st.2
       else <[LRU.cacheDir c := d']> st.2)
  end.

(** [PersistAll]. The caches are collected by ranging over the map, in an
    order the runtime chooses: [order] lists the hosts in that order. An
    error of [Persist] is logged and the loop goes on. *)
Definition PersistAll `{LRU.EntryCodec} (order : list string) (now : Z)
    (faults : string -> LRU.PersistFault) (cm : CacheManager) (fs : FS)
  : CacheManager * FS :=
  fold_left (fun st host => persistHost now (faults host) st host) order
            (cm, fs).

(** The bytes a body yields when it is read to its end. A [cacheWriter]
    reads from the body it wraps. *)
Fixpoint bytes (b : Body) : string :=
  match b with
  | NoBody => EmptyString
  | Stream data => data
  | File _ data => data
  | CacheWriter original _ _ => bytes original
  | Closed _ => EmptyString
  end.

(** [cacheWriter.Read] until [n] bytes are read or the wrapped body is at
    its end, then [cacheWriter.Close], and the goroutine of
    [cacheResponse] run to its end: every byte that was read went through
    the pipe, closing the pipe ended the stream, and [Put] was called on
    the cache of the host with the digest as key and as expected digest.
    What [Put] does to the cache and its directory does not depend on how
    many bytes it took before a failure, so the state after is the one
    given here whatever the failure. Other bodies have no cache behind
    them. *)
Definition readAndClose `{LRU.EntryCodec} (b : Body) (n : nat) (now : Z)
    (fault : LRU.PutFault) (cm : CacheManager) (fs : FS)
  : CacheManager * FS :=
  match b with
  | CacheWriter original host digest =>
      match caches cm !! host with
      | None => (cm, fs)
      | Some c =>
          let data := LRU.take_bytes n (bytes original) in
          let '(_, c', d') :=
            LRU.Put digest data digest now fault c
                    (dir_of fs (LRU.cacheDir c)) in
          (mkCacheManager (cm_cfg cm) (<[host := c']> (caches cm)),
           if String.eqb (LRU.cacheDir c) EmptyString then fs
           else <[LRU.cacheDir c := d']> fs)
      end
  | _ => (cm, fs)
  end.

End Caches.

(** ** A manager with a cache in use, and a blob it does not hold *)

Module Examples4.
Import GoStrings Http Config Middleware Examples.

Definition warm_cm : CacheManager :=
  mkCacheManager demo_cfg {[ "docker.io" := demo_cache ]}.

Definition warm_fs : FS := {[ "/var/cache/oci" := demo_dir ]}.

Definition fresh_blob : Request :=
  mkRequest "GET"
    (mkURL "https" "docker.io"
       "/v2/library/alpine/blobs/sha256:e5e088a0b66163a0a26a5e053d2a4496dc16ab6e0e3dd1adf2d16aa84a078c9d")
    "docker.io" EmptyString ∅.

Definition fresh_upstream : Handler nat :=
  fun r n => (inl (mkResponse 200 (Stream "efgh") ∅ 4 None), Datatypes.S n).

End Examples4.

(* ===================================================================== *)
(** * Part II: properties                                                 *)
(* ===================================================================== *)

Module Sha256Vectors.
Import Sha256.

Example sha256_constants :
  nth 0 K 0 = 0x428a2f98 /\ nth 63 K 0 = 0xc67178f2 /\ nth 0 H0 0 = 0x6a09e667.
Proof. repeat split; reflexivity. Qed.

Example sha256_empty :
  HexEncodeToString (sum EmptyString) =
  "e3b0c44298fc1c149afbf4c8996fb92427ae41e4649b934ca495991b7852b855".
Proof. vm_compute. reflexivity. Qed.

Example sha256_abc :
  HexEncodeToString (sum "abc") =
  "ba7816bf8f01cfea414140de5dae2223b00361a396177a9cb410ff61f20015ad".
Proof. vm_compute. reflexivity. Qed.

Example sha256_two_blocks :
  HexEncodeToString (sum "abcdbcdecdefdefgefghfghighijhijkijkljklmklmnlmnomnopnopq") =
  "248d6a61d20638b8e5c026930c3e6039a33ce45964ff2167f6ecedd419db06c1".
Proof. vm_compute. reflexivity. Qed.

End Sha256Vectors.

(** ** The blob cache: failed inserts and persistence *)

Module CacheFacts.
Import LRU.
Import Terms Examples.

Lemma tempName_fresh (pattern : string) (d : Dir) :
  d !! tempName pattern d = None.
Proof. apply fresh_string_fresh. Qed.

(** A temp file that is created and removed again leaves the directory as
    it was. *)
Lemma temp_discarded (pattern data : string) (d : Dir) :
  delete (tempName pattern d) (<[tempName pattern d := data]> d) = d.
Proof. apply delete_insert_id, tempName_fresh. Qed.

Lemma eqb_neq_false (a b : string) : a <> b -> String.eqb a b = false.
Proof. intros H. by apply String.eqb_neq. Qed.

(** Whatever the operating system does, a [Put] whose digest does not match
    fails and leaves the cache and the directory as they were. *)
Lemma Put_mismatch_any_fault key reader expected now fault c d :
  cacheDir c <> EmptyString ->
  actualDigest reader <> expected ->
  exists e, Put key reader expected now fault c d = (Some e, c, d).
Proof.
  intros Hdir Hneq. unfold Put.
  destruct (decide (cacheDir c = EmptyString)) as [|_]; [done|].
  rewrite (eqb_neq_false _ _ Hneq). simpl.
  destruct fault; rewrite ?temp_discarded; eauto.
Qed.

(** C1. A [Put] on a cache with a cache directory whose temp file was
    created, written and synced, and whose SHA-256 digest, written as
    sha256: and lowercase hexadecimal digits, is not the expected digest,
    returns the digest-mismatch error; the cache (index, recency list, size
    counter, item count) and the files of the directory are what they were
    before the call: the temp file is gone. *)
Theorem Put_digest_mismatch key reader expected now fault c d :
  cacheDir c <> EmptyString ->
  actualDigest reader <> expected ->
  fault = PutOk \/ fault = RenameFails ->
  Put key reader expected now fault c d =
    (Some (ErrDigestMismatch expected (actualDigest reader)), c, d).
Proof.
  intros Hdir Hneq Hfault. unfold Put.
  destruct (decide (cacheDir c = EmptyString)) as [|_]; [done|].
  rewrite (eqb_neq_false _ _ Hneq). simpl.
  destruct Hfault as [-> | ->]; by rewrite temp_discarded.
Qed.

Lemma Put_digest_mismatch_witness :
  Put "B" "abcz" (actualDigest "abcd") 7 PutOk demo_cache demo_dir =
    (Some (ErrDigestMismatch (actualDigest "abcd") (actualDigest "abcz")),
     demo_cache, demo_dir).
Proof.
  apply Put_digest_mismatch.
  - discriminate.
  - vm_compute. discriminate.
  - by left.
Defined.

(** [Persist] on a clean cache does nothing. *)
Lemma Persist_clean `{EntryCodec} now fault c d :
  persistDirty c = false -> Persist now fault c d = (None, c, d).
Proof. intros Hc. unfold Persist. by rewrite Hc. Qed.

(** Without a cache directory there is no persistence file to write. *)
Lemma Persist_no_dir `{EntryCodec} now fault c d :
  cacheDir c = EmptyString -> Persist now fault c d = (None, c, d).
Proof.
  intros Hno. unfold Persist, persistencePath.
  destruct (negb (persistDirty c)); [done|].
  destruct (decide (cacheDir c = EmptyString)); [|done].
  by destruct (decide (EmptyString = EmptyString)).
Qed.

(** A [Persist] that returns no error either had nothing to do, or wrote
    the file and cleared the dirty flag. *)
Lemma Persist_success_inv `{EntryCodec} now fault c d c1 d1 :
  Persist now fault c d = (None, c1, d1) ->
  (c1 = c /\ d1 = d /\ (persistDirty c = false \/ cacheDir c = EmptyString))
  \/ (cacheDir c1 = cacheDir c /\ persistDirty c1 = false).
Proof.
  destruct (decide (cacheDir c = EmptyString)) as [Hno|Hdir].
  { rewrite Persist_no_dir by done. intros [= <- <-]. left. auto. }
  unfold Persist, persistencePath.
  destruct (persistDirty c) eqn:Hdirty; simpl.
  - destruct (decide (cacheDir c = EmptyString)) as [|_]; [done|].
    destruct (decide (persistenceName = EmptyString)) as [|_]; [done|].
    destruct fault; intros [= <- <-]; right; done.
  - intros [= <- <-]. left. auto.
Qed.

(** A [Persist] that writes the file clears the dirty flag. *)
Lemma Persist_clears_dirty `{EntryCodec} now fault c d c1 d1 :
  cacheDir c <> EmptyString ->
  Persist now fault c d = (None, c1, d1) ->
  persistDirty c1 = false.
Proof.
  intros Hdir Hp. apply Persist_success_inv in Hp.
  destruct Hp as [(-> & _ & [Hc | Hc]) | [_ Hc]]; done.
Qed.

(** C8. [Persist] on a cache whose dirty flag is clear returns no error and
    leaves the cache and the directory as they are; and after a [Persist]
    that returned no error, from any state, the next [Persist] returns no
    error and changes neither the cache nor any file, so the persistence
    file keeps its bytes. *)
Theorem Persist_idempotent `{EntryCodec} now fault now' fault' c d c1 d1 :
  (persistDirty c = false -> Persist now fault c d = (None, c, d)) /\
  (Persist now fault c d = (None, c1, d1) ->
   Persist now' fault' c1 d1 = (None, c1, d1) /\
   (Persist now' fault' c1 d1).2 !! persistenceName = d1 !! persistenceName).
Proof.
  split; [apply Persist_clean|].
  intros Hfirst.
  assert (Persist now' fault' c1 d1 = (None, c1, d1)) as Hsecond.
  { apply Persist_success_inv in Hfirst.
    destruct Hfirst as [(-> & -> & [Hc | Hc]) | [_ Hc]].
    - by apply Persist_clean.
    - by apply Persist_no_dir.
    - by apply Persist_clean. }
  by rewrite Hsecond.
Qed.

Lemma Persist_idempotent_witness :
  Persist (H := JsonLines.codec) 9 PersistOk
          (set_persistDirty true demo_cache) demo_dir
    = (None, demo_persisted.1, demo_persisted.2) /\
  Persist (H := JsonLines.codec) 10 PersistOk
          demo_persisted.1 demo_persisted.2
    = (None, demo_persisted.1, demo_persisted.2) /\
  is_Some (demo_persisted.2 !! persistenceName).
Proof.
  assert (Persist (H := JsonLines.codec) 9 PersistOk
            (set_persistDirty true demo_cache) demo_dir
          = (None, demo_persisted.1, demo_persisted.2)) as E
    by (vm_compute; reflexivity).
  split; [exact E|]. split.
  - exact (proj1 (proj2 (Persist_idempotent (H := JsonLines.codec)
                           9 PersistOk 10 PersistOk _ _ _ _) E)).
  - vm_compute. eexists. reflexivity.
Defined.

End CacheFacts.

(** ** Basic credentials in the Authorization header *)

Module BasicAuthFacts.
Import GoStrings Http Config Base64.
Import Terms Examples.

Lemma dec_enc_nat (k : nat) :
  (k < 64)%nat ->
  dec (nth k alphabet pad_char) = Some (Z.of_nat k) /\
  Ascii.eqb (nth k alphabet pad_char) pad_char = false.
Proof.
  intros Hk.
  do 64 (destruct k as [|k]; [vm_compute; split; reflexivity|]). lia.
Qed.

Lemma dec_enc (v : Z) :
  dec (enc v) = Some (v mod 64) /\ Ascii.eqb (enc v) pad_char = false.
Proof.
  unfold enc. pose proof (Z.mod_pos_bound v 64 ltac:(lia)) as Hb.
  destruct (dec_enc_nat (Z.to_nat (v mod 64)) ltac:(lia)) as [H1 H2].
  rewrite H1, H2. split; [|done]. f_equal. lia.
Qed.

Ltac divmod := Z.to_euclidean_division_equations; lia.

Lemma byte_val_bound (c : ascii) : 0 <= Sha256.byte_val c < 256.
Proof.
  unfold Sha256.byte_val. pose proof (nat_ascii_bounded c). lia.
Qed.

Lemma byte_char_val (c : ascii) (v : Z) :
  v mod 256 = Sha256.byte_val c -> byte_char v = c.
Proof.
  intros E. unfold byte_char. rewrite E. unfold Sha256.byte_val.
  rewrite Nat2Z.id. apply ascii_nat_embedding.
Qed.

Lemma string_ind3 (P : string -> Prop) :
  P EmptyString ->
  (forall a, P (String a EmptyString)) ->
  (forall a b, P (String a (String b EmptyString))) ->
  (forall a b c s, P s -> P (String a (String b (String c s)))) ->
  forall s, P s.
Proof.
  intros H0 H1 H2 H3.
  fix IH 1. intros [|a [|b [|c s]]]; [done..|]. apply H3, IH.
Qed.

(** Decoding undoes encoding. *)
Lemma Decode_Encode (s : string) : DecodeString (EncodeToString s) = Some s.
Proof.
  unfold DecodeString, EncodeToString.
  induction s as [|a|a b|a b c s IH] using string_ind3.
  - reflexivity.
  - cbn [Sha256.bytes_of encode_bytes list_ascii_of_string decode_chars].
    pose proof (byte_val_bound a).
    destruct (dec_enc (Sha256.byte_val a * 65536 / 262144)) as [-> _].
    destruct (dec_enc (Sha256.byte_val a * 65536 / 4096)) as [-> _].
    cbn [mbind option_bind]. rewrite Ascii.eqb_refl.
    f_equal. f_equal. apply byte_char_val. divmod.
  - cbn [Sha256.bytes_of encode_bytes list_ascii_of_string decode_chars].
    pose proof (byte_val_bound a). pose proof (byte_val_bound b).
    set (n := Sha256.byte_val a * 65536 + Sha256.byte_val b * 256).
    destruct (dec_enc (n / 262144)) as [-> _].
    destruct (dec_enc (n / 4096)) as [-> _].
    destruct (dec_enc (n / 64)) as [-> ->].
    cbn [mbind option_bind]. rewrite Ascii.eqb_refl.
    f_equal. f_equal; [|f_equal]; apply byte_char_val; unfold n; divmod.
  - cbn [Sha256.bytes_of encode_bytes list_ascii_of_string decode_chars].
    pose proof (byte_val_bound a). pose proof (byte_val_bound b).
    pose proof (byte_val_bound c).
    set (n := Sha256.byte_val a * 65536 + Sha256.byte_val b * 256
              + Sha256.byte_val c).
    destruct (dec_enc (n / 262144)) as [-> _].
    destruct (dec_enc (n / 4096)) as [-> _].
    destruct (dec_enc (n / 64)) as [-> _].
    destruct (dec_enc n) as [-> ->].
    cbn [mbind option_bind]. rewrite IH. cbn [mbind option_bind].
    f_equal. f_equal; [|f_equal; [|f_equal]]; apply byte_char_val; unfold n; divmod.
Qed.

Lemma Cut_app (user pass : string) (c : ascii) :
  Contains user c = false ->
  Cut (user ++ String c pass) c = Some (user, pass).
Proof.
  induction user as [|a user IH]; simpl.
  - intros _. by rewrite Ascii.eqb_refl.
  - intros [Ha Hu]%orb_false_iff. by rewrite Ha, (IH Hu).
Qed.

(** A request whose Authorization header is the standard encoding of a
    user name without colon and a password carries that pair. *)
Lemma BasicAuth_standard (r : Request) (user pass : string) :
  Contains user (ascii_of_nat 58) = false ->
  Header_Get (ReqHeader r) "Authorization"
    = "Basic " ++ Base64.EncodeToString (user ++ ":" ++ pass) ->
  BasicAuth r = Some (user, pass).
Proof.
  intros Huser Hauth. unfold BasicAuth. rewrite Hauth.
  set (enc := Base64.EncodeToString (user ++ ":" ++ pass)).
  change (String.eqb ("Basic " ++ enc) EmptyString) with false. cbv iota.
  unfold parseBasicAuth.
  change (drop_bytes 6 ("Basic " ++ enc)) with enc.
  assert (substring 0 6 ("Basic " ++ enc) = "Basic ") as ->.
  { simpl. by destruct enc. }
  change (String.length ("Basic " ++ enc))
    with (6 + String.length enc)%nat.
  destruct (Nat.ltb_spec (6 + String.length enc) (String.length "Basic "));
    [simpl in *; lia|].
  rewrite String.eqb_refl. cbn [orb negb].
  unfold enc. rewrite Decode_Encode.
  change (user ++ ":" ++ pass) with (user ++ String (ascii_of_nat 58) pass).
  by apply Cut_app.
Qed.

(** A user name with a colon cannot be carried: the pair is cut at the
    first colon. *)
Example colon_in_user_name :
  parseBasicAuth ("Basic " ++ Base64.EncodeToString ("a:b" ++ ":" ++ "c"))
    = Some ("a", "b:c").
Proof. vm_compute. reflexivity. Qed.

End BasicAuthFacts.

(** ** The basic-auth gate and static credentials *)

Module GateFacts.
Import GoStrings Http Config Middleware Proxy.
Import Terms Examples.

Lemma eqb_empty_false (s : string) :
  s <> EmptyString -> String.eqb s EmptyString = false.
Proof. intros. by apply String.eqb_neq. Qed.

(** With both fields configured, [IsAuthenticated] is exactly the test that
    the request carries the configured pair. *)
Lemma IsAuthenticated_spec (a : Auth) (r : Request) :
  Username a <> EmptyString -> Password a <> EmptyString ->
  IsAuthenticated a r = true <-> BasicAuth r = Some (Username a, Password a).
Proof.
  intros Hu Hp. unfold IsAuthenticated.
  rewrite (eqb_empty_false _ Hu), (eqb_empty_false _ Hp). simpl.
  destruct (BasicAuth r) as [[user pass]|]; [|done].
  rewrite andb_true_iff, !String.eqb_eq. split.
  - by intros [-> ->].
  - by intros [= -> ->].
Qed.

Lemma unauthorized_status w : w_Status (unauthorized w) = 401.
Proof. reflexivity. Qed.

Lemma unauthorized_challenge w :
  Header_Get (w_Header (unauthorized w)) "WWW-Authenticate" = basicRealm.
Proof.
  unfold unauthorized, http_Error, Header_Get, Header_Set, Header_Del. simpl.
  rewrite lookup_insert_ne by (vm_compute; discriminate).
  rewrite lookup_insert_ne by (vm_compute; discriminate).
  rewrite lookup_delete_ne by (vm_compute; discriminate).
  by rewrite lookup_insert_eq.
Qed.

Lemma v2_route (path : string) :
  HasPrefix path "/v2/" = true ->
  String.eqb path "/_/health" = false /\ String.eqb path "/_/stats" = false /\
  String.eqb path "/" = false.
Proof.
  intros Hv2. repeat split.
  all: match goal with
       | |- String.eqb _ ?p = false =>
           destruct (String.eqb_spec path p) as [->|]; [discriminate Hv2|done]
       end.
Qed.

(** A gated request goes through [requireAuth]. *)
Lemma gate_route {S : Type} (proxy fileServer : HandlerFunc S)
    (webAsset : string -> bool) (statsJSON : S -> string) (cfg : Config)
    (w : ResponseWriter) (r : Request) (s : S) :
  gated webAsset r ->
  newProxyHandler proxy fileServer webAsset statsJSON cfg w r s
    = requireAuth cfg (behind_gate proxy statsJSON cfg r) w r s.
Proof.
  intros Hg. unfold newProxyHandler, behind_gate, rootHandler.
  destruct Hg as [-> | [Hv2 Hasset]]; [reflexivity|].
  destruct (v2_route _ Hv2) as (-> & -> & ->). by rewrite Hasset.
Qed.

(** C9. With a non-empty user name and a non-empty password configured,
    a request to the statistics endpoint or to a proxied path under /v2/
    whose basic credentials are missing or are not the configured pair is
    answered with status 401 and the header WWW-Authenticate: Basic
    realm=OCI-Proxy (in quotes); neither the proxy nor the statistics
    handler runs and the server state is untouched. A request that carries
    the configured pair is handed to the handler behind the gate. *)
Theorem basic_auth_gate {S : Type} (proxy fileServer : HandlerFunc S)
    (webAsset : string -> bool) (statsJSON : S -> string) (cfg : Config)
    (w : ResponseWriter) (r : Request) (s : S) :
  Username (CAuth cfg) <> EmptyString ->
  Password (CAuth cfg) <> EmptyString ->
  gated webAsset r ->
  let serve := newProxyHandler proxy fileServer webAsset statsJSON cfg in
  (BasicAuth r <> Some (Username (CAuth cfg), Password (CAuth cfg)) ->
   serve w r s = (unauthorized w, s) /\
   w_Status (serve w r s).1 = 401 /\
   Header_Get (w_Header (serve w r s).1) "WWW-Authenticate" = basicRealm) /\
  (BasicAuth r = Some (Username (CAuth cfg), Password (CAuth cfg)) ->
   serve w r s = behind_gate proxy statsJSON cfg r w r s).
Proof.
  intros Hu Hp Hg serve.
  pose proof (IsAuthenticated_spec (CAuth cfg) r Hu Hp) as Hspec.
  unfold serve. rewrite (gate_route _ _ _ _ _ _ _ _ Hg).
  unfold requireAuth. split.
  - intros Hbad.
    destruct (IsAuthenticated (CAuth cfg) r) eqn:E.
    + exfalso. apply Hbad. by apply Hspec.
    + simpl. split; [reflexivity|]. split; [reflexivity|].
      apply unauthorized_challenge.
  - intros Hok. apply Hspec in Hok. by rewrite Hok.
Qed.

(** The configured pair in its standard encoding opens the gate, when the
    user name has no colon. *)
Lemma standard_credentials_pass {S : Type} (proxy fileServer : HandlerFunc S)
    (webAsset : string -> bool) (statsJSON : S -> string) (cfg : Config)
    (w : ResponseWriter) (r : Request) (s : S) :
  Username (CAuth cfg) <> EmptyString ->
  Password (CAuth cfg) <> EmptyString ->
  Contains (Username (CAuth cfg)) (ascii_of_nat 58) = false ->
  gated webAsset r ->
  Header_Get (ReqHeader r) "Authorization"
    = "Basic " ++ Base64.EncodeToString
                    (Username (CAuth cfg) ++ ":" ++ Password (CAuth cfg)) ->
  newProxyHandler proxy fileServer webAsset statsJSON cfg w r s
    = behind_gate proxy statsJSON cfg r w r s.
Proof.
  intros Hu Hp Hcolon Hg Hauth.
  rewrite (gate_route _ _ _ _ _ _ _ _ Hg). unfold requireAuth.
  assert (IsAuthenticated (CAuth cfg) r = true) as ->; [|done].
  apply IsAuthenticated_spec; [done..|].
  by apply BasicAuthFacts.BasicAuth_standard.
Qed.

Lemma basic_auth_gate_witness :
  let serve := newProxyHandler demo_proxy demo_proxy (fun _ => false)
                               (fun _ => EmptyString) demo_cfg in
  (serve newWriter (demo_request ["Basic YWRtaW46d3Jvbmc="]) 0%nat
     = (unauthorized newWriter, 0%nat)) /\
  (serve newWriter (demo_request []) 0%nat = (unauthorized newWriter, 0%nat)) /\
  (serve newWriter (demo_request ["Basic YWRtaW46czNjcmV0"]) 0%nat
     = (mkWriter ∅ 200 "proxied", 1%nat)).
Proof.
  assert (forall a, gated (fun _ => false) (demo_request a)) as Hg
    by (intros a; right; split; reflexivity).
  split; [|split].
  - refine (proj1 (proj1 (basic_auth_gate demo_proxy demo_proxy (fun _ => false)
                     (fun _ => EmptyString) demo_cfg newWriter _ 0%nat
                     _ _ (Hg _)) _)).
    + discriminate.
    + discriminate.
    + vm_compute. discriminate.
  - refine (proj1 (proj1 (basic_auth_gate demo_proxy demo_proxy (fun _ => false)
                     (fun _ => EmptyString) demo_cfg newWriter _ 0%nat
                     _ _ (Hg _)) _)).
    + discriminate.
    + discriminate.
    + vm_compute. discriminate.
  - refine (proj2 (basic_auth_gate demo_proxy demo_proxy (fun _ => false)
                     (fun _ => EmptyString) demo_cfg newWriter _ 0%nat
                     _ _ (Hg _)) _).
    + discriminate.
    + discriminate.
    + vm_compute. reflexivity.
Defined.

(** C10. When the registry settings of the host carry a user name but no
    password, [applyAuth] returns the request as it came, without an
    Authorization header of its own, and leaves the token cache alone:
    whatever token is cached for the host and the scope is neither read nor
    expired. *)
Theorem applyAuth_username_without_password
    (m : AuthMiddleware) (req : Request) (now : Z) :
  let settings := GetRegistrySettings (cfg m) (Host (Url req)) in
  Username (SAuth settings) <> EmptyString ->
  Password (SAuth settings) = EmptyString ->
  applyAuth m req now = (req, m) /\
  ReqHeader (applyAuth m req now).1 !! "Authorization"
    = ReqHeader req !! "Authorization".
Proof.
  intros settings Hu Hp.
  assert (applyAuth m req now = (req, m)) as E.
  { unfold applyAuth. fold settings.
    rewrite (eqb_empty_false _ Hu). simpl.
    unfold ApplyToRequest. rewrite Hp. simpl.
    by rewrite orb_true_r. }
  by rewrite E.
Qed.

Lemma applyAuth_username_without_password_witness :
  applyAuth (bot_middleware bot_cfg "ghcr.io") (bot_request "ghcr.io") 5
    = (bot_request "ghcr.io", bot_middleware bot_cfg "ghcr.io").
Proof.
  refine (proj1 (applyAuth_username_without_password _ _ 5 _ _)).
  - vm_compute. discriminate.
  - vm_compute. reflexivity.
Defined.

(** The same token is attached when the settings carry no user name. *)
Example cached_token_is_used_without_username :
  ReqHeader (applyAuth (bot_middleware bot_cfg "quay.io")
                       (bot_request "quay.io") 5).1 !! "Authorization"
    = Some ["Bearer T"].
Proof. vm_compute. reflexivity. Qed.

End GateFacts.

(** ** The auth interceptor: challenges *)

Module AuthFacts.
Import GoStrings Http Config Middleware.
Import Terms Examples.

Lemma lower_ascii_idem (c : ascii) : lower_ascii (lower_ascii c) = lower_ascii c.
Proof. destruct c as [[] [] [] [] [] [] [] []]; reflexivity. Qed.

Lemma ToLower_idem (s : string) : ToLower (ToLower s) = ToLower s.
Proof. induction s as [|c s IH]; simpl; [done|]. by rewrite lower_ascii_idem, IH. Qed.

(** The parser sees the header only through [ToLower]: two challenges that
    differ in case alone give the same parameters. *)
Lemma parseAuthHeader_case_blind (h1 h2 : string) :
  ToLower h1 = ToLower h2 -> parseAuthHeader h1 = parseAuthHeader h2.
Proof. intros E. unfold parseAuthHeader. by rewrite E. Qed.

(** C2, on the code. The parameters of the mixed-case challenge come out
    with lowercase keys, without their quotes, and with every letter of the
    values in lower case as well; the token endpoint is then asked for the
    lowercase realm, service and scope. *)
Theorem parseAuthHeader_lowercases_values :
  parseAuthHeader mixed_case_challenge !! "realm"
    = Some "https://auth.example.com/token" /\
  parseAuthHeader mixed_case_challenge !! "service"
    = Some "registry.example.com" /\
  parseAuthHeader mixed_case_challenge !! "scope"
    = Some "repository:library/alpine:pull" /\
  getAnonymousToken (mkNet (fun url => GetFails url) (fun _ => None))
      (param (parseAuthHeader mixed_case_challenge) "realm")
      (param (parseAuthHeader mixed_case_challenge) "service")
      (param (parseAuthHeader mixed_case_challenge) "scope")
    = inr (TokenGetFailed
             ("https://auth.example.com/token?service=registry.example.com"
              ++ "&scope=repository:library/alpine:pull")).
Proof. vm_compute. repeat split; reflexivity. Qed.

Lemma lowercase_cons (c : ascii) (s : string) :
  lowercase (String c s) <-> lower_ascii c = c /\ lowercase s.
Proof.
  unfold lowercase. simpl. split.
  - by intros [= -> ->].
  - by intros [-> ->].
Qed.

Lemma lowercase_ToLower (s : string) : lowercase (ToLower s).
Proof. apply ToLower_idem. Qed.

Lemma lowercase_drop (n : nat) (s : string) :
  lowercase s -> lowercase (drop_bytes n s).
Proof.
  revert s. induction n as [|n IH]; intros [|c s]; simpl; try done.
  intros [_ Hs]%lowercase_cons. by apply IH.
Qed.

Lemma lowercase_TrimPrefix (s p : string) :
  lowercase s -> lowercase (TrimPrefix s p).
Proof. unfold TrimPrefix. destruct (HasPrefix s p); [apply lowercase_drop | done]. Qed.

Lemma lowercase_trim_left f (s : string) :
  lowercase s -> lowercase (trim_left f s).
Proof.
  induction s as [|c s IH]; simpl; [done|].
  intros H. destruct (f c); [|done].
  apply lowercase_cons in H as [_ Hs]. by apply IH.
Qed.

Lemma lowercase_trim_right f (s : string) :
  lowercase s -> lowercase (trim_right f s).
Proof.
  induction s as [|c s IH]; simpl; [done|].
  intros [Hc Hs]%lowercase_cons. specialize (IH Hs).
  destruct (trim_right f s).
  - destruct (f c); [done|]. by apply lowercase_cons.
  - by apply lowercase_cons.
Qed.

Lemma lowercase_Split (s : string) (c : ascii) :
  lowercase s -> Forall lowercase (Split s c).
Proof.
  induction s as [|a s IH]; simpl; [by repeat constructor|].
  intros [Ha Hs]%lowercase_cons. specialize (IH Hs).
  destruct (Ascii.eqb a c); [by constructor|].
  destruct (Split s c) as [|w ws].
  - repeat constructor. by apply lowercase_cons.
  - apply Forall_cons in IH as [Hw Hws]. constructor; [|done].
    by apply lowercase_cons.
Qed.

Lemma lowercase_SplitN2 (s : string) (c : ascii) :
  lowercase s -> Forall lowercase (SplitN2 s c).
Proof.
  induction s as [|a s IH]; simpl; [by repeat constructor|].
  intros [Ha Hs]%lowercase_cons. specialize (IH Hs).
  destruct (Ascii.eqb a c); [by repeat constructor|].
  destruct (SplitN2 s c) as [|w ws].
  - repeat constructor. by apply lowercase_cons.
  - apply Forall_cons in IH as [Hw Hws]. constructor; [|done].
    by apply lowercase_cons.
Qed.

(** Every key and every value that [parseAuthHeader] returns is in lower
    case, whatever the header. *)
Theorem parseAuthHeader_lowercase (header k v : string) :
  parseAuthHeader header !! k = Some v -> lowercase k /\ lowercase v.
Proof.
  unfold parseAuthHeader.
  pose proof (lowercase_Split _ (ascii_of_nat 44)
                (lowercase_TrimPrefix _ "bearer " (lowercase_ToLower header)))
    as Hparts.
  revert Hparts. generalize (Split (TrimPrefix (ToLower header) "bearer ")
                                   (ascii_of_nat 44)).
  intros parts Hparts.
  assert (forall (m : gmap string string),
            (forall k v, m !! k = Some v -> lowercase k /\ lowercase v) ->
            forall k v,
              fold_left
                (fun params p =>
                   match SplitN2 (TrimSpace p) (ascii_of_nat 61) with
                   | [k; v] => <[k := Trim v JsonLines.dquote]> params
                   | _ => params
                   end) parts m !! k = Some v ->
              lowercase k /\ lowercase v) as Hfold.
  { induction Hparts as [|p parts Hp Hparts IH]; intros m Hm; [exact Hm|].
    simpl. apply IH.
    assert (Forall lowercase (SplitN2 (TrimSpace p) (ascii_of_nat 61))) as Hkv.
    { apply lowercase_SplitN2. unfold TrimSpace.
      by apply lowercase_trim_right, lowercase_trim_left. }
    destruct (SplitN2 (TrimSpace p) (ascii_of_nat 61)) as [|k1 [|v1 [|? ?]]];
      try exact Hm.
    apply Forall_cons in Hkv as [Hk1 Hkv]. apply Forall_cons in Hkv as [Hv1 _].
    intros k' v'. destruct (decide (k1 = k')) as [<-|Hne].
    - rewrite lookup_insert_eq. intros [= <-]. split; [done|].
      unfold Trim. by apply lowercase_trim_right, lowercase_trim_left.
    - rewrite lookup_insert_ne by done. apply Hm. }
  apply Hfold. intros k' v'. by rewrite lookup_empty.
Qed.

Lemma append_empty_r (t : string) : t ++ EmptyString = t.
Proof. induction t as [|c t IH]; simpl; [done | by f_equal]. Qed.

(** When the token endpoint fails: unreachable, a status other than 200, a
    body that does not decode, or a body with neither token. *)
Lemma getAnonymousToken_fails (net : Net) (realm service scope : string) :
  let url := (realm ++ "?service=" ++ service) ++
             (if String.eqb scope EmptyString then EmptyString
              else "&scope=" ++ scope) in
  (exists e, getAnonymousToken net realm service scope = inr e) <->
  ((exists msg, http_Get net url = GetFails msg) \/
   (exists status body, http_Get net url = GetReturns status body /\
      (status <> 200 \/ json_Decode net body = None \/
       exists tr, json_Decode net body = Some tr /\
                  Token tr = EmptyString /\ AccessToken tr = EmptyString))).
Proof.
  intros url. unfold getAnonymousToken.
  assert ((if negb (String.eqb scope EmptyString)
           then (realm ++ "?service=" ++ service) ++ "&scope=" ++ scope
           else realm ++ "?service=" ++ service) = url) as ->.
  { unfold url. destruct (String.eqb scope EmptyString); simpl; [|done].
    by rewrite append_empty_r. }
  destruct (http_Get net url) as [msg | status body].
  { split; [intros _; left; eauto | eauto]. }
  unfold StatusOK. destruct (Z.eqb_spec status 200) as [-> | Hst]; simpl.
  2:{ split; [intros _; right; eauto 6 | eauto]. }
  destruct (json_Decode net body) as [tr|] eqn:Hdec.
  2:{ split; [intros _; right; eauto 7 | eauto]. }
  destruct (String.eqb_spec (Token tr) EmptyString) as [Ht|Ht]; simpl.
  - destruct (String.eqb_spec (AccessToken tr) EmptyString) as [Ha|Ha]; simpl.
    + split; [intros _; right; eauto 10 | eauto].
    + split; [intros [e [=]]|].
      intros [[msg [=]] | (st & b & [= <- <-] & [? | [? | (tr' & Htr & _ & ?)]])];
        congruence.
  - split; [intros [e [=]]|].
    intros [[msg [=]] | (st & b & [= <- <-] & [? | [? | (tr' & Htr & ? & _)]])];
      congruence.
Qed.

Section Challenge.
Context {S : Type}.
Variables (net : Net) (m : AuthMiddleware) (req : Request) (next : Handler S).
Variables (now now' : Z) (s s1 : S) (resp : Response).

(** The request after [applyAuth], and the parameters of the challenge. *)
Let req1 : Request := (applyAuth m req now).1.
Let m1 : AuthMiddleware := (applyAuth m req now).2.
Let params : gmap string string :=
  parseAuthHeader (Header_Get (RespHeader resp) "Www-Authenticate").

(** The upstream answers the first request with a bearer challenge. *)
Hypothesis first_call : next req1 s = (inl resp, s1).
Hypothesis challenge_status : StatusCode resp = 401 \/ StatusCode resp = 403.
Hypothesis challenge_bearer :
  HasPrefix (ToLower (Header_Get (RespHeader resp) "Www-Authenticate"))
            "bearer " = true.

Lemma challenge_reaches_fetch (nxt : Handler (list Request * S)) st :
  handleAuthChallenge net m1 req1 resp nxt now' st =
    match fetchTokenAndRetry net m1 req1 resp nxt now' st with
    | (inr _, resp', m', s') => (inl resp', m', s')
    | (inl retryResp, _, m', s') => (inl retryResp, m', s')
    end.
Proof.
  unfold handleAuthChallenge. rewrite challenge_bearer. simpl.
  unfold StatusUnauthorized, StatusForbidden.
  destruct challenge_status as [-> | ->]; reflexivity.
Qed.

Lemma first_call_logged :
  AuthProcess net m req (logged next) now now' ([], s) =
    handleAuthChallenge net m1 req1 resp (logged next) now' ([req1], s1).
Proof.
  unfold AuthProcess, req1, m1 in *.
  destruct (applyAuth m req now) as [r0 m0]. simpl in *.
  unfold logged at 1. simpl. by rewrite first_call.
Qed.

(** C4. The upstream answers 401 or 403 with a WWW-Authenticate value that
    begins with bearer and a space, in any case. If the token cannot be
    had (no realm, or the token endpoint fails), the interceptor returns
    the challenge response as it is, with no error, after the one call of
    [next]. If the token is had, [next] is called exactly once more, with
    the same request carrying Authorization: Bearer and the token, and the
    response of that call is returned as it is, challenge or not. *)
Theorem challenge_recovery :
  ((params !! "realm" = None \/
    exists realm e, params !! "realm" = Some realm /\
      getAnonymousToken net realm (param params "service")
                        (param params "scope") = inr e) ->
   AuthProcess net m req (logged next) now now' ([], s)
     = (inl resp, m1, ([req1], s1))) /\
  (forall realm tok expiresIn resp2 s2,
     params !! "realm" = Some realm ->
     getAnonymousToken net realm (param params "service")
                       (param params "scope") = inl (tok, expiresIn) ->
     let retryReq :=
       set_ReqHeader (Header_Set (ReqHeader req1) "Authorization"
                                 ("Bearer " ++ tok)) req1 in
     next retryReq s1 = (inl resp2, s2) ->
     exists m',
       AuthProcess net m req (logged next) now now' ([], s)
         = (inl resp2, m', ([req1; retryReq], s2))).
Proof.
  split.
  - intros Hfail. rewrite first_call_logged, challenge_reaches_fetch.
    unfold fetchTokenAndRetry. fold params.
    destruct Hfail as [-> | (realm & e & -> & ->)]; reflexivity.
  - intros realm tok expiresIn resp2 s2 Hrealm Htok retryReq Hretry.
    rewrite first_call_logged, challenge_reaches_fetch.
    unfold fetchTokenAndRetry. fold params. rewrite Hrealm, Htok.
    fold retryReq. unfold logged. simpl. rewrite Hretry. simpl. eauto.
Qed.

(** X1. The upstream answers the first request with a bearer challenge
    and a token is had for it, but the retried call fails with an error:
    the interceptor drops that error and answers with the challenge
    response, its body closed, and no error. *)
Lemma retry_error_returns_closed_challenge realm tok expiresIn err s2 :
  params !! "realm" = Some realm ->
  getAnonymousToken net realm (param params "service")
                    (param params "scope") = inl (tok, expiresIn) ->
  next (set_ReqHeader (Header_Set (ReqHeader req1) "Authorization"
                                  ("Bearer " ++ tok)) req1) s1
    = (inr err, s2) ->
  exists m' log,
    AuthProcess net m req (logged next) now now' ([], s)
      = (inl (set_Body (Closed (Body_ resp)) resp), m', (log, s2)).
Proof.
  intros Hrealm Htok.
  set (retryReq := set_ReqHeader _ req1). intros Hretry.
  rewrite first_call_logged, challenge_reaches_fetch.
  unfold fetchTokenAndRetry. fold params. rewrite Hrealm, Htok.
  fold retryReq. unfold logged. simpl. rewrite Hretry. simpl. eauto.
Qed.

End Challenge.

Lemma challenge_recovery_witness :
  AuthProcess demo_net_down demo_auth demo_pull (logged demo_next) 0 1
              ([], 0%nat)
    = (inl demo_challenge, demo_auth, ([demo_pull], 1%nat)) /\
  exists m',
    AuthProcess demo_net_up demo_auth demo_pull (logged demo_next) 0 1
                ([], 0%nat)
      = (inl demo_ok, m', ([demo_pull; demo_retry], 2%nat)).
Proof.
  split.
  - refine (proj1 (challenge_recovery demo_net_down demo_auth demo_pull
                     demo_next 0 1 0%nat 1%nat demo_challenge _ _ _) _).
    + vm_compute. reflexivity.
    + left. reflexivity.
    + vm_compute. reflexivity.
    + right. exists "https://auth/t", (TokenGetFailed "connection refused").
      split; vm_compute; reflexivity.
  - refine (proj2 (challenge_recovery demo_net_up demo_auth demo_pull
                     demo_next 0 1 0%nat 1%nat demo_challenge _ _ _)
                  "https://auth/t" "T" 3600 demo_ok 2%nat _ _ _).
    + vm_compute. reflexivity.
    + left. reflexivity.
    + vm_compute. reflexivity.
    + vm_compute. reflexivity.
    + vm_compute. reflexivity.
    + vm_compute. reflexivity.
Defined.

Lemma retry_error_returns_closed_challenge_witness :
  exists m' log,
    AuthProcess demo_net_up demo_auth demo_pull (logged Examples3.flaky_next)
                0 1 ([], 0%nat)
      = (inl (set_Body (Closed (Body_ demo_challenge)) demo_challenge), m',
         (log, 2%nat)).
Proof.
  refine (retry_error_returns_closed_challenge demo_net_up demo_auth
            demo_pull Examples3.flaky_next 0 1 0%nat 1%nat demo_challenge
            _ _ _ "https://auth/t" "T" 3600 (Upstream "connection reset")
            2%nat _ _ _).
  - vm_compute. reflexivity.
  - left. reflexivity.
  - vm_compute. reflexivity.
  - vm_compute. reflexivity.
  - vm_compute. reflexivity.
  - vm_compute. reflexivity.
Defined.

End AuthFacts.

(** ** Splitting and joining paths *)

Module PathFacts.
Import GoStrings.
Import Terms Examples.

Lemma Split_nonempty (s : string) (c : ascii) : Split s c <> [].
Proof.
  induction s as [|a s IH]; simpl; [done|].
  destruct (Ascii.eqb a c); [done|]. by destruct (Split s c).
Qed.

Lemma Split_no_sep (s : string) (c : ascii) :
  Contains s c = false -> Split s c = [s].
Proof.
  induction s as [|a s IH]; simpl; [done|].
  intros [Ha Hs]%orb_false_iff. rewrite Ha, (IH Hs). done.
Qed.

Lemma Split_app (s t : string) (c : ascii) :
  Contains s c = false ->
  Split (s ++ String c t) c = s :: Split t c.
Proof.
  induction s as [|a s IH]; simpl.
  - intros _. by rewrite Ascii.eqb_refl.
  - intros [Ha Hs]%orb_false_iff. rewrite Ha, (IH Hs). done.
Qed.

(** Splitting undoes joining, for pieces without the separator. *)
Lemma Split_Join (segs : list string) (c : ascii) :
  segs <> [] ->
  Forall (fun seg => Contains seg c = false) segs ->
  Split (Join segs (String c EmptyString)) c = segs.
Proof.
  induction segs as [|e [|e' rest] IH]; [done| |].
  - intros _ Hall. apply Forall_cons in Hall as [He _].
    simpl. by apply Split_no_sep.
  - intros _ Hall. apply Forall_cons in Hall as [He Hrest].
    change (Join (e :: e' :: rest) (String c EmptyString))
      with (e ++ String c (Join (e' :: rest) (String c EmptyString))).
    rewrite Split_app by done. f_equal. by apply IH.
Qed.

Lemma last_byte_app (a b : string) :
  b <> EmptyString -> last_byte (a ++ b) = last_byte b.
Proof.
  intros Hb. induction a as [|x a IH]; simpl; [done|].
  rewrite IH. destruct (a ++ b) eqn:E; [|done].
  destruct a; simpl in E; [done | discriminate].
Qed.

Lemma last_byte_None (s : string) : last_byte s = None -> s = EmptyString.
Proof.
  induction s as [|a s IH]; [done|].
  destruct s as [|b s]; [done|]. intros H. by specialize (IH H).
Qed.

Lemma Join_cons (e : string) (rest : list string) (sep : string) :
  rest <> [] -> Join (e :: rest) sep = e ++ sep ++ Join rest sep.
Proof. by destruct rest. Qed.

(** The last byte of a joined path is the last byte of its last piece. *)
Lemma last_byte_Join (segs : list string) (l sep : string) :
  l <> EmptyString -> last_byte (Join (segs ++ [l]) sep) = last_byte l.
Proof.
  intros Hl. induction segs as [|e segs IH]; [done|].
  change ((e :: segs) ++ [l])%list with (e :: (segs ++ [l]))%list.
  rewrite Join_cons by (by destruct segs).
  assert (Join (segs ++ [l]) sep <> EmptyString) as HJ.
  { intros EJ. rewrite EJ in IH. symmetry in IH.
    by apply last_byte_None in IH. }
  rewrite !last_byte_app; [done | done |].
  destruct sep; [done | discriminate].
Qed.

(** [trim_right] leaves a string that does not end in a trimmed byte. *)
Lemma trim_right_id (f : ascii -> bool) (s : string) :
  (forall c, last_byte s = Some c -> f c = false) -> trim_right f s = s.
Proof.
  induction s as [|a s IH]; simpl; [done|].
  destruct s as [|b s].
  - intros H. simpl. by rewrite (H a eq_refl).
  - intros H. rewrite (IH H). done.
Qed.

(** What [trim_right] returns does not end in a trimmed byte. *)
Lemma trim_right_last (f : ascii -> bool) (s : string) (c : ascii) :
  last_byte (trim_right f s) = Some c -> f c = false.
Proof.
  induction s as [|a s IH]; simpl; [done|].
  destruct (trim_right f s) as [|b t] eqn:E.
  - destruct (f a) eqn:Ef; simpl; [done|]. by intros [= <-].
  - simpl. exact IH.
Qed.

Lemma Trim_last (s cutset : string) (c : ascii) :
  last_byte (Trim s cutset) = Some c -> in_cutset c cutset = false.
Proof. apply (trim_right_last (fun c => in_cutset c cutset)). Qed.

(** The last piece of a split is empty only for the empty string and for
    a string that ends in the separator. *)
Lemma Split_last_nonempty (s : string) (c d : ascii) :
  last_byte s = Some d -> d <> c -> List.last (Split s c) EmptyString <> EmptyString.
Proof.
  induction s as [|a s IH]; [done|].
  intros Hlast Hd. simpl.
  destruct s as [|b s].
  - simpl in *. injection Hlast as ->.
    by rewrite (proj2 (Ascii.eqb_neq d c) Hd).
  - specialize (IH Hlast Hd).
    pose proof (Split_nonempty (String b s) c) as Hne.
    destruct (Ascii.eqb a c).
    + destruct (Split (String b s) c) eqn:E; [done|]. exact IH.
    + destruct (Split (String b s) c) as [|w ws] eqn:E; [done|].
      destruct ws as [|w' ws]; [done|]. exact IH.
Qed.

Lemma nth_last (l : list string) (d : string) :
  nth (length l - 1) l d = List.last l d.
Proof.
  induction l as [|x [|y l] IH]; [done..|].
  replace (length (x :: y :: l) - 1)%nat
    with (Datatypes.S (length (y :: l) - 1)) by (simpl; lia).
  exact IH.
Qed.

(** The last piece of a trimmed path with more than one piece is not
    empty. *)
Lemma final_segment_nonempty (path : string) :
  let parts := Split (Trim path "/") slash in
  (2 <= length parts)%nat ->
  nth (length parts - 1) parts EmptyString <> EmptyString.
Proof.
  intros parts Hlen. rewrite nth_last.
  destruct (last_byte (Trim path "/")) as [d|] eqn:E.
  - apply (Split_last_nonempty _ slash d E).
    apply Trim_last in E. simpl in E. intros ->. discriminate.
  - apply last_byte_None in E. unfold parts in Hlen. rewrite E in Hlen.
    simpl in Hlen. lia.
Qed.

End PathFacts.

(** ** The director *)

Module RoutingFacts.
Import GoStrings Http Config Proxy PathFacts.
Import Terms Examples.

Lemma last_byte_in (s : string) (c : ascii) :
  last_byte s = Some c -> Contains s c = true.
Proof.
  induction s as [|a s IH]; [done|]. destruct s as [|b s].
  - simpl. intros [= ->]. by rewrite Ascii.eqb_refl.
  - intros H. change (Contains (String a (String b s)) c)
      with (Ascii.eqb a c || Contains (String b s) c).
    rewrite (IH H). apply orb_true_r.
Qed.

(** The pieces of a well-formed path under /v2/. *)
Lemma v2_path_parts (segs : list string) :
  segs <> [] ->
  Forall (fun seg => Contains seg slash = false) segs ->
  List.last segs EmptyString <> EmptyString ->
  Split (Trim ("/v2/" ++ Join segs "/") "/") slash = "v2" :: segs.
Proof.
  intros Hne Hall Hlast.
  assert (Trim ("/v2/" ++ Join segs "/") "/" = Join ("v2" :: segs) "/") as ->.
  { rewrite Join_cons by done. unfold Trim.
    change (trim_left (fun c => in_cutset c "/") ("/v2/" ++ Join segs "/"))
      with ("v2/" ++ Join segs "/").
    change ("v2" ++ "/" ++ Join segs "/") with ("v2/" ++ Join segs "/").
    apply trim_right_id. intros c Hc.
    rewrite (app_removelast_last EmptyString Hne) in Hc.
    assert (Join (removelast segs ++ [List.last segs EmptyString]) "/"
            <> EmptyString) as HJ.
    { intros EJ. pose proof (last_byte_Join (removelast segs) _ "/" Hlast) as E.
      rewrite EJ in E. symmetry in E. by apply last_byte_None in E. }
    rewrite last_byte_app, last_byte_Join in Hc by done.
    apply last_byte_in in Hc.
    assert (Contains (List.last segs EmptyString) slash = false) as Hno.
    { rewrite Forall_forall in Hall. apply Hall.
      rewrite (app_removelast_last EmptyString Hne) at 2.
      apply elem_of_app. right. by apply list_elem_of_singleton. }
    simpl. rewrite orb_false_r.
    destruct (Ascii.eqb_spec c "/"%char) as [->|]; [|done].
    change "/"%char with slash in Hc. congruence. }
  apply (Split_Join ("v2" :: segs) slash); [done|].
  by apply Forall_cons.
Qed.

(** No piece of a split contains the separator. *)
Lemma Split_pieces (s : string) (c : ascii) :
  Forall (fun piece => Contains piece c = false) (Split s c).
Proof.
  induction s as [|a s IH]; simpl; [by repeat constructor|].
  destruct (Ascii.eqb a c) eqn:E; [by constructor|].
  destruct (Split s c) as [|w ws]; [by repeat constructor; simpl; rewrite E|].
  apply Forall_cons in IH as [Hw Hws]. constructor; [|done].
  simpl. by rewrite E, Hw.
Qed.

(** The director in terms of the pieces of the path: when the trimmed path
    splits into v2, a name and the rest, a name with a dot becomes the
    host, a name without one goes under library/ on the default registry. *)
Lemma director_on_parts (cfg : Config) (req : Request)
    (name : string) (rest : list string) :
  Split (Trim (Path (Url req)) "/") slash = "v2" :: name :: rest ->
  let r := newDirector cfg req in
  if Contains name dot then
    Host (Url r) = name /\ ReqHost r = name /\
    Path (Url r) = "/v2/" ++ Join rest "/"
  else
    Host (Url r) = DefaultRegistry cfg /\ ReqHost r = DefaultRegistry cfg /\
    Path (Url r) = "/v2/library/" ++ Join (name :: rest) "/".
Proof.
  intros Hparts r. unfold r, newDirector.
  pose proof (Split_pieces (Trim (Path (Url req)) "/") slash) as Hall.
  fold slash. rewrite Hparts in *.
  change (nth 1 ("v2" :: name :: rest) EmptyString) with name.
  change (drop 2 ("v2" :: name :: rest)) with rest.
  change (drop 1 ("v2" :: name :: rest)) with (name :: rest).
  change (nth 0 ("v2" :: name :: rest) EmptyString) with "v2".
  change (2 <=? length ("v2" :: name :: rest))%nat with true.
  change (String.eqb "v2" "v2") with true.
  cbn [andb]. fold dot. fold slash.
  destruct (Contains name dot); [done|].
  apply Forall_cons in Hall as [_ Hall].
  apply Forall_cons in Hall as [-> _]. done.
Qed.

(** C5. For a path /v2/name/rest with at least one piece after the name
    (the pieces being free of slashes, the last one not empty): when the
    name contains a dot, the director makes it the upstream host and the
    path becomes /v2/rest; when it does not, the host is the configured
    default registry and the path becomes /v2/library/name/rest. *)
Theorem director_routes (cfg : Config) (req : Request)
    (name : string) (rest : list string) :
  rest <> [] ->
  Forall (fun seg => Contains seg slash = false) (name :: rest) ->
  List.last rest EmptyString <> EmptyString ->
  Path (Url req) = "/v2/" ++ Join (name :: rest) "/" ->
  let r := newDirector cfg req in
  if Contains name dot then
    Host (Url r) = name /\ ReqHost r = name /\
    Path (Url r) = "/v2/" ++ Join rest "/"
  else
    Host (Url r) = DefaultRegistry cfg /\ ReqHost r = DefaultRegistry cfg /\
    Path (Url r) = "/v2/library/" ++ Join (name :: rest) "/".
Proof.
  intros Hne Hall Hlast Hpath. apply director_on_parts.
  rewrite Hpath. apply v2_path_parts; [done | done | by destruct rest].
Qed.

Lemma director_routes_witness :
  (let r := newDirector demo_cfg
                        (inbound "/v2/ghcr.io/owner/img/manifests/latest") in
   Host (Url r) = "ghcr.io" /\ ReqHost r = "ghcr.io" /\
   Path (Url r) = "/v2/owner/img/manifests/latest") /\
  (let r := newDirector demo_cfg
                        (inbound "/v2/nginx/manifests/latest") in
   Host (Url r) = "docker.io" /\ ReqHost r = "docker.io" /\
   Path (Url r) = "/v2/library/nginx/manifests/latest").
Proof.
  split.
  - refine (director_routes demo_cfg
              (inbound "/v2/ghcr.io/owner/img/manifests/latest")
              "ghcr.io" ["owner"; "img"; "manifests"; "latest"] _ _ _ _).
    + discriminate.
    + repeat constructor.
    + discriminate.
    + reflexivity.
  - refine (director_routes demo_cfg
              (inbound "/v2/nginx/manifests/latest")
              "nginx" ["manifests"; "latest"] _ _ _ _).
    + discriminate.
    + repeat constructor.
    + discriminate.
    + reflexivity.
Defined.

(** X2. The director never forwards the credentials of the inbound
    request: whatever the configuration and the request, the request it
    sends upstream has no Authorization header, an empty request URI, and
    as Host the host of the upstream URL. *)
Lemma director_clears_authorization (cfg : Config) (req : Request) :
  let r := newDirector cfg req in
  ReqHeader r !! "Authorization" = None /\ RequestURI r = EmptyString /\
  ReqHost r = Host (Url r).
Proof.
  unfold newDirector.
  destruct (_ && _); [destruct (Contains _ _); [|destruct (negb _)] |];
    simpl; (split; [apply lookup_delete_eq | done]).
Qed.

End RoutingFacts.

(** ** The cache interceptor *)

Module InterceptorFacts.
Import GoStrings Http Config Middleware PathFacts.
Import Terms Examples.

(** A blob request, in the words of the code: the method is GET, and the
    path, trimmed of slashes and split at slashes, has at least four
    pieces, the one before the last being blobs. *)
Lemma isBlobRequest_spec (req : Request) :
  isBlobRequest req = true <->
  Method req = "GET" /\
  let parts := Split (Trim (Path (Url req)) "/") slash in
  (4 <= length parts)%nat /\ nth (length parts - 2) parts EmptyString = "blobs".
Proof.
  unfold isBlobRequest, MethodGet. fold slash.
  destruct (String.eqb_spec (Method req) "GET") as [E|E]; cbn [negb].
  - rewrite andb_true_iff, Nat.leb_le, String.eqb_eq. tauto.
  - split; [done | tauto].
Qed.

(** The digest of a blob request is its final segment, and is not empty. *)
Lemma blob_digest (req : Request) :
  isBlobRequest req = true ->
  extractDigestFromPath (Path (Url req)) = final_segment (Path (Url req)) /\
  final_segment (Path (Url req)) <> EmptyString.
Proof.
  intros (_ & Hlen & Hblobs)%isBlobRequest_spec.
  split.
  - unfold extractDigestFromPath, final_segment. fold slash.
    rewrite Hblobs.
    destruct (Nat.leb_spec 2 (length (Split (Trim (Path (Url req)) "/") slash)));
      [done | lia].
  - apply final_segment_nonempty. lia.
Qed.

(** A hit of [GetReader]: the key is in the index, its file is in the
    directory, and the size returned is the one recorded in the entry. *)
Lemma GetReader_hit key now c d reader size c' :
  LRU.GetReader key now c d = (Some (reader, size), c') ->
  exists ee, LRU.cache c !! key = Some ee /\ d !! key = Some reader /\
             size = LRU.Size (LRU.Value c ee).
Proof.
  unfold LRU.GetReader.
  destruct (LRU.cache c !! key) as [ee|]; [|discriminate].
  destruct (d !! key) as [file|]; [|discriminate].
  intros [= <- <- <-]. exists ee. repeat split.
  unfold LRU.Value, LRU.MoveToFront. by destruct (decide _).
Qed.

(** After [GetCache] the host has its cache. *)
Lemma GetCache_has `{LRU.EntryCodec} cm host faults fs :
  is_Some (caches (GetCache cm host faults fs).1 !! host).
Proof.
  unfold GetCache. destruct (caches cm !! host) eqn:E.
  - simpl. rewrite E. eauto.
  - destruct (LRU.NewLRUCache _ _ _ _ _) as [[c|] d]; simpl;
      rewrite lookup_insert_eq; eauto.
Qed.

(** C6. For a blob request whose final path segment hits in the cache of
    the request's host, the interceptor answers with status 200, the
    cached file as body, the recorded size of the entry as ContentLength
    and an empty header map, and [next] is not called. For a request that
    is not a blob request, the interceptor returns what [next] returns,
    body untouched, and leaves the caches and the files alone. *)
Theorem cache_interceptor `{LRU.EntryCodec} {S : Type} (cm : CacheManager)
    (req : Request) (next : Handler S) (now : Z) (faults : NewFaults)
    (fs : FS) (s : S) :
  (isBlobRequest req = true ->
   let digest := final_segment (Path (Url req)) in
   let host := Host (Url req) in
   let cm1 := (GetCache cm host faults fs).1 in
   let fs1 := (GetCache cm host faults fs).2 in
   forall c reader size c',
     caches cm1 !! host = Some c ->
     LRU.GetReader digest now c (dir_of fs1 (LRU.cacheDir c))
       = (Some (reader, size), c') ->
     CacheProcess cm req (logged next) now faults fs ([], s)
       = (inl (mkResponse 200 (File digest reader) ∅ size (Some req)),
          mkCacheManager (cm_cfg cm1) (<[host := c']> (caches cm1)),
          fs1, ([], s)) /\
     exists ee, LRU.cache c !! digest = Some ee /\
                size = LRU.Size (LRU.Value c ee)) /\
  (isBlobRequest req = false ->
   CacheProcess cm req (logged next) now faults fs ([], s)
     = ((next req s).1, cm, fs, ([req], (next req s).2))).
Proof.
  split.
  - intros Hblob digest host cm1 fs1 c reader size c' Hc Hhit.
    destruct (blob_digest req Hblob) as [Hd Hne].
    split.
    + unfold CacheProcess, tryServeFromCache. rewrite Hblob, Hd. simpl.
      rewrite (proj2 (String.eqb_neq _ _) Hne).
      fold digest host. unfold cm1, fs1 in *.
      destruct (GetCache cm host faults fs) as [cm' fs']. simpl in *.
      rewrite Hc, Hhit. reflexivity.
    + destruct (GetReader_hit _ _ _ _ _ _ _ Hhit) as (ee & ? & _ & ?). eauto.
  - intros Hblob. unfold CacheProcess, tryServeFromCache, cacheResponse.
    rewrite Hblob. simpl. unfold logged. simpl.
    destruct (next req s) as [[resp|err] s1]; reflexivity.
Qed.

Lemma cache_interceptor_witness :
  CacheProcess (H := JsonLines.codec) demo_cm demo_blob (logged demo_upstream)
               5 no_faults demo_fs ([], 0%nat)
    = (inl (mkResponse 200 (File "sha256:aaaa" "abcd") ∅ 4 (Some demo_blob)),
       mkCacheManager demo_cfg {[ "docker.io" := demo_after_hit ]},
       demo_fs, ([], 0%nat)) /\
  CacheProcess (H := JsonLines.codec) demo_cm demo_manifest
               (logged demo_upstream) 5 no_faults demo_fs ([], 0%nat)
    = (inl (mkResponse 200 (Stream "upstream") ∅ 8 None), demo_cm, demo_fs,
       ([demo_manifest], 1%nat)).
Proof.
  split.
  - rewrite (proj1 (proj1 (cache_interceptor (H := JsonLines.codec) demo_cm
                             demo_blob demo_upstream 5 no_faults demo_fs 0%nat)
                          eq_refl
                          demo_loaded "abcd" 4 demo_after_hit
                          ltac:(vm_compute; reflexivity)
                          ltac:(vm_compute; reflexivity))).
    vm_compute. reflexivity.
  - rewrite (proj2 (cache_interceptor (H := JsonLines.codec) demo_cm
                      demo_manifest demo_upstream 5 no_faults demo_fs 0%nat)
                   eq_refl).
    reflexivity.
Defined.

End InterceptorFacts.

(** ** The blob cache: index, recency list and size counter *)

Module InvariantFacts.
Import LRU Invariants.

(** *** Sums, and a list without one of its elements *)

Lemma sumZ_app {A} (f : A -> Z) l1 l2 : sumZ f (l1 ++ l2) = sumZ f l1 + sumZ f l2.
Proof. induction l1 as [|x l1 IH]; simpl; [done|]. rewrite IH. lia. Qed.

Lemma sumZ_map {A B} (f : B -> Z) (g : A -> B) (l : list A) :
  sumZ f (map g l) = sumZ (fun x => f (g x)) l.
Proof. induction l as [|x l IH]; simpl; [done|]. by rewrite IH. Qed.

Lemma sumZ_perm {A} (f : A -> Z) l1 l2 : l1 ≡ₚ l2 -> sumZ f l1 = sumZ f l2.
Proof. induction 1; simpl; lia. Qed.

Lemma sumZ_ext {A} (f g : A -> Z) l :
  (forall x, x ∈ l -> f x = g x) -> sumZ f l = sumZ g l.
Proof.
  induction l as [|x l IH]; simpl; [done|]. intros H.
  rewrite (H x), IH; [done| |]; intros; try apply H; by constructor.
Qed.

Lemma unlink_perm (e : nat) (l : list nat) :
  NoDup l -> e ∈ l -> l ≡ₚ e :: unlink e l.
Proof.
  intros Hnd He. apply NoDup_Permutation; [done| |].
  - constructor.
    + unfold unlink. rewrite list_elem_of_filter. tauto.
    + by apply NoDup_filter.
  - intros x. unfold unlink. rewrite elem_of_cons, list_elem_of_filter.
    destruct (decide (x = e)) as [->|Hx].
    + split; [by left | done].
    + split; [by right | by intros [? | [_ ?]]].
Qed.

Lemma unlink_notin (e : nat) (l : list nat) : e ∉ l -> unlink e l = l.
Proof.
  intros He. unfold unlink. induction l as [|x l IH]; [done|].
  rewrite filter_cons. apply not_elem_of_cons in He as [? ?].
  rewrite decide_True by done. f_equal. by apply IH.
Qed.

Lemma unlink_last (e : nat) (l : list nat) :
  NoDup (l ++ [e]) -> unlink e (l ++ [e]) = l.
Proof.
  intros Hnd. apply NoDup_app in Hnd as (_ & Hdisj & _).
  unfold unlink. rewrite filter_app, filter_cons, decide_False by (by intros ?).
  rewrite filter_nil, app_nil_r. apply unlink_notin.
  intros Hin. apply (Hdisj e Hin). by apply list_elem_of_singleton.
Qed.

(** *** Shape and total depend on the elements, the list and the index *)

Lemma shape_same (c c' : Cache) :
  elems c' = elems c -> ll c' = ll c -> cache c' = cache c ->
  shape c -> shape c'.
Proof.
  intros He Hl Hc [H1 H2 H3 H4].
  split; unfold Value in *; rewrite ?He, ?Hl, ?Hc; done.
Qed.

Lemma total_same (c c' : Cache) :
  elems c' = elems c -> ll c' = ll c -> total c' = total c.
Proof. intros He Hl. unfold total, Value. by rewrite He, Hl. Qed.

Lemma Value_insert (c : Cache) (e a : nat) (v : entry) :
  Value (set_elems (<[e := v]> (elems c)) c) a
    = if decide (a = e) then v else Value c a.
Proof.
  unfold Value. simpl. destruct (decide (a = e)) as [->|].
  - by rewrite lookup_insert_eq.
  - by rewrite lookup_insert_ne.
Qed.

Lemma sumZ_update (f g : nat -> Z) (e : nat) (l : list nat) :
  NoDup l -> e ∈ l -> (forall a, a <> e -> g a = f a) ->
  sumZ g l = sumZ f l + (g e - f e).
Proof.
  intros Hnd He Hg.
  rewrite (sumZ_perm g _ _ (unlink_perm e l Hnd He)).
  rewrite (sumZ_perm f _ _ (unlink_perm e l Hnd He)). simpl.
  rewrite (sumZ_ext g f (unlink e l)); [lia|].
  intros x Hx. apply Hg. unfold unlink in Hx.
  apply list_elem_of_filter in Hx. tauto.
Qed.

Lemma sumZ_unlink (f : nat -> Z) (e : nat) (l : list nat) :
  NoDup l -> e ∈ l -> sumZ f (unlink e l) = sumZ f l - f e.
Proof.
  intros Hnd He.
  rewrite (sumZ_perm f _ _ (unlink_perm e l Hnd He)). simpl. lia.
Qed.

(** Moving an element to the front and writing its entry. *)
Lemma touch_shape (c : Cache) (ee : nat) (v : entry) :
  shape c -> ee ∈ ll c -> Key v = Key (Value c ee) -> 0 <= Size v ->
  let c' := set_Value ee v (MoveToFront ee c) in
  shape c' /\ total c' = total c + (Size v - Size (Value c ee)).
Proof.
  intros [Hnd Hal Hix Hnn] Hee Hk Hv c'.
  assert (ll c' = ee :: unlink ee (ll c)) as Hll.
  { unfold c', MoveToFront. by rewrite decide_True. }
  assert (forall a, Value c' a = if decide (a = ee) then v else Value c a) as Hval.
  { intros a. unfold c', set_Value, MoveToFront. rewrite decide_True by done.
    apply (Value_insert (set_ll _ c)). }
  assert (cache c' = cache c) as Hca.
  { unfold c', MoveToFront. by rewrite decide_True. }
  pose proof (unlink_perm ee (ll c) Hnd Hee) as Hperm.
  split; [split|].
  - rewrite Hll, <- Hperm. done.
  - intros a. rewrite Hll, <- Hperm. intros Ha.
    unfold c', set_Value, MoveToFront. rewrite decide_True by done. simpl.
    destruct (decide (a = ee)) as [->|].
    + rewrite lookup_insert_eq. eauto.
    + rewrite lookup_insert_ne by done. by apply Hal.
  - intros k a. rewrite Hca, Hll, <- Hperm, Hval, Hix.
    destruct (decide (a = ee)) as [->|]; [rewrite Hk|]; done.
  - intros a. rewrite Hll, <- Hperm, Hval. intros Ha.
    destruct (decide (a = ee)); [done | by apply Hnn].
  - unfold total. rewrite Hll, <- (sumZ_perm _ _ _ Hperm).
    rewrite (sumZ_update (fun a => Size (Value c a)) _ ee) by
      (try done; intros a Ha; by rewrite Hval, decide_False).
    rewrite Hval, decide_True by done. done.
Qed.

Lemma fresh_not_in_list (c : Cache) :
  shape c -> fresh (dom (elems c)) ∉ ll c.
Proof.
  intros Hs Hin. apply (shape_alloc c Hs) in Hin.
  apply elem_of_dom in Hin. by apply is_fresh in Hin.
Qed.

(** A new element at the front, indexed under a key that was free. *)
Lemma insert_shape (c : Cache) (v : entry) :
  shape c -> cache c !! Key v = None -> 0 <= Size v ->
  let c' := set_cache (<[Key v := (PushFront v c).2]> (cache (PushFront v c).1))
                      (PushFront v c).1 in
  shape c' /\ total c' = total c + Size v.
Proof.
  intros Hs Hfree Hv c'.
  pose proof (fresh_not_in_list c Hs) as Hfresh.
  destruct Hs as [Hnd Hal Hix Hnn].
  set (e := fresh (dom (elems c))) in *.
  assert (forall a, Value c' a = if decide (a = e) then v else Value c a) as Hval.
  { intros a. apply (Value_insert c). }
  change (ll c') with (e :: ll c). change (cache c') with (<[Key v := e]> (cache c)).
  split; [split|].
  - change (ll c') with (e :: ll c). by constructor.
  - change (ll c') with (e :: ll c). intros a Ha.
    change (elems c') with (<[e := v]> (elems c)).
    destruct (decide (a = e)) as [->|].
    + rewrite lookup_insert_eq. eauto.
    + rewrite lookup_insert_ne by done. apply Hal.
      apply elem_of_cons in Ha as [|]; done.
  - intros k a. change (ll c') with (e :: ll c).
    change (cache c') with (<[Key v := e]> (cache c)).
    rewrite Hval, elem_of_cons.
    destruct (decide (k = Key v)) as [->|Hk].
    + rewrite lookup_insert_eq. split.
      * intros [= <-]. rewrite decide_True by done. auto.
      * intros [[-> | Ha] Hkey]; [done|].
        destruct (decide (a = e)) as [->|]; [done|].
        assert (cache c !! Key v = Some a) as E by (apply Hix; done).
        congruence.
    + rewrite lookup_insert_ne by done. rewrite Hix.
      destruct (decide (a = e)) as [->|]; [|tauto].
      split; [tauto | intros [_ ?]; congruence].
  - change (ll c') with (e :: ll c). intros a Ha. rewrite Hval.
    destruct (decide (a = e)); [done|].
    apply Hnn. apply elem_of_cons in Ha as [|]; done.
  - unfold total. change (ll c') with (e :: ll c). simpl.
    rewrite Hval, decide_True by done.
    rewrite (sumZ_ext _ (fun a => Size (Value c a)) (ll c)); [lia|].
    intros a Ha. rewrite Hval, decide_False; [done|]. by intros ->.
Qed.

(** Taking an element off the list and out of the index. *)
Lemma remove_shape (c : Cache) (e : nat) :
  shape c -> e ∈ ll c ->
  let c' := (removeElementLocked c e).1 in
  (removeElementLocked c e).2 = Value c e /\
  shape c' /\ total c' = total c - Size (Value c e) /\
  size c' = size c - Size (Value c e) /\ ll c' = unlink e (ll c).
Proof.
  intros [Hnd Hal Hix Hnn] He c'.
  split; [done|].
  assert (forall a, Value c' a = Value c a) as Hval by done.
  split; [split|].
  - change (ll c') with (unlink e (ll c)). by apply NoDup_filter.
  - change (ll c') with (unlink e (ll c)). intros a Ha.
    apply list_elem_of_filter in Ha as [_ Ha]. by apply Hal.
  - intros k a. change (ll c') with (unlink e (ll c)).
    change (cache c') with (delete (Key (Value c e)) (cache c)).
    unfold unlink. rewrite list_elem_of_filter, Hval.
    destruct (decide (k = Key (Value c e))) as [->|Hk].
    + rewrite lookup_delete_eq. split; [done|].
      intros [[Hne Ha] Hkey]. exfalso. apply Hne.
      assert (cache c !! Key (Value c e) = Some a) as E1 by (by apply Hix).
      assert (cache c !! Key (Value c e) = Some e) as E2 by (by apply Hix).
      congruence.
    + rewrite lookup_delete_ne by done. rewrite Hix.
      split; [|tauto]. intros [Ha Hkey]. repeat split; [|done..].
      intros ->. congruence.
  - change (ll c') with (unlink e (ll c)). intros a Ha.
    apply list_elem_of_filter in Ha as [_ Ha]. rewrite Hval. by apply Hnn.
  - split; [|done]. unfold total. change (ll c') with (unlink e (ll c)).
    rewrite <- (sumZ_unlink (fun a => Size (Value c a)) e (ll c) Hnd He).
    apply sumZ_ext. intros a _. by rewrite Hval.
Qed.

Lemma shape_ll_nil_total (c : Cache) : ll c = [] -> total c = 0.
Proof. intros E. unfold total. by rewrite E. Qed.

(** *** The eviction loop *)

Lemma evict_post_refl (c : Cache) (acc : list entry) :
  wf c -> size c <= maxSize c \/ ll c = [] -> evict_post c acc (c, acc).
Proof.
  intros Hwf Hstop. unfold evict_post. simpl.
  split; [done|]. split; [done|]. split; [done|]. split; [done|].
  split; [done|]. exists []. simpl. rewrite !app_nil_r.
  split; [done|]. split; [done|]. lia.
Qed.

Lemma evict_loop_S (fuel : nat) (c : Cache) (acc : list entry) :
  evict_loop (S fuel) c acc =
    if size c >? maxSize c then
      match Back c with
      | None => (c, acc)
      | Some oldest =>
          let r := removeElementLocked c oldest in
          evict_loop fuel (set_evictions (evictions r.1 + 1) r.1)
                     (acc ++ [r.2])%list
      end
    else (c, acc).
Proof. reflexivity. Qed.

(** With the length of the list as fuel the loop runs to its end: it
    stops because the size fits or the list is empty, never for lack of
    fuel. *)
Lemma evict_loop_spec (fuel : nat) (c : Cache) (acc : list entry) :
  wf c -> (length (ll c) <= fuel)%nat ->
  evict_post c acc (evict_loop fuel c acc).
Proof.
  revert c acc. induction fuel as [|fuel IH]; intros c acc Hwf Hlen.
  - simpl. apply evict_post_refl; [done|]. right.
    destruct (ll c); [done | simpl in Hlen; lia].
  - rewrite evict_loop_S.
    destruct (Z.gtb_spec (size c) (maxSize c)) as [Hgt|Hle].
    2:{ apply evict_post_refl; [done | by left]. }
    unfold Back. destruct (last (ll c)) as [oldest|] eqn:Hlast.
    2:{ apply last_None in Hlast. apply evict_post_refl; [done | by right]. }
    apply last_Some in Hlast as [l0 Hl0].
    destruct Hwf as [Hs Hsz].
    assert (oldest ∈ ll c) as Hin.
    { rewrite Hl0. apply elem_of_app. right. by apply list_elem_of_singleton. }
    destruct (remove_shape c oldest Hs Hin) as (Hkv & Hs1 & Ht1 & Hsz1 & Hll1).
    assert (elems (removeElementLocked c oldest).1 = elems c /\
            maxSize (removeElementLocked c oldest).1 = maxSize c /\
            evictions (removeElementLocked c oldest).1 = evictions c)
      as (Hel1 & Hm1 & Hev1) by done.
    cbv zeta.
    destruct (removeElementLocked c oldest) as [c1 kv].
    simpl in Hkv, Hs1, Ht1, Hsz1, Hll1, Hel1, Hm1, Hev1. subst kv.
    cbn [fst snd].
    assert (ll c1 = l0) as Hl1.
    { rewrite Hll1, Hl0. apply unlink_last. rewrite <- Hl0. apply Hs. }
    set (c2 := set_evictions (evictions c1 + 1) c1).
    assert (wf c2) as Hwf2.
    { split; [by apply (shape_same c1)|].
      rewrite (total_same c1 c2) by done. simpl. lia. }
    assert (length (ll c2) <= fuel)%nat as Hlen2.
    { change (ll c2) with (ll c1). rewrite Hl1. rewrite Hl0, length_app in Hlen.
      simpl in Hlen. lia. }
    specialize (IH c2 (acc ++ [Value c oldest])%list Hwf2 Hlen2).
    destruct IH as (Hwf' & Hmax & Hel & Hstop & _ & victims & Hv1 & Hv2 & Hv3).
    unfold evict_post.
    split; [done|]. split; [by rewrite Hmax|]. split; [by rewrite Hel|].
    split; [by rewrite <- Hm1|]. split; [lia|].
    exists (oldest :: victims). split; [|split].
    + change (ll c2) with (ll c1) in Hv1. rewrite Hl0, <- Hl1, Hv1.
      simpl. by rewrite app_assoc.
    + rewrite Hv2, <- app_assoc. simpl. do 2 f_equal.
      apply map_ext. intros a. unfold Value. change (elems c2) with (elems c1).
      by rewrite Hel1.
    + rewrite Hv3. change (evictions c2) with (evictions c1 + 1).
      rewrite Hev1. simpl length. lia.
Qed.

(** *** The operations keep the invariant *)

Lemma wf_same (c c' : Cache) :
  elems c' = elems c -> ll c' = ll c -> cache c' = cache c -> size c' = size c ->
  wf c -> wf c'.
Proof.
  intros He Hl Hc Hz [Hs Hsz]. split; [by apply (shape_same c)|].
  rewrite Hz, Hsz. symmetry. by apply total_same.
Qed.

Lemma index_in_list (c : Cache) (key : string) (ee : nat) :
  shape c -> cache c !! key = Some ee -> ee ∈ ll c /\ Key (Value c ee) = key.
Proof. intros Hs. apply (shape_index c Hs). Qed.

Lemma Value_MoveToFront (c : Cache) (e a : nat) :
  Value (MoveToFront e c) a = Value c a.
Proof. unfold MoveToFront, Value. by destruct (decide _). Qed.

Lemma size_MoveToFront (c : Cache) (e : nat) : size (MoveToFront e c) = size c.
Proof. unfold MoveToFront. by destruct (decide _). Qed.

Lemma maxSize_MoveToFront (c : Cache) (e : nat) :
  maxSize (MoveToFront e c) = maxSize c.
Proof. unfold MoveToFront. by destruct (decide _). Qed.

(** The index update of [Put] keeps the invariant. *)
Lemma putLocked_wf (key : string) (sz now : Z) (c : Cache) :
  wf c -> 0 <= sz ->
  wf (putLocked key sz now c) /\
  maxSize (putLocked key sz now c) = maxSize c.
Proof.
  intros [Hs Hsz] Hnn. unfold putLocked.
  destruct (cache c !! key) as [ee|] eqn:Hlook.
  - destruct (index_in_list c key ee Hs Hlook) as [Hin Hkey].
    rewrite Value_MoveToFront.
    destruct (touch_shape c ee (Entry (Key (Value c ee)) sz now) Hs Hin eq_refl Hnn)
      as [Hs' Ht']. cbv zeta in Hs', Ht'.
    split; [split|].
    + by apply (shape_same (set_Value ee (Entry (Key (Value c ee)) sz now)
                                     (MoveToFront ee c))).
    + rewrite (total_same
                 (set_Value ee (Entry (Key (Value c ee)) sz now) (MoveToFront ee c)))
        by done.
      rewrite Ht'. simpl. rewrite size_MoveToFront. lia.
    + simpl. apply maxSize_MoveToFront.
  - destruct (insert_shape c (Entry key sz now) Hs Hlook Hnn) as [Hs' Ht'].
    cbv zeta in Hs', Ht'.
    destruct (PushFront (Entry key sz now) c) as [c1 e1] eqn:E.
    assert (size c1 = size c /\ maxSize c1 = maxSize c) as [Hz1 Hm1].
    { unfold PushFront in E. by injection E as <- _. }
    simpl in Hs', Ht'.
    split; [split|].
    + by apply (shape_same (set_cache (<[key := e1]> (cache c1)) c1)).
    + rewrite (total_same (set_cache (<[key := e1]> (cache c1)) c1)) by done.
      rewrite Ht'. simpl. lia.
    + done.
Qed.

Lemma evictIfNeeded_spec (c : Cache) (d : Dir) :
  wf c ->
  let r := evictIfNeeded c d in
  wf r.1 /\ maxSize r.1 = maxSize c /\
  (0 < maxSize c -> size r.1 <= maxSize c \/ ll r.1 = []) /\
  (maxSize c <= 0 -> r = (c, d)) /\
  (size c <= maxSize c -> r = (c, d)) /\
  exists victims,
    ll c = (ll r.1 ++ rev victims)%list /\
    r.2 = deleteFiles (map (Value c) victims) d /\
    evictions r.1 = evictions c + Z.of_nat (length victims).
Proof.
  intros Hwf r. unfold r, evictIfNeeded.
  destruct (Z.leb_spec (maxSize c) 0) as [Hle|Hgt].
  - simpl. split; [done|]. split; [done|]. split; [lia|]. split; [done|].
    split; [done|]. exists []. simpl. rewrite app_nil_r.
    split; [done|]. split; [done|]. lia.
  - pose proof (evict_loop_spec (length (ll c)) c [] Hwf (Nat.le_refl _))
      as (Hwf' & Hmax & _ & Hstop & Hid & victims & Hv1 & Hv2 & Hv3).
    destruct (evict_loop (length (ll c)) c []) as [c' out]. simpl in *.
    split; [done|]. split; [done|]. split; [done|]. split; [lia|].
    split.
    + intros Hfit. rewrite (Hid Hfit) in *.
      assert (victims = []) as ->.
      { apply (f_equal length) in Hv1. rewrite length_app, length_rev in Hv1.
        destruct victims; [done | simpl in Hv1; lia]. }
      by rewrite Hv2.
    + exists victims. rewrite Hv2. done.
Qed.

(** A cache with the same index, list, elements and size counter. *)
Ltac same_index H := refine (wf_same _ _ _ _ _ _ H); done.

(** [Put] leaves the cache alone or inserts. *)
Lemma Put_cases key reader expected now fault c d :
  (Put key reader expected now fault c d).1.2 = c \/
  inserted key reader now c (Put key reader expected now fault c d).1.2.
Proof.
  unfold Put.
  destruct (decide (cacheDir c = EmptyString)); [destruct fault; by left|].
  destruct (negb (String.eqb (actualDigest reader) expected));
    [destruct fault; by left|].
  destruct ((maxSize c >? 0) && (Z.of_nat (String.length reader) >? maxSize c));
    [destruct fault; by left|].
  destruct fault; try (by left).
  right. eexists.
  destruct (evictIfNeeded _ _) as [c2 d3] eqn:E. simpl.
  by rewrite E.
Qed.

(** A [Put] with the right digest, a size that fits, and no failure of the
    operating system inserts and returns no error. *)
Lemma Put_inserts key reader now c d :
  cacheDir c <> EmptyString ->
  (0 < maxSize c -> Z.of_nat (String.length reader) <= maxSize c) ->
  let r := Put key reader (actualDigest reader) now PutOk c d in
  r.1.1 = None /\ inserted key reader now c r.1.2.
Proof.
  intros Hdir Hfit. unfold Put.
  destruct (decide (cacheDir c = EmptyString)); [done|].
  rewrite String.eqb_refl. cbn [negb].
  destruct (Z.gtb_spec (maxSize c) 0) as [Hpos|Hnp]; cbn [andb].
  - destruct (Z.gtb_spec (Z.of_nat (String.length reader)) (maxSize c)); [lia|].
    destruct (evictIfNeeded _ _) as [c2 d3] eqn:E. simpl.
    split; [done|]. eexists. by rewrite E.
  - destruct (evictIfNeeded _ _) as [c2 d3] eqn:E. simpl.
    split; [done|]. eexists. by rewrite E.
Qed.

Lemma inserted_wf key reader now c c' :
  wf c -> inserted key reader now c c' ->
  wf c' /\ maxSize c' = maxSize c /\
  (0 < maxSize c -> size c' <= maxSize c \/ ll c' = []).
Proof.
  intros Hwf [d2 ->].
  destruct (putLocked_wf key (Z.of_nat (String.length reader)) now c Hwf)
    as [Hwf1 Hmax1]; [lia|].
  destruct (evictIfNeeded_spec _ d2 Hwf1) as (Hwf2 & Hmax2 & Hstop & _).
  split; [same_index Hwf2|].
  cbn [maxSize size ll set_persistDirty]. rewrite Hmax2, Hmax1. split; [done|].
  intros Hpos. rewrite <- Hmax1. apply Hstop. by rewrite Hmax1.
Qed.

Lemma Put_wf key reader expected now fault c d :
  wf c -> wf (Put key reader expected now fault c d).1.2.
Proof.
  intros Hwf. destruct (Put_cases key reader expected now fault c d) as [-> | Hi];
    [done|]. by apply (inserted_wf key reader now c).
Qed.

Lemma Put_bounded key reader expected now fault c d :
  wf c -> bounded c -> bounded (Put key reader expected now fault c d).1.2.
Proof.
  intros Hwf Hb. destruct (Put_cases key reader expected now fault c d) as [-> | Hi];
    [done|].
  destruct (inserted_wf key reader now c _ Hwf Hi) as (_ & Hmax & Hstop).
  intros Hpos Hne. rewrite Hmax in *. destruct (Hstop Hpos); done.
Qed.

Lemma GetReader_wf key now c d :
  wf c ->
  let c' := (GetReader key now c d).2 in
  wf c' /\ maxSize c' = maxSize c /\ size c' <= size c.
Proof.
  intros [Hs Hsz]. unfold GetReader.
  destruct (cache c !! key) as [ee|] eqn:Hlook.
  2:{ simpl. split; [same_index (conj Hs Hsz)|]. split; [done|lia]. }
  destruct (index_in_list c key ee Hs Hlook) as [Hin Hkey].
  rewrite Value_MoveToFront.
  set (v := Entry (Key (Value c ee)) (Size (Value c ee)) now).
  destruct (touch_shape c ee v Hs Hin eq_refl (shape_nonneg c Hs ee Hin))
    as [Hs2 Ht2]. cbv zeta in Hs2, Ht2.
  set (c2 := set_Value ee v (MoveToFront ee c)) in *.
  assert (size c2 = size c /\ maxSize c2 = maxSize c /\ cache c2 = cache c)
    as (Hz2 & Hm2 & Hc2).
  { unfold c2, set_Value, MoveToFront. by destruct (decide _). }
  assert (wf c2) as Hwf2.
  { split; [done|]. rewrite Hz2, Hsz, Ht2. simpl. lia. }
  destruct (d !! key) as [file|].
  - cbn [snd]. split; [same_index Hwf2|]. split; [exact Hm2|].
    change (size c2 <= size c). lia.
  - rewrite Hc2, Hlook.
    assert (ee ∈ ll c2) as Hin2.
    { apply (shape_index c2 Hs2 key ee). by rewrite Hc2. }
    destruct (remove_shape c2 ee Hs2 Hin2) as (_ & Hs3 & Ht3 & Hz3 & _).
    pose proof (shape_nonneg c2 Hs2 ee Hin2) as Hnn.
    assert (maxSize (removeElementLocked c2 ee).1 = maxSize c2) as Hm3 by done.
    set (c3 := (removeElementLocked c2 ee).1) in *.
    assert (wf c3) as Hwf3.
    { split; [done|]. destruct Hwf2 as [_ Hsz2]. lia. }
    cbn [snd]. split; [same_index Hwf3|]. split.
    + change (maxSize c3 = maxSize c). by rewrite Hm3.
    + change (size c3 <= size c). lia.
Qed.

Lemma Remove_wf key c d :
  wf c ->
  let c' := (Remove key c d).1 in
  wf c' /\ maxSize c' = maxSize c /\ size c' <= size c.
Proof.
  intros [Hs Hsz]. unfold Remove.
  destruct (cache c !! key) as [ee|] eqn:Hlook.
  2:{ simpl. split; [same_index (conj Hs Hsz)|]. split; [done|lia]. }
  destruct (index_in_list c key ee Hs Hlook) as [Hin Hkey].
  destruct (remove_shape c ee Hs Hin) as (_ & Hs3 & Ht3 & Hz3 & _).
  pose proof (shape_nonneg c Hs ee Hin) as Hnn.
  assert (maxSize (removeElementLocked c ee).1 = maxSize c) as Hm3 by done.
  set (c3 := (removeElementLocked c ee).1) in *.
  assert (wf c3) as Hwf3 by (split; [done | lia]).
  cbn [fst]. split; [same_index Hwf3|]. split.
  - exact Hm3.
  - change (size c3 <= size c). lia.
Qed.

Lemma Clear_wf c d :
  let c' := (Clear c d).1 in
  wf c' /\ maxSize c' = maxSize c /\ ll c' = [] /\ size c' = 0.
Proof.
  simpl. split; [|done]. split; [|done].
  split; simpl; [constructor | by intros a Ha%elem_of_nil | | by intros a Ha%elem_of_nil].
  intros k a. rewrite lookup_empty. split; [done|]. by intros [Ha%elem_of_nil _].
Qed.

Lemma Persist_index `{EntryCodec} now fault c d :
  let c' := (Persist now fault c d).1.2 in
  elems c' = elems c /\ ll c' = ll c /\ cache c' = cache c /\
  size c' = size c /\ maxSize c' = maxSize c.
Proof.
  unfold Persist. destruct (negb (persistDirty c)); [done|].
  destruct (decide _); [done|]. destruct fault; done.
Qed.

(** *** From the invariant to the three equalities *)

(** The index, as a list, is the recency list with the keys attached. *)
Lemma index_perm (c : Cache) :
  shape c ->
  map_to_list (cache c) ≡ₚ map (fun a => (Key (Value c a), a)) (ll c).
Proof.
  intros [Hnd _ Hix _]. apply NoDup_Permutation.
  - apply NoDup_map_to_list.
  - apply NoDup_fmap_2_strong; [|done]. by intros a b _ _ [= _ ->].
  - intros [k a]. rewrite elem_of_map_to_list, Hix, list_elem_of_fmap. split.
    + intros [Ha <-]. by exists a.
    + intros (b & [= -> ->] & Hb). done.
Qed.

Theorem wf_consistent (c : Cache) : wf c -> consistent c.
Proof.
  intros [Hs Hsz]. pose proof (index_perm c Hs) as Hperm.
  split; [|split].
  - unfold index_sum. rewrite (sumZ_perm _ _ _ Hperm), Hsz. unfold total.
    apply (sumZ_map (fun ka : string * nat => Size (Value c ka.2))
                    (fun a => (Key (Value c a), a))).
  - simpl. f_equal. rewrite <- length_map_to_list, Hperm. by rewrite length_map.
  - apply NoDup_fmap_2_strong; [|apply Hs].
    intros a b Ha Hb Hk.
    assert (cache c !! Key (Value c a) = Some a) as E1
      by (by apply (shape_index c Hs)).
    assert (cache c !! Key (Value c a) = Some b) as E2
      by (by apply (shape_index c Hs)).
    congruence.
Qed.

(** *** Loading *)

Lemma validate_sublist `{EntryCodec} (lines : list string) (d : Dir) :
  (validate lines d).1 `sublist_of` omap json_decode lines.
Proof.
  revert d. induction lines as [|line rest IH]; intros d; simpl; [done|].
  destruct (json_decode line) as [e|]; [|apply IH].
  destruct (d !! Key e) as [file|]; [|apply sublist_cons, IH].
  destruct (negb _); [apply sublist_cons, IH|].
  specialize (IH d). destruct (validate rest d) as [es d']. simpl in *.
  by apply sublist_skip.
Qed.

Lemma validate_nonneg `{EntryCodec} (lines : list string) (d : Dir) (e : entry) :
  e ∈ (validate lines d).1 -> 0 <= Size e.
Proof.
  revert d. induction lines as [|line rest IH]; intros d; simpl.
  { by intros ?%elem_of_nil. }
  destruct (json_decode line) as [e'|]; [|apply IH].
  destruct (d !! Key e') as [file|]; [|apply IH].
  destruct (Z.eqb_spec (Z.of_nat (String.length file)) (Size e')) as [Hsz|];
    simpl; [|apply IH].
  specialize (IH d). destruct (validate rest d) as [es d']. simpl in *.
  intros [->|Hin]%elem_of_cons; [lia | by apply IH].
Qed.

Lemma sublist_map {A B} (f : A -> B) (l1 l2 : list A) :
  l1 `sublist_of` l2 -> map f l1 `sublist_of` map f l2.
Proof. induction 1; simpl; by constructor. Qed.

Lemma load_insert_eq (c : Cache) (e : entry) :
  load_insert c e =
    set_cache (<[Key e := (PushFront e c).2]> (cache (PushFront e c).1))
              (PushFront e c).1.
Proof. reflexivity. Qed.

(** The second loop of [load], on entries with distinct keys that are not
    in the index yet. *)
Lemma load_fold (es : list entry) (c : Cache) :
  shape c ->
  NoDup (map Key es) ->
  (forall e, e ∈ es -> cache c !! Key e = None /\ 0 <= Size e) ->
  let c' := fold_left load_insert es c in
  shape c' /\ total c' = total c + sumZ Size es /\
  size c' = size c /\ maxSize c' = maxSize c.
Proof.
  revert c. induction es as [|e es IH]; intros c Hs Hnd Hfree.
  { simpl. split; [done|]. split; [lia|done]. }
  apply NoDup_cons in Hnd as [Hnotin Hnd].
  destruct (Hfree e) as [Hnone Hnn]; [by left|].
  destruct (insert_shape c e Hs Hnone Hnn) as [Hs1 Ht1]. cbv zeta in Hs1, Ht1.
  rewrite <- load_insert_eq in Hs1, Ht1.
  assert (forall e', e' ∈ es ->
            cache (load_insert c e) !! Key e' = None /\ 0 <= Size e') as Hfree1.
  { intros e' Hin. destruct (Hfree e') as [Hn ?]; [by right|]. split; [|done].
    rewrite load_insert_eq. cbn [cache set_cache].
    rewrite lookup_insert_ne; [done|].
    intros Hk. apply Hnotin. rewrite Hk. apply list_elem_of_fmap. by exists e'. }
  destruct (IH (load_insert c e) Hs1 Hnd Hfree1) as (Hs' & Ht' & Hz' & Hm').
  cbn [fold_left]. split; [done|]. split; [|split].
  - rewrite Ht', Ht1. simpl. lia.
  - by rewrite Hz'.
  - by rewrite Hm'.
Qed.

Lemma fold_left_sum (es : list entry) (z : Z) :
  fold_left (fun t e => t + Size e) es z = z + sumZ Size es.
Proof.
  revert z. induction es as [|e es IH]; intros z; simpl; [lia|].
  rewrite IH. lia.
Qed.

Lemma empty_wf (m : Z) (dir : string) :
  wf (mkCache m 0 ∅ [] ∅ dir 0 0 0 0 false).
Proof.
  split; [|done].
  split; simpl; [constructor | by intros a Ha%elem_of_nil | | by intros a Ha%elem_of_nil].
  intros k a. rewrite lookup_empty. split; [done|]. by intros [Ha%elem_of_nil _].
Qed.

(** [load] into a well-formed cache without index entries, from a file in
    which no key comes twice. *)
Lemma load_wf `{EntryCodec} (fault : LoadFault) (c : Cache) (d : Dir) :
  wf c -> cache c = ∅ ->
  (forall file, d !! persistenceName = Some file ->
     NoDup (map Key (omap json_decode (ScanLines file)))) ->
  let c' := (load fault c d).1.2 in
  wf c' /\ maxSize c' = maxSize c.
Proof.
  intros [Hs Hsz] Hempty Hnd. unfold load, persistencePath.
  destruct (decide (cacheDir c = EmptyString)).
  { rewrite decide_True by done. by split. }
  rewrite decide_False by done.
  destruct (d !! persistenceName) as [file|] eqn:Hfile; [|by split].
  specialize (Hnd file eq_refl).
  destruct fault.
  - pose proof (validate_sublist (ScanLines file) d) as Hsub.
    pose proof (validate_nonneg (ScanLines file) d) as Hnn.
    destruct (validate (ScanLines file) d) as [es d']. simpl in Hsub, Hnn.
    destruct (load_fold es c Hs) as (Hs' & Ht' & Hz' & Hm').
    + eapply sublist_NoDup; [exact Hnd|]. by apply sublist_map.
    + intros e He. split; [by rewrite Hempty, lookup_empty | by apply Hnn].
    + cbn [fst snd]. split; [|exact Hm']. split.
      * by apply (shape_same (fold_left load_insert es c)).
      * rewrite (total_same (fold_left load_insert es c)) by done.
        cbn [size set_size]. rewrite fold_left_sum, Ht', Hz', Hsz. lia.
  - by split.
  - destruct (validate _ d) as [es d']. by split.
Qed.

(** A cache constructed over a persistence file in which no key comes
    twice is well-formed. *)
Theorem NewLRUCache_wf `{EntryCodec} maxSize cacheDir mkdirFails fault d c :
  (forall file, d !! persistenceName = Some file ->
     NoDup (map Key (omap json_decode (ScanLines file)))) ->
  (NewLRUCache maxSize cacheDir mkdirFails fault d).1 = Some c ->
  wf c /\ LRU.maxSize c = maxSize.
Proof.
  intros Hnd. unfold NewLRUCache.
  destruct (negb (String.eqb cacheDir EmptyString) && mkdirFails); [done|].
  pose proof (load_wf fault (mkCache maxSize 0 ∅ [] ∅ cacheDir 0 0 0 0 false) d
                (empty_wf maxSize cacheDir) eq_refl Hnd) as Hl.
  cbv zeta in Hl.
  destruct (load fault _ d) as [[err c'] d']. simpl in *.
  intros [= <-]. done.
Qed.

End InvariantFacts.

(** ** The blob cache: the size bound and the eviction *)

Module BoundFacts.
Import LRU Invariants InvariantFacts.
Import Terms Examples.

(** A [Put] that inserts, spelled out. *)
Lemma Put_inserts_eq key reader now c d :
  cacheDir c <> EmptyString ->
  (0 < maxSize c -> Z.of_nat (String.length reader) <= maxSize c) ->
  let ev := evictIfNeeded
              (putLocked key (Z.of_nat (String.length reader)) now c)
              (stored key reader d) in
  Put key reader (actualDigest reader) now PutOk c d
    = (None, set_persistDirty true ev.1, delete (tempName "blob-.tmp" d) ev.2).
Proof.
  intros Hdir Hfit. unfold Put, stored.
  destruct (decide (cacheDir c = EmptyString)); [done|].
  rewrite String.eqb_refl. cbn [negb].
  assert ((maxSize c >? 0) && (Z.of_nat (String.length reader) >? maxSize c)
          = false) as ->.
  { destruct (Z.gtb_spec (maxSize c) 0); [|done].
    destruct (Z.gtb_spec (Z.of_nat (String.length reader)) (maxSize c)); [lia|done]. }
  by destruct (evictIfNeeded _ _).
Qed.

Lemma deleteFiles_lookup (es : list entry) (d : Dir) (e : entry) :
  e ∈ es -> deleteFiles es d !! Key e = None.
Proof.
  unfold deleteFiles. revert d. induction es as [|x es IH]; intros d.
  { by intros ?%elem_of_nil. }
  simpl. intros [->|Hin]%elem_of_cons; [|by apply IH].
  clear IH. generalize (delete (Key x) d), (lookup_delete_eq d (Key x)).
  induction es as [|y es IH]; intros d' Hd'; simpl; [done|].
  apply IH. destruct (decide (Key y = Key x)) as [->|];
    [apply lookup_delete_eq | by rewrite lookup_delete_ne].
Qed.

(** After an insertion the eviction has taken elements off the back of
    the recency list, oldest first, deleted their files and counted them,
    until the size fits or nothing is left; the result obeys the bound
    whatever the cache was before. *)
Theorem insertion_evicts key reader now c d :
  wf c -> cacheDir c <> EmptyString ->
  (0 < maxSize c -> Z.of_nat (String.length reader) <= maxSize c) ->
  let r := Put key reader (actualDigest reader) now PutOk c d in
  let c1 := putLocked key (Z.of_nat (String.length reader)) now c in
  r.1.1 = None /\ wf r.1.2 /\ bounded r.1.2 /\
  exists victims,
    ll c1 = (ll r.1.2 ++ rev victims)%list /\
    evictions r.1.2 = evictions c + Z.of_nat (length victims) /\
    (forall v, v ∈ victims -> r.2 !! Key (Value c1 v) = None) /\
    (size c1 <= maxSize c -> victims = []).
Proof.
  intros Hwf Hdir Hfit r c1. unfold r.
  rewrite Put_inserts_eq by done. fold c1. cbn [fst snd].
  destruct (putLocked_wf key (Z.of_nat (String.length reader)) now c Hwf)
    as [Hwf1 Hmax1]; [lia|]. fold c1 in Hwf1, Hmax1.
  destruct (evictIfNeeded_spec c1 (stored key reader d) Hwf1)
    as (Hwf2 & Hmax2 & Hstop & _ & Hfits & victims & Hv1 & Hv2 & Hv3).
  set (ev := evictIfNeeded c1 (stored key reader d)) in *.
  split; [done|]. split; [same_index Hwf2|]. split.
  { intros Hpos Hne. cbn [maxSize size ll set_persistDirty] in *.
    rewrite Hmax2 in *. destruct (Hstop Hpos); done. }
  exists victims. split; [exact Hv1|]. split.
  { cbn [evictions set_persistDirty]. rewrite Hv3.
    unfold c1, putLocked. destruct (cache c !! key); [|done].
    cbn [evictions set_size set_Value set_elems].
    unfold MoveToFront. by destruct (decide _). }
  split.
  - intros v Hv.
    destruct (decide (tempName "blob-.tmp" d = Key (Value c1 v))) as [->|Hne].
    + apply lookup_delete_eq.
    + rewrite lookup_delete_ne by done. rewrite Hv2.
      apply (deleteFiles_lookup _ _ (Value c1 v)).
      apply list_elem_of_fmap. by exists v.
  - intros Hsz. rewrite Hmax1 in Hfits. specialize (Hfits Hsz).
    rewrite Hfits in Hv1. cbn [fst] in Hv1.
    apply (f_equal length) in Hv1. rewrite length_app, length_rev in Hv1.
    destruct victims; [done | simpl in Hv1; lia].
Qed.

(** Every operation other than the construction keeps the bound. *)
Theorem bound_kept `{EntryCodec} (c : Cache) (d : Dir) :
  wf c -> bounded c ->
  (forall key now, bounded (GetReader key now c d).2) /\
  (forall key reader expected now fault,
     bounded (Put key reader expected now fault c d).1.2) /\
  (forall key, bounded (Remove key c d).1) /\
  bounded (Clear c d).1 /\
  (forall now fault, bounded (Persist now fault c d).1.2).
Proof.
  intros Hwf Hb. repeat split.
  - intros key now. destruct (GetReader_wf key now c d Hwf) as (Hwf' & Hm & Hz).
    intros Hpos Hne. rewrite Hm in *.
    destruct (decide (ll c = [])) as [Hnil|Hnn]; [|specialize (Hb Hpos Hnn); lia].
    destruct Hwf as [_ Hsz]. rewrite (shape_ll_nil_total c Hnil) in Hsz. lia.
  - intros. by apply Put_bounded.
  - intros key. destruct (Remove_wf key c d Hwf) as (Hwf' & Hm & Hz).
    intros Hpos Hne. rewrite Hm in *.
    destruct (decide (ll c = [])) as [Hnil|Hnn]; [|specialize (Hb Hpos Hnn); lia].
    destruct Hwf as [_ Hsz]. rewrite (shape_ll_nil_total c Hnil) in Hsz. lia.
  - by intros _ Hne.
  - intros now fault.
    destruct (Persist_index now fault c d) as (_ & Hl & _ & Hz & Hm).
    intros Hpos Hne. rewrite Hl, Hz, Hm in *. by apply Hb.
Qed.

(** A cache whose maximum size is zero or negative never evicts, and no
    blob is too large for it. *)
Theorem unlimited_never_evicts key reader now c d :
  maxSize c <= 0 ->
  evictIfNeeded c d = (c, d) /\
  (cacheDir c <> EmptyString ->
   let r := Put key reader (actualDigest reader) now PutOk c d in
   r.1.1 = None /\
   r.1.2 = set_persistDirty true
             (putLocked key (Z.of_nat (String.length reader)) now c) /\
   evictions r.1.2 = evictions c).
Proof.
  intros Hmax.
  assert (forall c0 d0, maxSize c0 <= 0 -> evictIfNeeded c0 d0 = (c0, d0)) as Hev.
  { intros c0 d0 H0. unfold evictIfNeeded.
    by destruct (Z.leb_spec (maxSize c0) 0); [|lia]. }
  split; [by apply Hev|].
  intros Hdir r. unfold r. rewrite Put_inserts_eq by (done || lia).
  assert (maxSize (putLocked key (Z.of_nat (String.length reader)) now c)
          = maxSize c) as Hm.
  { unfold putLocked. destruct (cache c !! key); [|done].
    cbn [maxSize set_size set_Value set_elems]. apply maxSize_MoveToFront. }
  rewrite Hev by lia. cbn [fst snd].
  split; [done|]. split; [done|].
  cbn [evictions set_persistDirty]. unfold putLocked.
  destruct (cache c !! key); [|done].
  cbn [evictions set_size set_Value set_elems].
  unfold MoveToFront. by destruct (decide _).
Qed.

(** *** Construction does not evict *)

(** C3, on the code. A cache constructed with a maximum size of 10 over a
    directory that holds one persisted blob of 20 bytes loads the entry
    and evicts nothing: the size counter is 20 with one entry in the
    list, and it stays so through a later hit on the blob. *)
Theorem load_over_budget :
  NewLRUCache (H := JsonLines.codec) 10 "/var/cache/oci" false LoadOk
              over_budget_dir
    = (Some over_budget_cache, over_budget_dir) /\
  wf over_budget_cache /\
  maxSize over_budget_cache = 10 /\ size over_budget_cache = 20 /\
  Items (Stats over_budget_cache) = 1 /\ evictions over_budget_cache = 0 /\
  ~ bounded over_budget_cache /\
  (GetReader "A" 5 over_budget_cache over_budget_dir).1
    = Some ("abcdefghijklmnopqrst", 20) /\
  ~ bounded (GetReader "A" 5 over_budget_cache over_budget_dir).2.
Proof.
  split; [vm_compute; reflexivity|].
  split.
  { refine (proj1 (NewLRUCache_wf (H := JsonLines.codec) 10 "/var/cache/oci"
                     false LoadOk over_budget_dir over_budget_cache _ _)).
    - intros file Hfile. vm_compute in Hfile. injection Hfile as <-.
      vm_compute. repeat constructor. by intros ?%elem_of_nil.
    - vm_compute. reflexivity. }
  repeat split.
  - intros Hb. specialize (Hb ltac:(done) ltac:(done)). simpl in Hb. lia.
  - intros Hb. unfold bounded in Hb. vm_compute in Hb.
    specialize (Hb eq_refl ltac:(discriminate)). by apply Hb.
Qed.

End BoundFacts.

(** ** The blob cache: consistency of index, list and counter *)

Module ConsistencyFacts.
Import LRU Invariants InvariantFacts.
Import Terms Examples.

(** Every operation keeps the index, the recency list and the size
    counter consistent. *)
Theorem consistency_kept `{EntryCodec} (c : Cache) (d : Dir) :
  wf c ->
  consistent c /\
  (forall key now, consistent (GetReader key now c d).2) /\
  (forall key reader expected now fault,
     consistent (Put key reader expected now fault c d).1.2) /\
  (forall key, consistent (Remove key c d).1) /\
  consistent (Clear c d).1 /\
  (forall now fault, consistent (Persist now fault c d).1.2).
Proof.
  intros Hwf.
  split; [by apply wf_consistent|].
  split; [intros; apply wf_consistent; by apply GetReader_wf|].
  split; [intros; apply wf_consistent; by apply Put_wf|].
  split; [intros; apply wf_consistent; by apply Remove_wf|].
  split; [apply wf_consistent; apply Clear_wf|].
  intros now fault. apply wf_consistent.
  destruct (Persist_index now fault c d) as (He & Hl & Hc & Hz & _).
  by apply (wf_same c).
Qed.

(** The invariant, the consistency and the bound hold along every run
    that starts in a well-formed cache. *)
Lemma step_wf `{EntryCodec} (st : Cache * Dir) (o : Op) :
  wf st.1 -> wf (step st o).1.
Proof.
  intros Hwf. destruct o as [key now | key reader expected now fault | key | |
                             now fault]; cbn [step fst snd].
  - exact (proj1 (GetReader_wf key now st.1 st.2 Hwf)).
  - by apply Put_wf.
  - exact (proj1 (Remove_wf key st.1 st.2 Hwf)).
  - exact (proj1 (Clear_wf st.1 st.2)).
  - destruct (Persist_index now fault st.1 st.2) as (He & Hl & Hc & Hz & _).
    by apply (wf_same st.1).
Qed.

Lemma step_bounded `{EntryCodec} (st : Cache * Dir) (o : Op) :
  wf st.1 -> bounded st.1 -> bounded (step st o).1.
Proof.
  intros Hwf Hb.
  destruct (BoundFacts.bound_kept st.1 st.2 Hwf Hb) as (Hg & Hp & Hr & Hc & Hs).
  destruct o; cbn [step fst snd]; auto.
Qed.

(** X3. Along every run of lookups, inserts, removals, clears and
    persists, with any failures of the operating system, a well-formed
    cache stays well-formed; the sizes of the indexed entries add up to
    the size counter, the item count of [Stats] is the number of index
    entries and no key is on the recency list twice; and a cache that was
    within its maximum stays within it. *)
Theorem run_consistent `{EntryCodec} (ops : list Op) (st : Cache * Dir) :
  wf st.1 ->
  wf (run ops st).1 /\ consistent (run ops st).1 /\
  (bounded st.1 -> bounded (run ops st).1).
Proof.
  unfold run. revert st. induction ops as [|o ops IH]; intros st Hwf; simpl.
  - split; [done|]. split; [by apply wf_consistent | done].
  - destruct (IH (step st o) (step_wf st o Hwf)) as (Hw & Hc & Hb).
    split; [done|]. split; [done|].
    intros Hb0. apply Hb. by apply step_bounded.
Qed.

(** X4. A cache that [NewLRUCache] constructs over a persistence file in
    which no key comes twice is consistent: the sizes of the indexed
    entries add up to the size counter, the item count of [Stats] is the
    number of index entries and no key is on the recency list twice. *)
Theorem construction_consistent `{EntryCodec} maxSize cacheDir mkdirFails
    fault d c :
  (forall file, d !! persistenceName = Some file ->
     NoDup (map Key (omap json_decode (ScanLines file)))) ->
  (NewLRUCache maxSize cacheDir mkdirFails fault d).1 = Some c ->
  consistent c.
Proof.
  intros Hnd Hnew. apply wf_consistent.
  by apply (NewLRUCache_wf maxSize cacheDir mkdirFails fault d c).
Qed.

Lemma run_consistent_witness :
  let r := run (H := JsonLines.codec)
             [OpPut "A" "abcd" (actualDigest "abcd") 1 PutOk;
              OpGetReader "A" 2; OpPersist 3 PersistOk; OpRemove "A"]
             (fresh_cache, ∅) in
  wf r.1 /\ consistent r.1 /\ (bounded fresh_cache -> bounded r.1).
Proof.
  exact (run_consistent (H := JsonLines.codec)
           [OpPut "A" "abcd" (actualDigest "abcd") 1 PutOk;
            OpGetReader "A" 2; OpPersist 3 PersistOk; OpRemove "A"]
           (fresh_cache, ∅) (empty_wf 10 "/var/cache/oci")).
Defined.

Lemma construction_consistent_witness : consistent demo_loaded.
Proof.
  refine (construction_consistent (H := JsonLines.codec)
            (1024 * 1024 * 1024) "/var/cache/oci" false LoadOk
            (Middleware.dir_of demo_fs "/var/cache/oci") demo_loaded _ _).
  - intros file Hfile. vm_compute in Hfile. injection Hfile as <-.
    vm_compute. apply NoDup_singleton.
  - vm_compute. reflexivity.
Defined.

(** C7, on the code. [load] pushes one list element per valid line and
    indexes each under its key: with the key A on two lines, the list has
    two elements, the index has one entry, and the size counter counts the
    blob twice. *)
Theorem load_repeated_key :
  NewLRUCache (H := JsonLines.codec) 10 "/var/cache/oci" false LoadOk
              repeated_key_dir
    = (Some repeated_key_cache, repeated_key_dir) /\
  Items (Stats repeated_key_cache) = 2 /\
  base.size (cache repeated_key_cache) = 1%nat /\
  size repeated_key_cache = 8 /\
  index_sum repeated_key_cache = 4 /\
  ~ consistent repeated_key_cache.
Proof.
  split; [vm_compute; reflexivity|].
  split; [reflexivity|]. split; [vm_compute; reflexivity|].
  split; [reflexivity|]. split; [vm_compute; reflexivity|].
  intros (Hsum & _). vm_compute in Hsum. discriminate.
Qed.

End ConsistencyFacts.

(** ** The scenarios of the specification, run on the model *)

Module Scenarios.
Import LRU Terms Examples.

(** Three blobs of four bytes into a cache of ten: the first one is
    evicted, its file deleted, one eviction counted. *)
Example eviction_of_the_oldest :
  let st := put_blob "C" "cccc" 3
              (put_blob "B" "bbbb" 2 (put_blob "A" "aaaa" 1 (fresh_cache, ∅))) in
  Stats st.1 = mkStats 0 0 1 2 8 10 /\
  st.2 = {[ "B" := "bbbb"; "C" := "cccc" ]} /\
  cache st.1 !! "A" = None /\
  map (fun a => Key (Value st.1 a)) (ll st.1) = ["C"; "B"].
Proof. vm_compute. repeat split; reflexivity. Qed.

(** A hit makes an entry the most recent one: after a hit on the first
    blob it is the second blob that goes. *)
Example eviction_after_a_hit :
  let st := put_blob "C" "cccc" 4
              (hit_blob "A" 3
                 (put_blob "B" "bbbb" 2 (put_blob "A" "aaaa" 1 (fresh_cache, ∅)))) in
  Stats st.1 = mkStats 1 0 1 2 8 10 /\
  st.2 = {[ "A" := "aaaa"; "C" := "cccc" ]} /\
  map (fun a => Key (Value st.1 a)) (ll st.1) = ["C"; "A"].
Proof. vm_compute. repeat split; reflexivity. Qed.

(** A blob larger than the cache is not inserted and is no error. *)
Example too_large_is_skipped :
  Put "A" "abcdefghijklmnopqrst" (actualDigest "abcdefghijklmnopqrst") 1 PutOk
      fresh_cache ∅
    = (None, fresh_cache, ∅).
Proof. vm_compute. reflexivity. Qed.

(** What is persisted comes back in the same order after a restart. *)
Example persist_and_reload :
  let st := put_blob "B" "bbbb" 2 (put_blob "A" "aaaa" 1 (fresh_cache, ∅)) in
  let d := (Persist (H := JsonLines.codec) 3 PersistOk st.1 st.2).2 in
  let c := (NewLRUCache (H := JsonLines.codec) 10 "/var/cache/oci" false
                        LoadOk d).1 in
  option_map (fun c => map (fun a => Value c a) (ll c)) c
    = Some [Entry "B" 4 2; Entry "A" 4 1] /\
  option_map size c = Some 8.
Proof. vm_compute. repeat split; reflexivity. Qed.

End Scenarios.

Module EvictionFacts.
Import LRU Invariants InvariantFacts.
Import Terms Examples Examples2.

(** The temp name starts with its pattern. *)
Lemma tempName_prefix (pattern : string) (d : Dir) :
  exists suffix, tempName pattern d = pattern ++ suffix.
Proof.
  unfold tempName, fresh_string.
  destruct (d !! pattern) as [a|] eqn:Hs.
  2:{ exists EmptyString. clear. induction pattern as [|c p IH]; simpl; [done|]. by rewrite <- IH. }
  clear a Hs.
  generalize 0%N (wf_guard 32 (fresh_string_R_wf pattern d) 0%N).
  revert d. fix FIX 3. intros d n [?]; simpl. unfold fresh_string_go at 1; simpl.
  destruct (Some_dec (d !! _)) as [[??]|?]; eauto.
Qed.

(** One round of the eviction loop: the back element leaves the list and
    the index, the size counter loses its size, one eviction is counted. *)
Lemma evict_round (c : Cache) (l0 : list nat) (oldest : nat) :
  wf c -> ll c = (l0 ++ [oldest])%list ->
  let c2 := set_evictions (evictions (removeElementLocked c oldest).1 + 1)
                          (removeElementLocked c oldest).1 in
  wf c2 /\ ll c2 = l0 /\ elems c2 = elems c /\ maxSize c2 = maxSize c /\
  hits c2 = hits c /\ misses c2 = misses c /\
  cache c2 = delete (Key (Value c oldest)) (cache c).
Proof.
  intros [Hs Hsz] Hl0 c2.
  assert (oldest ∈ ll c) as Hin.
  { rewrite Hl0. apply elem_of_app. right. by apply list_elem_of_singleton. }
  destruct (remove_shape c oldest Hs Hin) as (Hkv & Hs1 & Ht1 & Hsz1 & Hll1).
  split; [|split; [|done]].
  - split; [by apply (shape_same (removeElementLocked c oldest).1)|].
    rewrite (total_same (removeElementLocked c oldest).1 c2) by done.
    change (size c2) with (size (removeElementLocked c oldest).1). lia.
  - change (ll c2) with (ll (removeElementLocked c oldest).1).
    rewrite Hll1, Hl0. apply unlink_last. rewrite <- Hl0. apply Hs.
Qed.

(** The loop spares the front of the list as long as it fits. *)
Lemma evict_loop_spares (fuel : nat) (c : Cache) (acc : list entry)
    (pre rest : list nat) :
  wf c -> ll c = (pre ++ rest)%list ->
  sumZ (fun a => Size (Value c a)) pre <= maxSize c ->
  let r := evict_loop fuel c acc in
  exists rest', ll r.1 = (pre ++ rest')%list /\ elems r.1 = elems c /\
    hits r.1 = hits c /\ misses r.1 = misses c /\
    forall a, a ∈ pre -> cache r.1 !! Key (Value c a) = Some a.
Proof.
  revert c acc rest. induction fuel as [|fuel IH]; intros c acc rest Hwf Hll Hfit.
  - simpl. exists rest. repeat split; try done.
    intros a Ha. apply (shape_index c (proj1 Hwf)). split; [|done].
    rewrite Hll. apply elem_of_app. by left.
  - cbv zeta. rewrite evict_loop_S.
    assert (forall a, a ∈ pre -> cache c !! Key (Value c a) = Some a) as Hidx.
    { intros a Ha. apply (shape_index c (proj1 Hwf)). split; [|done].
      rewrite Hll. apply elem_of_app. by left. }
    destruct (Z.gtb_spec (size c) (maxSize c)) as [Hgt|Hle].
    2:{ exists rest. repeat split; done. }
    destruct (decide (rest = [])) as [->|Hne].
    { exfalso. rewrite app_nil_r in Hll. destruct Hwf as [_ Hsz].
      unfold total in Hsz. rewrite Hll in Hsz. lia. }
    destruct (exists_last Hne) as (rest0 & oldest & ->).
    unfold Back. rewrite Hll, app_assoc, last_snoc.
    rewrite app_assoc in Hll.
    destruct (evict_round c _ oldest Hwf Hll) as (Hwf2 & Hl2 & He2 & Hm2 & Hh2 & Hmi2 & Hc2).
    cbv zeta in *.
    set (c2 := set_evictions _ _) in *.
    assert (forall a, Value c2 a = Value c a) as Hval.
    { intros a. unfold Value. by rewrite He2. }
    destruct (IH c2 (acc ++ [(removeElementLocked c oldest).2])%list rest0 Hwf2 Hl2)
      as (rest' & Hr1 & Hr2 & Hr3 & Hr4 & Hr5).
    { rewrite Hm2. erewrite sumZ_ext; [exact Hfit|]. intros a _. by rewrite Hval. }
    exists rest'. split; [exact Hr1|]. split; [by rewrite Hr2|].
    split; [by rewrite Hr3|]. split; [by rewrite Hr4|].
    intros a Ha. rewrite <- Hval. by apply Hr5.
Qed.

(** Well-formedness along a run, and of the caches of the examples. *)
Lemma run_wf `{EntryCodec} (ops : list Op) (st : Cache * Dir) :
  wf st.1 -> wf (run ops st).1.
Proof.
  unfold run. revert st. induction ops as [|o ops IH]; intros st Hwf; [done|].
  apply IH. by apply ConsistencyFacts.step_wf.
Qed.

Lemma demo_cache_wf : wf demo_cache.
Proof.
  assert (wf (run (H := JsonLines.codec)
                  [OpPut "A" "abcd" (actualDigest "abcd") 1 PutOk]
                  (fresh_cache, ∅)).1) as Hw
    by (apply run_wf, (empty_wf 10 "/var/cache/oci")).
  refine (wf_same _ demo_cache _ _ _ _ Hw); vm_compute; reflexivity.
Qed.

Lemma three_blobs_wf : wf three_blobs.
Proof.
  assert (wf (run (H := JsonLines.codec)
                  [OpPut "A" "aaaa" (actualDigest "aaaa") 1 PutOk;
                   OpPut "B" "bbbb" (actualDigest "bbbb") 2 PutOk;
                   OpPut "C" "cccc" (actualDigest "cccc") 3 PutOk]
                  (mkCache 20 0 ∅ [] ∅ "/var/cache/oci" 0 0 0 0 false, ∅)).1)
    as Hw by (apply run_wf, (empty_wf 20 "/var/cache/oci")).
  refine (wf_same _ three_blobs _ _ _ _ Hw); vm_compute; reflexivity.
Qed.

Lemma deleteFiles_lookup_ne (es : list entry) (d : Dir) (k : string) :
  (forall e, e ∈ es -> Key e <> k) -> deleteFiles es d !! k = d !! k.
Proof.
  unfold deleteFiles. revert d. induction es as [|x es IH]; intros d Hne; [done|].
  simpl. rewrite IH.
  - apply lookup_delete_ne. apply Hne. by left.
  - intros e He. apply Hne. by right.
Qed.

Lemma elem_of_rev {A} (x : A) (l : list A) : x ∈ rev l <-> x ∈ l.
Proof. rewrite rev_alt. apply elem_of_reverse. Qed.

(** What [evictIfNeeded] leaves: a front part of the list that fits the
    maximum stays where it is, with its entries, index slots and files. *)
Lemma evictIfNeeded_spares (c : Cache) (d : Dir) (pre rest : list nat) :
  wf c -> ll c = (pre ++ rest)%list ->
  (0 < maxSize c -> sumZ (fun a => Size (Value c a)) pre <= maxSize c) ->
  let r := evictIfNeeded c d in
  exists rest' gone,
    ll r.1 = (pre ++ rest')%list /\ rest = (rest' ++ gone)%list /\
    forall a, a ∈ pre ->
      Value r.1 a = Value c a /\
      cache r.1 !! Key (Value c a) = Some a /\
      r.2 !! Key (Value c a) = d !! Key (Value c a).
Proof.
  intros Hwf Hll Hfit r.
  destruct (evictIfNeeded_spec c d Hwf)
    as (Hwf' & _ & _ & Hunl & _ & victims & Hv1 & Hv2 & _).
  fold r in Hwf', Hunl, Hv1, Hv2.
  assert (forall a, a ∈ pre -> cache c !! Key (Value c a) = Some a) as Hidx.
  { intros a Ha. apply (shape_index c (proj1 Hwf)). split; [|done].
    rewrite Hll. apply elem_of_app. by left. }
  destruct (Z.le_gt_cases (maxSize c) 0) as [Hle|Hpos].
  { rewrite (Hunl Hle). exists rest, []. rewrite app_nil_r. repeat split; auto. }
  assert (exists rest', ll r.1 = (pre ++ rest')%list /\ elems r.1 = elems c /\
            forall a, a ∈ pre -> cache r.1 !! Key (Value c a) = Some a)
    as (rest' & Hr1 & Hr2 & Hr3).
  { unfold r, evictIfNeeded. destruct (Z.leb_spec (maxSize c) 0); [lia|].
    destruct (evict_loop_spares (length (ll c)) c [] pre rest Hwf Hll
                ltac:(lia)) as (rest' & H1 & H2 & _ & _ & H5).
    cbv zeta in *.
    destruct (evict_loop (length (ll c)) c []) as [c' out]. simpl in *. eauto. }
  exists rest', (rev victims).
  split; [exact Hr1|]. split.
  { rewrite Hll, Hr1, <- app_assoc in Hv1. by apply app_inv_head in Hv1. }
  intros a Ha. split; [unfold Value; by rewrite Hr2|]. split; [by apply Hr3|].
  rewrite Hv2. apply deleteFiles_lookup_ne.
  intros e He Hk. apply list_elem_of_fmap in He as (v & -> & Hv).
  assert (NoDup (ll c)) as Hnd by apply Hwf.
  rewrite Hv1, Hr1 in Hnd.
  apply NoDup_app in Hnd as (_ & Hdisj & _).
  apply (Hdisj a); [apply elem_of_app; by left | ].
  assert (v ∈ ll c) as Hvin.
  { rewrite Hv1. apply elem_of_app. right. by apply elem_of_rev. }
  assert (cache c !! Key (Value c v) = Some v) as E1
    by (by apply (shape_index c (proj1 Hwf))).
  rewrite Hk, (Hidx a Ha) in E1. injection E1 as ->. by apply elem_of_rev.
Qed.

(** X5. [evictIfNeeded] takes entries from the least recently used end of
    the list only, and never one of the most recently used entries whose
    sizes together fit the maximum: these keep their place at the front of
    the list, their entry, their index slot and their file. *)
Theorem eviction_spares_recent (c : Cache) (d : Dir) (pre rest : list nat) :
  wf c -> ll c = (pre ++ rest)%list ->
  (0 < maxSize c -> sumZ (fun a => Size (Value c a)) pre <= maxSize c) ->
  let r := evictIfNeeded c d in
  exists rest' gone,
    ll r.1 = (pre ++ rest')%list /\ rest = (rest' ++ gone)%list /\
    forall a, a ∈ pre ->
      Value r.1 a = Value c a /\
      cache r.1 !! Key (Value c a) = Some a /\
      r.2 !! Key (Value c a) = d !! Key (Value c a).
Proof. apply evictIfNeeded_spares. Qed.

(** The index update of [Put]: the entry of the key is at the front. *)
Lemma putLocked_front (key : string) (sz now : Z) (c : Cache) :
  wf c ->
  exists ee l, ll (putLocked key sz now c) = ee :: l /\
    Value (putLocked key sz now c) ee = Entry key sz now.
Proof.
  intros [Hs Hsz]. unfold putLocked.
  destruct (cache c !! key) as [ee|] eqn:Hlook.
  - destruct (index_in_list c key ee Hs Hlook) as [Hin Hkey].
    exists ee, (unlink ee (ll c)). rewrite Value_MoveToFront. split.
    + cbn [ll set_size set_Value set_elems]. unfold MoveToFront.
      by rewrite decide_True.
    + rewrite Hkey. unfold Value. cbn [elems set_size set_Value set_elems].
      by rewrite lookup_insert_eq.
  - exists (fresh (dom (elems c))), (ll c). split; [done|].
    unfold Value. simpl. by rewrite lookup_insert_eq.
Qed.

Lemma evict_loop_cacheDir (fuel : nat) (c : Cache) (acc : list entry) :
  cacheDir (evict_loop fuel c acc).1 = cacheDir c.
Proof.
  revert c acc. induction fuel as [|fuel IH]; intros c acc; [done|].
  rewrite evict_loop_S. destruct (size c >? maxSize c); [|done].
  destruct (Back c); [|done]. cbv zeta. by rewrite IH.
Qed.

Lemma evictIfNeeded_cacheDir (c : Cache) (d : Dir) :
  cacheDir (evictIfNeeded c d).1 = cacheDir c.
Proof.
  unfold evictIfNeeded. destruct (maxSize c <=? 0); [done|].
  pose proof (evict_loop_cacheDir (length (ll c)) c []) as H.
  by destruct (evict_loop _ c []).
Qed.

Lemma putLocked_cacheDir key sz now c :
  cacheDir (putLocked key sz now c) = cacheDir c.
Proof.
  unfold putLocked. destruct (cache c !! key); [|done].
  cbn [cacheDir set_size set_Value set_elems]. unfold MoveToFront.
  by destruct (decide _).
Qed.

(** What a [Put] that inserts leaves behind: the key is indexed, its entry
    has the size of the blob, its file has the bytes of the blob. *)
Lemma Put_stores key reader now c d :
  wf c -> cacheDir c <> EmptyString ->
  (0 < maxSize c -> Z.of_nat (String.length reader) <= maxSize c) ->
  key <> tempName "blob-.tmp" d ->
  let r := Put key reader (actualDigest reader) now PutOk c d in
  r.1.1 = None /\ wf r.1.2 /\ cacheDir r.1.2 = cacheDir c /\
  maxSize r.1.2 = maxSize c /\
  exists ee, cache r.1.2 !! key = Some ee /\
    Value r.1.2 ee = Entry key (Z.of_nat (String.length reader)) now /\
    r.2 !! key = Some reader.
Proof.
  intros Hwf Hdir Hfit Htmp r. unfold r.
  rewrite BoundFacts.Put_inserts_eq by done. cbn [fst snd].
  set (sz := Z.of_nat (String.length reader)).
  destruct (putLocked_wf key sz now c Hwf) as [Hwf1 Hmax1]; [lia|].
  destruct (putLocked_front key sz now c Hwf) as (ee & l & Hll & Hval).
  pose proof (putLocked_cacheDir key sz now c) as Hcd1.
  set (c1 := putLocked key sz now c) in *.
  destruct (evictIfNeeded_spares c1 (stored key reader d) [ee] l Hwf1 Hll)
    as (rest' & gone & Hr1 & _ & Hr).
  { simpl. rewrite Hval, Hmax1. simpl. intros Hpos. specialize (Hfit Hpos). lia. }
  destruct (evictIfNeeded_spec c1 (stored key reader d) Hwf1) as (Hwf2 & Hm2 & _).
  pose proof (evictIfNeeded_cacheDir c1 (stored key reader d)) as Hcd2.
  destruct (Hr ee ltac:(by left)) as (Hv & Hc & Hd).
  rewrite Hval in Hv, Hc, Hd. simpl in Hc, Hd.
  set (ev := evictIfNeeded c1 (stored key reader d)) in *.
  split; [done|]. split; [same_index Hwf2|].
  split; [cbn [cacheDir set_persistDirty]; by rewrite Hcd2|].
  split; [cbn [maxSize set_persistDirty]; by rewrite Hm2|].
  exists ee. split; [exact Hc|]. split; [exact Hv|].
  rewrite lookup_delete_ne by done. rewrite Hd. unfold stored.
  apply lookup_insert_eq.
Qed.

(** X6. Insert, then look up. A [Put] of a blob under the digest of its
    bytes, on a well-formed cache with a directory, with no failure of the
    operating system and a size that fits, returns no error; the
    [GetReader] of the key that follows is a hit that returns the bytes of
    the blob and their number. *)
Theorem Put_then_GetReader key reader now now' c d :
  wf c -> cacheDir c <> EmptyString ->
  (0 < maxSize c -> Z.of_nat (String.length reader) <= maxSize c) ->
  key <> tempName "blob-.tmp" d ->
  let r := Put key reader (actualDigest reader) now PutOk c d in
  r.1.1 = None /\
  (GetReader key now' r.1.2 r.2).1
    = Some (reader, Z.of_nat (String.length reader)).
Proof.
  intros Hwf Hdir Hfit Htmp r.
  destruct (Put_stores key reader now c d Hwf Hdir Hfit Htmp)
    as (Hnone & _ & _ & _ & ee & Hc & Hv & Hd).
  fold r in Hnone, Hc, Hv, Hd. split; [exact Hnone|].
  unfold GetReader. rewrite Hc, Hd. cbn [fst].
  by rewrite Value_MoveToFront, Hv.
Qed.

Lemma Put_then_GetReader_witness :
  (GetReader "B" 9
     (Put "B" "bbbb" (actualDigest "bbbb") 7 PutOk demo_cache demo_dir).1.2
     (Put "B" "bbbb" (actualDigest "bbbb") 7 PutOk demo_cache demo_dir).2).1
    = Some ("bbbb", 4).
Proof.
  refine (proj2 (Put_then_GetReader "B" "bbbb" 7 9 demo_cache demo_dir
                   demo_cache_wf _ _ _)).
  - discriminate.
  - vm_compute. discriminate.
  - vm_compute. discriminate.
Defined.

Lemma eviction_spares_recent_witness :
  let r := evictIfNeeded three_blobs ∅ in
  exists rest' gone,
    ll r.1 = ([2; 1]%nat ++ rest')%list /\ [0%nat] = (rest' ++ gone)%list.
Proof.
  destruct (eviction_spares_recent three_blobs ∅ [2; 1]%nat [0]%nat
              three_blobs_wf eq_refl) as (rest' & gone & H1 & H2 & _).
  - intros _. vm_compute. discriminate.
  - exists rest', gone. split; [exact H1 | exact H2].
Defined.

End EvictionFacts.

Module LookupFacts.
Import LRU Invariants InvariantFacts.
Import Terms Examples.

Lemma unlink_unlink (e : nat) (l : list nat) : unlink e (unlink e l) = unlink e l.
Proof.
  apply unlink_notin. unfold unlink. rewrite list_elem_of_filter. tauto.
Qed.

(** X7. A key that is indexed but whose file is gone from the directory:
    [GetReader] reports a miss and drops the entry from the index and the
    list, the size counter loses the size of the entry, and the cache
    stays well-formed. The dirty flag is not raised. *)
Theorem GetReader_missing_file key now c d ee :
  wf c -> cache c !! key = Some ee -> d !! key = None ->
  let r := GetReader key now c d in
  r.1 = None /\ wf r.2 /\
  cache r.2 = delete key (cache c) /\ ll r.2 = unlink ee (ll c) /\
  size r.2 = size c - Size (Value c ee) /\
  misses r.2 = misses c + 1 /\ hits r.2 = hits c /\
  persistDirty r.2 = persistDirty c.
Proof.
  intros Hwf Hlook Hfile r.
  pose proof (proj1 (GetReader_wf key now c d Hwf)) as Hwf'. cbv zeta in Hwf'.
  fold r in Hwf'.
  destruct (index_in_list c key ee (proj1 Hwf) Hlook) as [Hin Hkey].
  unfold r, GetReader in *. rewrite Hlook, Hfile in *.
  rewrite Value_MoveToFront in *.
  set (v := Entry (Key (Value c ee)) (Size (Value c ee)) now) in *.
  set (c2 := set_Value ee v (MoveToFront ee c)) in *.
  assert (cache c2 = cache c /\ size c2 = size c /\ misses c2 = misses c /\
          hits c2 = hits c /\ persistDirty c2 = persistDirty c /\
          ll c2 = ee :: unlink ee (ll c)) as (Hc2 & Hz2 & Hm2 & Hh2 & Hp2 & Hl2).
  { unfold c2, set_Value, MoveToFront. rewrite decide_True by done. done. }
  assert (Value c2 ee = v) as Hv.
  { unfold Value, c2, set_Value. cbn [elems set_elems].
    by rewrite lookup_insert_eq. }
  rewrite Hc2, Hlook in *. cbn [fst snd] in *.
  clearbody c2. split; [done|]. split; [exact Hwf'|].
  change (Value (ListRemove ee c2) ee) with (Value c2 ee) in *.
  unfold removeElementLocked, ListRemove.
  change (Value (set_ll (unlink ee (ll c2)) c2) ee) with (Value c2 ee).
  rewrite Hv. simpl. rewrite Hc2, Hl2, Hz2, Hm2, Hh2, Hp2, Hkey.
  repeat split.
  unfold unlink at 1.
  rewrite filter_cons, decide_False by (by intros ?). apply unlink_unlink.
Qed.

Lemma GetReader_missing_file_witness :
  let r := GetReader "A" 5 demo_cache ∅ in
  r.1 = None /\ cache r.2 = delete "A" (cache demo_cache) /\ size r.2 = 0.
Proof.
  destruct (GetReader_missing_file "A" 5 demo_cache ∅ 0%nat
              EvictionFacts.demo_cache_wf eq_refl (lookup_empty _))
    as (H1 & _ & H2 & _ & H3 & _).
  split; [exact H1|]. split; [exact H2 | exact H3].
Defined.

(** X8. [Remove] takes the key out of the index and the list, deletes its
    file and lowers the size counter by the size of the entry; the lookup
    that follows is a miss; the other keys and files are untouched. A key
    that is not indexed changes nothing, not even a file of that name. *)
Theorem Remove_then_miss key now c d :
  wf c ->
  let r := Remove key c d in
  wf r.1 /\ cache r.1 = delete key (cache c) /\
  (GetReader key now r.1 r.2).1 = None /\
  match cache c !! key with
  | Some ee =>
      r.2 = delete key d /\ ll r.1 = unlink ee (ll c) /\
      size r.1 = size c - Size (Value c ee) /\ persistDirty r.1 = true
  | None => r = (c, d)
  end.
Proof.
  intros Hwf r.
  pose proof (proj1 (Remove_wf key c d Hwf)) as Hwf'. cbv zeta in Hwf'.
  fold r in Hwf'. split; [exact Hwf'|].
  assert (cache r.1 = delete key (cache c)) as Hc.
  { unfold r, Remove. destruct (cache c !! key) as [ee|] eqn:Hlook.
    - destruct (index_in_list c key ee (proj1 Hwf) Hlook) as [Hin Hkey].
      cbn [fst]. unfold removeElementLocked.
      change (Value (ListRemove ee c) ee) with (Value c ee).
      rewrite Hkey. reflexivity.
    - cbn [fst]. symmetry. by apply delete_id. }
  split; [exact Hc|]. split.
  { unfold GetReader. rewrite Hc, lookup_delete_eq. reflexivity. }
  unfold r, Remove. destruct (cache c !! key) as [ee|] eqn:Hlook; [|done].
  destruct (index_in_list c key ee (proj1 Hwf) Hlook) as [Hin Hkey].
  repeat split.
Qed.

Lemma Remove_then_miss_witness :
  Remove "A" demo_cache demo_dir
    = (set_persistDirty true
         (mkCache 10 0 {[ 0%nat := Entry "A" 4 1 ]} [] ∅ "/var/cache/oci"
                  0 0 0 0 false), ∅) /\
  (GetReader "A" 5 (Remove "A" demo_cache demo_dir).1
             (Remove "A" demo_cache demo_dir).2).1 = None.
Proof.
  split; [vm_compute; reflexivity|].
  exact (proj1 (proj2 (proj2 (Remove_then_miss "A" 5 demo_cache demo_dir
                                  EvictionFacts.demo_cache_wf)))).
Defined.

(** The files [Clear] deletes are those of the indexed keys. *)
Lemma Clear_files (c : Cache) (d : Dir) (k : string) :
  (Clear c d).2 !! k = if cache c !! k is Some _ then None else d !! k.
Proof.
  unfold Clear. cbn [snd].
  induction (cache c) as [|key a m Hfresh Hfold IH] using map_first_key_ind.
  - by rewrite map_fold_empty, (lookup_empty (M:=gmap string) (A:=nat)).
  - rewrite map_fold_insert_first_key by done.
    destruct (decide (k = key)) as [->|Hne].
    + by rewrite lookup_delete_eq, lookup_insert_eq.
    + by rewrite lookup_delete_ne, lookup_insert_ne.
Qed.

(** X9. [Clear] empties the index and the list and zeroes the size counter,
    keeps the maximum and the three statistics counters, raises the dirty
    flag, and deletes exactly the files of the keys that were indexed:
    every other file of the directory, the persistence file among them,
    stays as it is. Every lookup that follows is a miss. *)
Theorem Clear_empties (c : Cache) (d : Dir) :
  let r := Clear c d in
  Stats r.1 = mkStats (hits c) (misses c) (evictions c) 0 0 (maxSize c) /\
  cache r.1 = ∅ /\ persistDirty r.1 = true /\ wf r.1 /\
  (forall k, r.2 !! k = if cache c !! k is Some _ then None else d !! k) /\
  (forall key now, (GetReader key now r.1 r.2).1 = None).
Proof.
  intros r. split; [done|]. split; [done|]. split; [done|].
  split; [apply Clear_wf|]. split; [apply Clear_files|].
  intros key now. unfold GetReader.
  change (cache r.1) with (∅ : gmap string nat). by rewrite lookup_empty.
Qed.

End LookupFacts.

(** ** The blob cache: statistics, and caches without a directory *)

Module StatsFacts.
Import LRU Invariants InvariantFacts RunTerms.
Import Terms Examples.

Lemma evict_loop_counters (fuel : nat) (c : Cache) (acc : list entry) :
  let r := evict_loop fuel c acc in
  hits r.1 = hits c /\ misses r.1 = misses c /\ evictions c <= evictions r.1.
Proof.
  revert c acc. induction fuel as [|fuel IH]; intros c acc; [simpl; lia|].
  cbv zeta. rewrite evict_loop_S. destruct (size c >? maxSize c); [|simpl; lia].
  destruct (Back c) as [oldest|]; [|simpl; lia]. cbv zeta.
  destruct (IH (set_evictions (evictions (removeElementLocked c oldest).1 + 1)
                              (removeElementLocked c oldest).1)
               (acc ++ [(removeElementLocked c oldest).2])%list) as (H1 & H2 & H3).
  rewrite H1, H2. split; [done|]. split; [done|].
  etrans; [|exact H3]. simpl. lia.
Qed.

Lemma putLocked_counters key sz now c :
  hits (putLocked key sz now c) = hits c /\
  misses (putLocked key sz now c) = misses c /\
  evictions (putLocked key sz now c) = evictions c.
Proof.
  unfold putLocked. destruct (cache c !! key); [|done].
  cbn [hits misses evictions set_size set_Value set_elems].
  unfold MoveToFront. by destruct (decide _).
Qed.

Lemma Put_counters key reader expected now fault c d :
  let c' := (Put key reader expected now fault c d).1.2 in
  hits c' = hits c /\ misses c' = misses c /\ evictions c <= evictions c'.
Proof.
  cbv zeta.
  destruct (Put_cases key reader expected now fault c d) as [-> | [d2 ->]];
    [lia|].
  destruct (putLocked_counters key (Z.of_nat (String.length reader)) now c)
    as (H1 & H2 & H3).
  set (c1 := putLocked _ _ _ c) in *.
  cbn [hits misses evictions set_persistDirty].
  unfold evictIfNeeded. destruct (maxSize c1 <=? 0); [simpl; lia|].
  pose proof (evict_loop_counters (length (ll c1)) c1 []) as H. cbv zeta in H.
  destruct (evict_loop _ c1 []) as [c2 out]. simpl in *. lia.
Qed.

Lemma GetReader_counters key now c d :
  let r := GetReader key now c d in
  evictions r.2 = evictions c /\
  if r.1 is Some _
  then hits r.2 = hits c + 1 /\ misses r.2 = misses c
  else hits r.2 = hits c /\ misses r.2 = misses c + 1.
Proof.
  unfold GetReader. destruct (cache c !! key) as [ee|] eqn:Hlook; [|done].
  set (c2 := set_Value ee _ (MoveToFront ee c)).
  assert (hits c2 = hits c /\ misses c2 = misses c /\ evictions c2 = evictions c
          /\ cache c2 = cache c) as (Hh & Hm & He & Hc).
  { unfold c2, set_Value, MoveToFront. by destruct (decide _). }
  destruct (d !! key) as [file|]; cbn [fst snd].
  - cbn [hits misses evictions set_persistDirty set_hits]. by rewrite Hh, Hm, He.
  - rewrite Hc, Hlook. cbn [hits misses evictions set_misses]. 
    unfold removeElementLocked. cbn [fst hits misses evictions set_size set_cache
      ListRemove set_ll]. by rewrite Hh, Hm, He.
Qed.

Lemma step_counters `{EntryCodec} (st : Cache * Dir) (o : Op) :
  hits (step st o).1 + misses (step st o).1
    = hits st.1 + misses st.1 + lookups [o] /\
  hits st.1 <= hits (step st o).1 /\ misses st.1 <= misses (step st o).1 /\
  evictions st.1 <= evictions (step st o).1.
Proof.
  destruct o as [key now | key reader expected now fault | key | | now fault];
    cbn [step fst snd lookups sumZ foldr].
  - pose proof (GetReader_counters key now st.1 st.2) as [He Hc]. cbv zeta in *.
    destruct (GetReader key now st.1 st.2).1; lia.
  - pose proof (Put_counters key reader expected now fault st.1 st.2) as Hc.
    cbv zeta in Hc. lia.
  - unfold Remove. destruct (cache st.1 !! key); simpl; lia.
  - simpl. lia.
  - unfold Persist. destruct (negb _); [simpl; lia|].
    destruct (decide _); [simpl; lia|]. destruct fault; simpl; lia.
Qed.

(** X10. The statistics count every lookup once: a [GetReader] that returns
    a file adds one to the hits and nothing to the misses, one that returns
    nothing adds one to the misses and nothing to the hits; no other
    operation touches the two counters. Along every run the sum of hits
    and misses grows by the number of lookups, and no counter ever goes
    down. *)
Theorem lookups_are_counted `{EntryCodec} (ops : list Op) (st : Cache * Dir) :
  (forall key now,
     let r := GetReader key now st.1 st.2 in
     if r.1 is Some _
     then hits r.2 = hits st.1 + 1 /\ misses r.2 = misses st.1
     else hits r.2 = hits st.1 /\ misses r.2 = misses st.1 + 1) /\
  hits (run ops st).1 + misses (run ops st).1
    = hits st.1 + misses st.1 + lookups ops /\
  hits st.1 <= hits (run ops st).1 /\ misses st.1 <= misses (run ops st).1 /\
  evictions st.1 <= evictions (run ops st).1.
Proof.
  split; [intros key now; apply GetReader_counters|].
  unfold run. revert st. induction ops as [|o ops IH]; intros st.
  - simpl. unfold lookups. simpl. lia.
  - cbn [fold_left]. specialize (IH (step st o)).
    pose proof (step_counters st o) as Hs.
    assert (lookups (o :: ops) = lookups [o] + lookups ops) as ->
      by (unfold lookups; simpl; lia).
    lia.
Qed.

(** X11. A cache without a directory caches nothing. Constructing it cannot
    fail; along every run that starts from it the index and the list stay
    empty, no file of the directory is written or removed, every [Put]
    leaves the cache as it is and every lookup is a miss. *)
Theorem no_directory_no_cache `{EntryCodec} (maxSize : Z) (mkdirFails : bool)
    (fault : LoadFault) (d : Dir) (ops : list Op) :
  NewLRUCache maxSize EmptyString mkdirFails fault d
    = (Some (emptyCache maxSize EmptyString), d) /\
  let r := run ops (emptyCache maxSize EmptyString, d) in
  r.2 = d /\ cache r.1 = ∅ /\ ll r.1 = [] /\ size r.1 = 0 /\
  (forall key reader expected now pf,
     (Put key reader expected now pf r.1 r.2).1.2 = r.1 /\
     (Put key reader expected now pf r.1 r.2).2 = r.2) /\
  (forall key now, (GetReader key now r.1 r.2).1 = None).
Proof.
  split; [reflexivity|].
  assert (forall st : Cache * Dir,
            cacheDir st.1 = EmptyString /\ cache st.1 = ∅ /\ ll st.1 = [] /\
            size st.1 = 0 /\ st.2 = d ->
            let r := run ops st in
            cacheDir r.1 = EmptyString /\ cache r.1 = ∅ /\ ll r.1 = [] /\
            size r.1 = 0 /\ r.2 = d) as Hrun.
  { unfold run. induction ops as [|o ops IH]; intros st Hst; [exact Hst|].
    cbn [fold_left]. apply IH. destruct Hst as (Hdir & Hc & Hl & Hz & Hd).
    destruct o as [key now | key reader expected now pf | key | | now pf];
      cbn [step fst snd].
    - unfold GetReader. rewrite Hc, lookup_empty. done.
    - unfold Put. rewrite decide_True by done. by destruct pf.
    - unfold Remove. rewrite Hc, lookup_empty. done.
    - unfold Clear. cbn [fst snd]. rewrite Hc, map_fold_empty. done.
    - rewrite CacheFacts.Persist_no_dir by done. done. }
  specialize (Hrun (emptyCache maxSize EmptyString, d)
                ltac:(repeat split; reflexivity)).
  cbv zeta in *. destruct Hrun as (Hdir & Hc & Hl & Hz & Hd).
  split; [exact Hd|]. split; [exact Hc|]. split; [exact Hl|]. split; [exact Hz|].
  split.
  - intros key reader expected now pf. unfold Put.
    rewrite decide_True by done. by destruct pf.
  - intros key now. unfold GetReader. by rewrite Hc, lookup_empty.
Qed.

End StatsFacts.

(** ** The blob cache: what is persisted comes back *)

Module ReloadFacts.
Import GoStrings LRU Invariants InvariantFacts RunTerms PathFacts.
Import Terms Examples.

Lemma last_byte_rev (s : string) :
  last_byte s = head (rev (list_ascii_of_string s)).
Proof.
  induction s as [|c s IH]; [done|].
  cbn [list_ascii_of_string rev]. destruct s as [|b s]; [done|].
  change (last_byte (String c (String b s))) with (last_byte (String b s)).
  rewrite IH. cbn [list_ascii_of_string rev].
  by destruct (rev (list_ascii_of_string s)).
Qed.

Lemma drop_cr_id (line : string) :
  last_byte line <> Some (ascii_of_nat 13) -> drop_cr line = line.
Proof.
  rewrite last_byte_rev. unfold drop_cr.
  destruct (rev (list_ascii_of_string line)) as [|c rest]; [done|].
  simpl. intros Hc. destruct (Ascii.eqb_spec c (ascii_of_nat 13)) as [->|]; done.
Qed.

Lemma Split_lines `{EntryCodec} (es : list entry) :
  Forall line_ok es ->
  Split (encode_entries es) (ascii_of_nat 10)
    = (map json_encode es ++ [EmptyString])%list.
Proof.
  induction 1 as [|e es (_ & Hlf & _) _ IH]; [done|].
  cbn [encode_entries fold_right map app].
  change (json_encode e ++ newline ++ fold_right
            (fun e acc => json_encode e ++ newline ++ acc) EmptyString es)
    with (json_encode e ++ String (ascii_of_nat 10) (encode_entries es)).
  rewrite Split_app by done. by rewrite IH.
Qed.

(** The scanner gives back the lines that [Persist] wrote. *)
Lemma ScanLines_encode `{EntryCodec} (es : list entry) :
  Forall line_ok es -> ScanLines (encode_entries es) = map json_encode es.
Proof.
  intros Hok. unfold ScanLines. rewrite (Split_lines es Hok).
  unfold drop_last_empty. rewrite rev_app_distr. cbn [rev app].
  rewrite rev_involutive.
  induction Hok as [|e es (_ & _ & Hcr) _ IH]; [done|].
  cbn [map]. by rewrite IH, drop_cr_id.
Qed.

Lemma tempName_persistence (d : Dir) :
  tempName ".lru_persistence..tmp" d <> persistenceName.
Proof.
  destruct (EvictionFacts.tempName_prefix ".lru_persistence..tmp" d) as [s ->].
  unfold persistenceName. simpl. discriminate.
Qed.

(** The directory after a [Persist] that wrote the file. *)
Lemma Persist_writes `{EntryCodec} now c d :
  cacheDir c <> EmptyString -> persistDirty c = true ->
  Persist now PersistOk c d
    = (None, set_lastPersist now (set_persistDirty false c),
       <[persistenceName := encode_entries (map (Value c) (rev (ll c)))]> d).
Proof.
  intros Hdir Hdirty. unfold Persist, persistencePath. rewrite Hdirty.
  cbn [negb]. rewrite (decide_False (P := cacheDir c = EmptyString)) by done.
  rewrite (decide_False (P := persistenceName = EmptyString)) by done.
  rewrite CacheFacts.temp_discarded.
  rewrite delete_insert_ne by apply tempName_persistence.
  by rewrite delete_id by apply CacheFacts.tempName_fresh.
Qed.

Lemma validate_all `{EntryCodec} (es : list entry) (d : Dir) :
  Forall line_ok es -> Forall (has_file d) es ->
  validate (map json_encode es) d = (es, d).
Proof.
  induction 1 as [|e es (Hdec & _) _ IH]; [done|].
  intros [(file & Hfile & Hsz) Hrest]%Forall_cons.
  cbn [map validate]. rewrite Hdec, Hfile.
  rewrite (proj2 (Z.eqb_eq _ _) Hsz). cbn [negb]. by rewrite IH.
Qed.

(** The second loop of [load]: the entries come to the front of the list
    one after the other, so the last one loaded is the most recent. *)
Lemma load_entries (es : list entry) (c : Cache) :
  (forall a, a ∈ ll c -> is_Some (elems c !! a)) ->
  let c' := fold_left load_insert es c in
  entries c' = (rev es ++ entries c)%list /\
  size c' = size c /\ maxSize c' = maxSize c /\ cacheDir c' = cacheDir c.
Proof.
  revert c. induction es as [|e es IH]; intros c Halloc; [done|].
  cbn [fold_left rev].
  assert (fresh (dom (elems c)) ∉ ll c) as Hfresh.
  { intros Hin. apply Halloc, elem_of_dom in Hin. by apply is_fresh in Hin. }
  assert (entries (load_insert c e) = e :: entries c) as He.
  { unfold entries, load_insert, PushFront. cbn [ll set_cache set_ll set_elems map].
    f_equal.
    - unfold Value. cbn [elems set_cache set_ll set_elems]. by rewrite lookup_insert_eq.
    - apply map_ext_in. intros a Ha%list_elem_of_In. unfold Value.
      cbn [elems set_cache set_ll set_elems].
      rewrite lookup_insert_ne; [done|]. by intros <-. }
  destruct (IH (load_insert c e)) as (H1 & H2 & H3 & H4).
  { intros a. unfold load_insert, PushFront.
    cbn [ll elems set_cache set_ll set_elems].
    intros [->|Ha]%elem_of_cons.
    - rewrite lookup_insert_eq. eauto.
    - destruct (decide (a = fresh (dom (elems c)))) as [->|]; [done|].
      rewrite lookup_insert_ne by done. by apply Halloc. }
  cbv zeta in *. rewrite H1, H2, H3, H4, He, <- app_assoc. done.
Qed.

Lemma sumZ_rev {A} (f : A -> Z) (l : list A) : sumZ f (rev l) = sumZ f l.
Proof. apply sumZ_perm. rewrite rev_alt. apply reverse_Permutation. Qed.

Lemma NoDup_rev' {A} (l : list A) : NoDup l -> NoDup (rev l).
Proof.
  intros Hl. rewrite rev_alt. change (NoDup (reverse l)).
  by rewrite reverse_Permutation.
Qed.

Lemma omap_decode_encode `{EntryCodec} (es : list entry) :
  Forall line_ok es -> omap json_decode (map json_encode es) = es.
Proof.
  induction 1 as [|e es (Hdec & _) _ IH]; [done|].
  simpl. rewrite Hdec. simpl. f_equal. exact IH.
Qed.

(** X12. Persist, then restart. A well-formed cache with a directory and
    unsaved changes, whose entries survive the persistence file and have
    their files, none of them under the name of the persistence file, is
    written by [Persist] with no error; [NewLRUCache] over the directory
    that results gives a well-formed cache with the same entries in the
    same order and the same size counter, and removes no file. *)
Theorem persist_then_load `{EntryCodec} (now : Z) (c : Cache) (d : Dir) :
  wf c -> cacheDir c <> EmptyString -> persistDirty c = true ->
  Forall line_ok (entries c) ->
  Forall (fun e => Key e <> persistenceName /\ has_file d e) (entries c) ->
  let p := Persist now PersistOk c d in
  p.1.1 = None /\
  exists c',
    NewLRUCache (maxSize c) (cacheDir c) false LoadOk p.2 = (Some c', p.2) /\
    entries c' = entries c /\ size c' = size c /\ wf c'.
Proof.
  intros Hwf Hdir Hdirty Hok Hfiles p. unfold p.
  rewrite Persist_writes by done. cbn [fst snd]. split; [done|].
  set (es := map (Value c) (rev (ll c))).
  assert (es = rev (entries c)) as Hes by (unfold es, entries; apply map_rev).
  assert (Forall line_ok es) as Hok'.
  { rewrite Hes, rev_alt. by apply Forall_reverse. }
  set (d1 := <[persistenceName := encode_entries es]> d).
  assert (Forall (has_file d1) es) as Hfiles'.
  { rewrite Hes, rev_alt. apply Forall_reverse.
    eapply Forall_impl; [exact Hfiles|].
    intros e (Hne & file & Hfile & Hsz). exists file. split; [|done].
    unfold d1. by rewrite lookup_insert_ne. }
  assert (NewLRUCache (maxSize c) (cacheDir c) false LoadOk d1
          = (Some (set_size (0 + fold_left (fun t e => t + Size e) es 0)
                     (fold_left load_insert es
                        (emptyCache (maxSize c) (cacheDir c)))), d1)) as Hnew.
  { unfold NewLRUCache. rewrite andb_false_r.
    unfold load, persistencePath. cbn [cacheDir].
    rewrite (decide_False (P := cacheDir c = EmptyString)) by done.
    rewrite (decide_False (P := persistenceName = EmptyString)) by done.
    unfold d1 at 1. rewrite lookup_insert_eq.
    rewrite ScanLines_encode by done. rewrite validate_all by done.
    destruct (load_entries es (emptyCache (maxSize c) (cacheDir c)))
      as (_ & Hz & _); [by intros a Ha%elem_of_nil|].
    cbv zeta in Hz. unfold emptyCache in *. by rewrite Hz. }
  eexists. split; [exact Hnew|].
  destruct (load_entries es (emptyCache (maxSize c) (cacheDir c)))
    as (He & Hz & Hm & _); [by intros a Ha%elem_of_nil|]. cbv zeta in He.
  split; [|split].
  - change (entries (set_size ?z ?c0)) with (entries c0).
    rewrite He, Hes, rev_involutive. apply app_nil_r.
  - cbn [size set_size]. rewrite fold_left_sum, Hes, sumZ_rev.
    destruct Hwf as [_ ->]. unfold total, entries.
    rewrite (sumZ_map Size (Value c)). lia.
  - refine (proj1 (NewLRUCache_wf (maxSize c) (cacheDir c) false LoadOk d1 _ _ _)).
    + intros file. unfold d1. rewrite lookup_insert_eq. intros [= <-].
      rewrite ScanLines_encode, omap_decode_encode by done.
      rewrite Hes, map_rev. apply NoDup_rev'.
      unfold entries. rewrite map_map. apply (wf_consistent c Hwf).
    + by rewrite Hnew.
Qed.

Lemma persist_then_load_witness :
  let c := set_persistDirty true demo_cache in
  let p := Persist (H := JsonLines.codec) 9 PersistOk c demo_dir in
  exists c',
    NewLRUCache (H := JsonLines.codec) 10 "/var/cache/oci" false LoadOk p.2
      = (Some c', p.2) /\
    entries c' = [Entry "A" 4 1] /\ size c' = 4.
Proof.
  intros c p.
  destruct (persist_then_load (H := JsonLines.codec) 9 c demo_dir)
    as (_ & c' & H1 & H2 & H3 & _).
  - refine (wf_same demo_cache c _ _ _ _ EvictionFacts.demo_cache_wf);
      reflexivity.
  - discriminate.
  - reflexivity.
  - repeat constructor; vm_compute; congruence.
  - repeat constructor; [vm_compute; congruence|].
    exists "abcd". split; vm_compute; reflexivity.
  - exists c'. split; [exact H1|]. split; [exact H2 | exact H3].
Defined.

(** The first loop of [load], on lines with distinct keys: every entry it
    keeps has its file, with the size the entry says, in the directory it
    leaves, and it touches no file but those named on the lines. *)
Lemma validate_has_file `{EntryCodec} (lines : list string) (d : Dir) :
  NoDup (map Key (omap json_decode lines)) ->
  Forall (has_file (validate lines d).2) (validate lines d).1 /\
  forall k, k ∉ map Key (omap json_decode lines) ->
            (validate lines d).2 !! k = d !! k.
Proof.
  revert d. induction lines as [|line rest IH]; intros d Hnd.
  { split; [constructor | done]. }
  cbn [validate]. simpl in Hnd.
  destruct (json_decode line) as [e|] eqn:Hdec; simpl in Hnd |- *;
    rewrite ?Hdec; [|by apply IH].
  apply NoDup_cons in Hnd as [Hnotin Hnd].
  assert (forall d0 k, k ∉ Key e :: map Key (omap json_decode rest) ->
            (validate rest d0).2 !! k = d0 !! k) as Hrest.
  { intros d0 k [_ Hk]%not_elem_of_cons. by apply (IH d0 Hnd). }
  destruct (d !! Key e) as [file|] eqn:Hfile.
  2:{ split; [by apply IH | apply Hrest]. }
  destruct (Z.eqb_spec (Z.of_nat (String.length file)) (Size e)) as [Hsz|Hsz];
    cbn [negb].
  - destruct (IH d Hnd) as [Hall Hkeep].
    destruct (validate rest d) as [es d'] eqn:Hv. cbn [fst snd] in *.
    split.
    + constructor; [|done]. exists file. split; [|done].
      by rewrite (Hkeep _ Hnotin).
    + intros k [_ Hk]%not_elem_of_cons. by apply Hkeep.
  - split; [by apply IH|].
    intros k Hk. rewrite (proj2 (IH (delete (Key e) d) Hnd)).
    + apply lookup_delete_ne. apply not_elem_of_cons in Hk as [Hk _]. congruence.
    + by apply not_elem_of_cons in Hk as [_ Hk].
Qed.

(** X13. What [NewLRUCache] loads has its files. When the persistence
    file is read without a failure and no key comes twice in it, every
    entry of the cache that is constructed has
    a file under its key in the directory as the construction leaves it,
    and the file holds as many bytes as the entry says; the construction
    touches no file other than those named in the persistence file. *)
Theorem loaded_entries_have_files `{EntryCodec} maxSize cacheDir mkdirFails
    d c d' :
  (forall file, d !! persistenceName = Some file ->
     NoDup (map Key (omap json_decode (ScanLines file)))) ->
  NewLRUCache maxSize cacheDir mkdirFails LoadOk d = (Some c, d') ->
  Forall (has_file d') (entries c) /\
  (forall file k, d !! persistenceName = Some file ->
     k ∉ map Key (omap json_decode (ScanLines file)) -> d' !! k = d !! k) /\
  (d !! persistenceName = None -> d' = d).
Proof.
  intros Hnd. unfold NewLRUCache.
  destruct (negb (String.eqb cacheDir EmptyString) && mkdirFails); [done|].
  unfold load, persistencePath. cbn [LRU.cacheDir].
  destruct (decide (cacheDir = EmptyString)) as [Hno|Hdir].
  { rewrite decide_True by done. intros [= <- <-].
    split; [constructor|]. split; done. }
  rewrite (decide_False (P := persistenceName = EmptyString)) by done.
  destruct (d !! persistenceName) as [file|] eqn:Hfile.
  2:{ intros [= <- <-]. split; [constructor|]. split; done. }
  specialize (Hnd file eq_refl).
  destruct (validate_has_file (ScanLines file) d Hnd) as [Hall Hkeep].
  destruct (validate (ScanLines file) d) as [es d1] eqn:Hv. cbn [fst snd] in *.
  intros [= <- <-].
  destruct (load_entries es (emptyCache maxSize cacheDir)) as (He & _);
    [by intros a Ha%elem_of_nil|]. cbv zeta in He.
  split; [|split].
  - change (entries (set_size ?z ?c0)) with (entries c0).
    unfold emptyCache in He. rewrite He, app_nil_r, rev_alt.
    by apply Forall_reverse.
  - intros file' k [= <-]. apply Hkeep.
  - done.
Qed.

Lemma loaded_entries_have_files_witness :
  exists c,
    NewLRUCache (H := JsonLines.codec) 10 "/var/cache/oci" false LoadOk
                over_budget_dir = (Some c, over_budget_dir) /\
    Forall (has_file over_budget_dir) (entries c).
Proof.
  exists over_budget_cache.
  assert (NewLRUCache (H := JsonLines.codec) 10 "/var/cache/oci" false LoadOk
            over_budget_dir = (Some over_budget_cache, over_budget_dir)) as E
    by (vm_compute; reflexivity).
  split; [exact E|].
  refine (proj1 (loaded_entries_have_files (H := JsonLines.codec) 10
                   "/var/cache/oci" false over_budget_dir over_budget_cache
                   over_budget_dir _ E)).
  intros file Hfile. vm_compute in Hfile. injection Hfile as <-.
  vm_compute. repeat constructor. by intros ?%elem_of_nil.
Defined.

End ReloadFacts.

(** ** The blob cache: edges of [Put] and of the construction *)

Module EdgeFacts.
Import LRU Invariants InvariantFacts RunTerms.
Import Terms Examples.

(** X14. A blob larger than the whole cache is not an error and is not
    cached: on a cache with a directory and a positive maximum, a [Put]
    with the right digest of a blob longer than the maximum returns no
    error and leaves the cache and the directory as they were; nothing is
    evicted for it and the dirty flag is not raised. *)
Theorem Put_too_large_is_skipped key reader now fault c d :
  cacheDir c <> EmptyString ->
  0 < maxSize c -> maxSize c < Z.of_nat (String.length reader) ->
  fault = PutOk \/ fault = RenameFails ->
  Put key reader (actualDigest reader) now fault c d = (None, c, d).
Proof.
  intros Hdir Hpos Hbig Hfault. unfold Put.
  destruct (decide (cacheDir c = EmptyString)) as [|_]; [done|].
  rewrite String.eqb_refl. cbn [negb].
  destruct (Z.gtb_spec (maxSize c) 0); [|lia].
  destruct (Z.gtb_spec (Z.of_nat (String.length reader)) (maxSize c)); [|lia].
  cbn [andb]. destruct Hfault as [-> | ->]; by rewrite CacheFacts.temp_discarded.
Qed.

Lemma Put_too_large_is_skipped_witness :
  Put "B" "abcdefghijklmnopqrst" (actualDigest "abcdefghijklmnopqrst") 7 PutOk
      demo_cache demo_dir
    = (None, demo_cache, demo_dir).
Proof.
  apply Put_too_large_is_skipped.
  - discriminate.
  - reflexivity.
  - reflexivity.
  - by left.
Defined.

(** X15. [NewLRUCache] fails only when a cache directory is asked for and
    cannot be created, and then touches no file. A persistence file that
    cannot be opened or scanned is no error: the cache starts empty, as it
    does when there is no persistence file. *)
Theorem NewLRUCache_fails_only_on_mkdir `{EntryCodec} maxSize cacheDir
    mkdirFails fault d :
  let r := NewLRUCache maxSize cacheDir mkdirFails fault d in
  (r.1 = None <-> cacheDir <> EmptyString /\ mkdirFails = true) /\
  (r.1 = None -> r.2 = d) /\
  (fault <> LoadOk \/ d !! persistenceName = None ->
   forall c, r.1 = Some c -> c = emptyCache maxSize cacheDir).
Proof.
  intros r. unfold r, NewLRUCache.
  destruct (String.eqb_spec cacheDir EmptyString) as [Hno|Hdir]; cbn [negb andb].
  - subst cacheDir. split; [split; [done | by intros [? _]]|].
    split; [done|]. intros _ c [= <-]. reflexivity.
  - destruct mkdirFails.
    { split; [done|]. split; [done|]. by intros _ c. }
    assert (forall x, (let '(_, c', d') := x : option LoadError * Cache * Dir in
                       (Some c', d')).1 = Some x.1.2) as Hproj
      by (by intros [[? ?] ?]).
    rewrite !Hproj. split; [split; [done | by intros [_ ?]]|].
    split; [done|]. intros Hempty c [= <-].
    unfold load, persistencePath. cbn [LRU.cacheDir].
    rewrite (decide_False (P := cacheDir = EmptyString)) by done.
    rewrite (decide_False (P := persistenceName = EmptyString)) by done.
    destruct (d !! persistenceName) as [file|]; [|done].
    destruct Hempty as [Hf|]; [|done].
    destruct fault; [done | done |].
    by destruct (validate _ d).
Qed.

End EdgeFacts.

(** ** The blob cache: entries and their files *)

Module BackingFacts.
Import GoStrings LRU Invariants InvariantFacts RunTerms.
Import Terms Examples.

Lemma HasPrefix_app (p s : string) : HasPrefix (p ++ s) p = true.
Proof.
  induction p as [|c p IH]; simpl; [by destruct s|]. by rewrite Ascii.eqb_refl.
Qed.

Lemma plain_key_not_temp (key : string) (d : Dir) :
  plain_key key -> key <> tempName "blob-.tmp" d.
Proof.
  intros [Hp _] ->.
  destruct (EvictionFacts.tempName_prefix "blob-.tmp" d) as [s E].
  rewrite E, HasPrefix_app in Hp. discriminate.
Qed.

(** A digest is a plain key. *)
Lemma digest_plain (data : string) : plain_key (actualDigest data).
Proof. split; [reflexivity | discriminate]. Qed.

(** [Put] leaves the cache and the directory as they were, or it is the
    insert of a blob with the right digest and a size that fits. *)
Lemma Put_outcome key reader expected now fault c d :
  Put key reader expected now fault c d
    = ((Put key reader expected now fault c d).1.1, c, d) \/
  (cacheDir c <> EmptyString /\ expected = actualDigest reader /\
   (0 < maxSize c -> Z.of_nat (String.length reader) <= maxSize c) /\
   fault = PutOk).
Proof.
  unfold Put.
  destruct (decide (cacheDir c = EmptyString)); [destruct fault; by left|].
  destruct (String.eqb_spec (actualDigest reader) expected) as [<-|Hne];
    cbn [negb].
  2:{ left. destruct fault; rewrite ?CacheFacts.temp_discarded; done. }
  destruct (Z.gtb_spec (maxSize c) 0) as [Hpos|Hnp]; cbn [andb].
  - destruct (Z.gtb_spec (Z.of_nat (String.length reader)) (maxSize c)).
    + left. destruct fault; rewrite ?CacheFacts.temp_discarded; done.
    + destruct fault; try (left; rewrite ?CacheFacts.temp_discarded; done).
      right. repeat split; [done|lia].
  - destruct fault; try (left; rewrite ?CacheFacts.temp_discarded; done).
    right. repeat split; [done|lia].
Qed.

(** The index update of [Put], element by element. *)
Lemma putLocked_elements (key : string) (sz now : Z) (c : Cache) :
  wf c ->
  exists ee l, ll (putLocked key sz now c) = ee :: l /\
    Value (putLocked key sz now c) ee = Entry key sz now /\
    forall a, a ∈ l -> a ∈ ll c /\ Value (putLocked key sz now c) a = Value c a.
Proof.
  intros [Hs Hsz]. unfold putLocked.
  destruct (cache c !! key) as [ee|] eqn:Hlook.
  - destruct (index_in_list c key ee Hs Hlook) as [Hin Hkey].
    exists ee, (unlink ee (ll c)). rewrite Value_MoveToFront. split; [|split].
    + cbn [ll set_size set_Value set_elems]. unfold MoveToFront.
      by rewrite decide_True.
    + rewrite Hkey. unfold Value. cbn [elems set_size set_Value set_elems].
      by rewrite lookup_insert_eq.
    + intros a [Hne Ha]%list_elem_of_filter. split; [done|].
      unfold Value. cbn [elems set_size set_Value set_elems].
      rewrite lookup_insert_ne by done. apply Value_MoveToFront.
  - exists (fresh (dom (elems c))), (ll c). split; [done|]. split.
    + unfold Value. simpl. by rewrite lookup_insert_eq.
    + intros a Ha. split; [done|]. unfold Value. simpl.
      rewrite lookup_insert_ne; [done|].
      intros <-. by apply (fresh_not_in_list c Hs).
Qed.

Lemma evict_loop_elems (fuel : nat) (c : Cache) (acc : list entry) :
  elems (evict_loop fuel c acc).1 = elems c.
Proof.
  revert c acc. induction fuel as [|fuel IH]; intros c acc; [done|].
  rewrite evict_loop_S. destruct (size c >? maxSize c); [|done].
  destruct (Back c); [|done]. cbv zeta. by rewrite IH.
Qed.

(** What the eviction leaves: the elements that stay keep their entries
    and their files. *)
Lemma evictIfNeeded_keeps (c : Cache) (d : Dir) :
  wf c ->
  let r := evictIfNeeded c d in
  forall a, a ∈ ll r.1 ->
    a ∈ ll c /\ Value r.1 a = Value c a /\
    r.2 !! Key (Value c a) = d !! Key (Value c a).
Proof.
  intros Hwf r a Ha.
  destruct (evictIfNeeded_spec c d Hwf)
    as (_ & _ & _ & _ & _ & victims & Hv1 & Hv2 & _).
  fold r in Hv1, Hv2.
  assert (elems r.1 = elems c) as He.
  { unfold r, evictIfNeeded. destruct (maxSize c <=? 0); [done|].
    pose proof (evict_loop_elems (length (ll c)) c []) as E.
    by destruct (evict_loop _ c []). }
  assert (a ∈ ll c) as Hin by (rewrite Hv1; apply elem_of_app; by left).
  split; [done|]. split; [unfold Value; by rewrite He|].
  rewrite Hv2. apply EvictionFacts.deleteFiles_lookup_ne.
  intros e He' Hk. apply list_elem_of_fmap in He' as (v & -> & Hv).
  assert (NoDup (ll c)) as Hnd by apply Hwf.
  rewrite Hv1 in Hnd. apply NoDup_app in Hnd as (_ & Hdisj & _).
  apply (Hdisj a Ha).
  assert (v ∈ ll c) as Hvin.
  { rewrite Hv1. apply elem_of_app. right. by apply EvictionFacts.elem_of_rev. }
  assert (cache c !! Key (Value c v) = Some v) as E1
    by (by apply (shape_index c (proj1 Hwf))).
  assert (cache c !! Key (Value c a) = Some a) as E2
    by (by apply (shape_index c (proj1 Hwf))).
  rewrite Hk, E2 in E1. injection E1 as ->. by apply EvictionFacts.elem_of_rev.
Qed.

Section Filed.
Variable P : string -> Z -> string -> Prop.

Lemma all_filed_alt (st : Cache * Dir) :
  all_filed P st <-> forall a, a ∈ ll st.1 -> filed P st.2 (Value st.1 a).
Proof.
  unfold all_filed, entries. rewrite Forall_forall. split.
  - intros Hb a Ha. apply Hb. apply list_elem_of_fmap. by exists a.
  - intros Hb e (a & -> & Ha)%list_elem_of_fmap. by apply Hb.
Qed.

Lemma filed_same (d d' : Dir) (e e' : entry) :
  Key e' = Key e -> Size e' = Size e -> d' !! Key e = d !! Key e ->
  filed P d e -> filed P d' e'.
Proof.
  intros Hk Hs Hd (Hne & file & Hfile & Hsz). unfold filed.
  rewrite Hk, Hs, Hd. eauto.
Qed.

Lemma Put_filed key reader expected now fault c d :
  wf c -> all_filed P (c, d) ->
  files_as P (OpPut key reader expected now fault) ->
  let r := Put key reader expected now fault c d in
  all_filed P (r.1.2, r.2).
Proof.
  intros Hwf Hb Hop r.
  destruct (Put_outcome key reader expected now fault c d)
    as [E | (Hdir & -> & Hfit & ->)].
  { unfold r. rewrite E. exact Hb. }
  destruct (Hop eq_refl) as [Hplain HP].
  pose proof (plain_key_not_temp key d Hplain) as Htmp.
  unfold r. rewrite BoundFacts.Put_inserts_eq by done. cbn [fst snd].
  set (sz := Z.of_nat (String.length reader)) in *.
  destruct (putLocked_wf key sz now c Hwf) as [Hwf1 _]; [lia|].
  destruct (putLocked_elements key sz now c Hwf) as (ee & l & Hll & Hval & Hold).
  set (c1 := putLocked key sz now c) in *.
  pose proof (evictIfNeeded_keeps c1 (stored key reader d) Hwf1) as Hkeep.
  cbv zeta in Hkeep.
  set (ev := evictIfNeeded c1 (stored key reader d)) in *.
  rewrite all_filed_alt in Hb. apply all_filed_alt. cbn [fst snd] in *.
  intros a Ha. change (ll (set_persistDirty true ev.1)) with (ll ev.1) in Ha.
  change (Value (set_persistDirty true ev.1) a) with (Value ev.1 a).
  destruct (Hkeep a Ha) as (Hin1 & Hv & Hd). rewrite Hv.
  rewrite Hll in Hin1. apply elem_of_cons in Hin1 as [->|Hin].
  - rewrite Hval in *. cbn [Key] in Hd. split; [apply Hplain|].
    exists reader. cbn [Key Size]. split; [|done].
    rewrite lookup_delete_ne by done. rewrite Hd. apply lookup_insert_eq.
  - destruct (Hold a Hin) as [Hinc Hvc]. rewrite Hvc in *.
    destruct (Hb a Hinc) as (Hne & file & Hfile & Hsz).
    assert (Key (Value c a) <> tempName "blob-.tmp" d) as Hnt.
    { intros E. rewrite E, CacheFacts.tempName_fresh in Hfile. done. }
    assert (Key (Value c a) <> key) as Hnk.
    { intros E.
      assert (cache c1 !! key = Some a) as E1.
      { apply (shape_index c1 (proj1 Hwf1)). split.
        - rewrite Hll. by right.
        - by rewrite Hvc. }
      assert (cache c1 !! key = Some ee) as E2.
      { apply (shape_index c1 (proj1 Hwf1)). split.
        - rewrite Hll. by left.
        - by rewrite Hval. }
      assert (a = ee) as -> by congruence.
      assert (NoDup (ll c1)) as Hnd by apply Hwf1.
      rewrite Hll in Hnd. apply NoDup_cons in Hnd as [Hnd _]. done. }
    split; [done|]. exists file. split; [|done].
    rewrite lookup_delete_ne by done. rewrite Hd. unfold stored.
    rewrite lookup_insert_ne by done.
    by rewrite CacheFacts.temp_discarded.
Qed.

Lemma GetReader_filed key now c d :
  wf c -> all_filed P (c, d) -> all_filed P ((GetReader key now c d).2, d).
Proof.
  intros Hwf Hb. rewrite all_filed_alt in Hb. apply all_filed_alt.
  cbn [fst snd] in *.
  unfold GetReader. destruct (cache c !! key) as [ee|] eqn:Hlook.
  2:{ exact Hb. }
  destruct (index_in_list c key ee (proj1 Hwf) Hlook) as [Hin Hkey].
  rewrite Value_MoveToFront.
  set (v := Entry (Key (Value c ee)) (Size (Value c ee)) now).
  set (c2 := set_Value ee v (MoveToFront ee c)).
  assert (forall a, a ∈ ll c2 -> filed P d (Value c2 a)) as Hb2.
  { intros a Ha.
    assert (a ∈ ll c) as Hac.
    { unfold c2, set_Value, MoveToFront in Ha. rewrite decide_True in Ha by done.
      cbn [ll set_elems set_ll] in Ha.
      apply elem_of_cons in Ha as [->|Ha]; [done|].
      by apply list_elem_of_filter in Ha as [_ Ha]. }
    assert (Value c2 a = if decide (a = ee) then v else Value c a) as ->.
    { unfold c2, set_Value. rewrite (Value_insert (MoveToFront ee c)).
      destruct (decide _); [done | apply Value_MoveToFront]. }
    destruct (decide (a = ee)) as [->|]; [|by apply Hb].
    apply (filed_same d d (Value c ee) v); [done..|by apply Hb]. }
  destruct (d !! key) as [file|]; cbn [snd]; [exact Hb2|].
  assert (cache c2 !! key = Some ee) as ->.
  { unfold c2, set_Value, MoveToFront. by destruct (decide _). }
  intros a Ha. apply Hb2.
  change (ll (set_misses _ (removeElementLocked c2 ee).1))
    with (unlink ee (ll c2)) in Ha.
  by apply list_elem_of_filter in Ha as [_ Ha].
Qed.

Lemma Remove_filed key c d :
  wf c -> all_filed P (c, d) -> all_filed P (Remove key c d).
Proof.
  intros Hwf Hb. rewrite all_filed_alt in Hb. apply all_filed_alt.
  cbn [fst snd] in *.
  unfold Remove. destruct (cache c !! key) as [ee|] eqn:Hlook; [|exact Hb].
  destruct (index_in_list c key ee (proj1 Hwf) Hlook) as [Hin Hkey].
  cbn [fst snd]. intros a Ha.
  change (ll (set_persistDirty true (removeElementLocked c ee).1))
    with (unlink ee (ll c)) in Ha.
  change (Value (set_persistDirty true (removeElementLocked c ee).1) a)
    with (Value c a).
  apply list_elem_of_filter in Ha as [Hne Ha].
  apply (filed_same d _ (Value c a)); [done | done | | by apply Hb].
  apply lookup_delete_ne. intros E.
  assert (cache c !! key = Some a) as E1
    by (apply (shape_index c (proj1 Hwf)); by rewrite E).
  congruence.
Qed.

Lemma Persist_files `{EntryCodec} now fault c d k :
  k <> persistenceName -> (Persist now fault c d).2 !! k = d !! k.
Proof.
  intros Hk. unfold Persist. destruct (negb _); [done|].
  unfold persistencePath.
  destruct (decide (cacheDir c = EmptyString)).
  { by rewrite (decide_True (P := EmptyString = EmptyString)). }
  rewrite (decide_False (P := persistenceName = EmptyString)) by done.
  destruct fault; cbn [snd]; rewrite ?CacheFacts.temp_discarded; try done.
  rewrite delete_insert_ne by apply ReloadFacts.tempName_persistence.
  rewrite delete_id by apply CacheFacts.tempName_fresh.
  by rewrite lookup_insert_ne.
Qed.

Lemma step_filed `{EntryCodec} (st : Cache * Dir) (o : Op) :
  wf st.1 -> all_filed P st -> files_as P o -> all_filed P (step st o).
Proof.
  intros Hwf Hb Ho. destruct st as [c d]. cbn [fst snd] in *.
  destruct o as [key now | key reader expected now fault | key | | now fault];
    cbn [step fst snd].
  - by apply GetReader_filed.
  - by apply Put_filed.
  - by apply Remove_filed.
  - apply all_filed_alt. cbn [fst snd]. by intros a Ha%elem_of_nil.
  - rewrite all_filed_alt in Hb. apply all_filed_alt. cbn [fst snd] in *.
    destruct (Persist_index now fault c d) as (He & Hl & _).
    cbv zeta in He, Hl. rewrite Hl. intros a Ha.
    assert (Value (Persist now fault c d).1.2 a = Value c a) as ->
      by (unfold Value; by rewrite He).
    destruct (Hb a Ha) as [Hne Hf].
    apply (filed_same d _ (Value c a)); [done | done | | done].
    by apply Persist_files.
Qed.

(** The entries keep their files along a run, and a lookup of an indexed
    key finds its file. *)
Lemma run_filed `{EntryCodec} (ops : list Op) (st : Cache * Dir) :
  wf st.1 -> all_filed P st -> Forall (files_as P) ops ->
  let r := run ops st in
  all_filed P r /\
  forall key now,
    match (GetReader key now r.1 r.2).1 with
    | Some (file, size) =>
        exists ee, cache r.1 !! key = Some ee /\ r.2 !! key = Some file /\
                   size = Size (Value r.1 ee) /\ P key size file
    | None => cache r.1 !! key = None
    end.
Proof.
  intros Hwf Hb Hops r.
  assert (wf r.1 /\ all_filed P r) as [Hwf' Hb'].
  { unfold r, run. clear r. revert st Hwf Hb.
    induction Hops as [|o ops Ho Hops IH]; intros st Hwf Hb; [done|].
    cbn [fold_left]. apply IH.
    - by apply ConsistencyFacts.step_wf.
    - by apply step_filed. }
  split; [exact Hb'|]. intros key now.
  rewrite all_filed_alt in Hb'. unfold GetReader.
  destruct (cache r.1 !! key) as [ee|] eqn:Hlook; [|done].
  destruct (index_in_list r.1 key ee (proj1 Hwf') Hlook) as [Hin Hkey].
  destruct (Hb' ee Hin) as (_ & file & Hfile & HP).
  rewrite Hkey in Hfile, HP. rewrite Hfile. cbn [fst].
  rewrite Value_MoveToFront. eauto.
Qed.

End Filed.



(** X17. What the cache serves is what was asked for. From a well-formed
    cache whose files all have their keys as digests, an empty cache for
    one, along every run in which every insert passes its key as the
    digest it expects, as the cache interceptor does, with any failures of
    the operating system: every file a lookup returns has the key as the
    SHA-256 digest of its bytes, and the size returned is the number of
    its bytes. *)
Theorem cached_blobs_are_verified `{EntryCodec} (ops : list Op)
    (st : Cache * Dir) :
  wf st.1 -> all_filed verified st -> Forall digest_put ops ->
  let r := run ops st in
  all_filed verified r /\
  forall key now file size,
    (GetReader key now r.1 r.2).1 = Some (file, size) ->
    actualDigest file = key /\ size = Z.of_nat (String.length file).
Proof.
  intros Hwf Hb Hops r.
  destruct (run_filed verified ops st Hwf Hb) as [Hb' Hget].
  - eapply Forall_impl; [exact Hops|].
    intros [] Ho; cbn [digest_put files_as] in *; [done| |done..].
    intros ->. subst. split; [apply digest_plain | by split].
  - split; [exact Hb'|]. intros key now file size Hhit.
    specialize (Hget key now). fold r in Hget. rewrite Hhit in Hget.
    destruct Hget as (ee & _ & _ & _ & Hsz & Hdig). split; [done | lia].
Qed.

Lemma cached_blobs_are_verified_witness :
  let r := run (H := JsonLines.codec)
               [OpPut (actualDigest "bbbb") "bbbb" (actualDigest "bbbb") 2 PutOk;
                OpPut (actualDigest "cccc") "cccX" (actualDigest "cccc") 3 PutOk]
               (emptyCache 10 "/var/cache/oci", ∅) in
  (GetReader (actualDigest "bbbb") 5 r.1 r.2).1 = Some ("bbbb", 4) /\
  (GetReader (actualDigest "cccc") 5 r.1 r.2).1 = None /\
  all_filed verified r.
Proof.
  intros r. split; [vm_compute; reflexivity|]. split; [vm_compute; reflexivity|].
  refine (proj1 (cached_blobs_are_verified (H := JsonLines.codec) _
                   (emptyCache 10 "/var/cache/oci", ∅) _ _ _)).
  - apply empty_wf.
  - constructor.
  - repeat constructor.
Defined.

End BackingFacts.

(** ** The auth interceptor: scopes, cached tokens and pass-through *)

Module TokenFacts.
Import GoStrings Http Config Middleware PathFacts.
Import Terms Examples Examples3.

Lemma take_app_length' {A} (l k : list A) : take (length l) (l ++ k) = l.
Proof. induction l as [|x l IH]; simpl; [by destruct k | by rewrite IH]. Qed.

Lemma nth_app_length {A} (l k : list A) (x d : A) :
  nth (length l) (l ++ x :: k) d = x.
Proof. induction l as [|y l IH]; [done | exact IH]. Qed.

(** X18. The scope of a request. For a path /v2/repo/kind/ref, where repo
    is any number of segments, a token is asked for and looked up under
    the scope repository:repo:pull exactly when kind is manifests or blobs
    and repo is not empty; for any other kind (the tag list, an upload)
    the scope is empty, and so no cached token is attached. *)
Theorem scope_of_request (req : Request) (repo : list string)
    (kind ref : string) :
  Forall (fun seg => Contains seg slash = false) (repo ++ [kind; ref]) ->
  ref <> EmptyString ->
  Path (Url req) = "/v2/" ++ Join (repo ++ [kind; ref]) "/" ->
  getScopeFromRequest req =
    if negb (String.eqb (Join repo "/") EmptyString)
       && (String.eqb kind "manifests" || String.eqb kind "blobs")
    then "repository:" ++ Join repo "/" ++ ":pull"
    else EmptyString.
Proof.
  intros Hall Href Hpath. unfold getScopeFromRequest. rewrite Hpath.
  fold slash.
  rewrite (RoutingFacts.v2_path_parts (repo ++ [kind; ref])).
  - cbn [length drop].
    assert (length (repo ++ [kind; ref]) = (length repo + 2)%nat) as Hlen
      by (rewrite length_app; simpl; lia).
    rewrite Hlen.
    replace (S (length repo + 2) - 3)%nat with (length repo) by lia.
    replace (S (length repo + 2) - 2)%nat with (S (length repo)) by lia.
    rewrite drop_0, take_app_length'.
    change (nth (S (length repo)) ("v2" :: repo ++ [kind; ref]) EmptyString)
      with (nth (length repo) (repo ++ [kind; ref]) EmptyString).
    rewrite nth_app_length.
    destruct (3 <=? S (length repo + 2))%nat eqn:E;
      [|apply Nat.leb_gt in E; lia].
    reflexivity.
  - by destruct repo.
  - exact Hall.
  - change (repo ++ [kind; ref])%list with (repo ++ [kind] ++ [ref])%list.
    by rewrite app_assoc, last_last.
Qed.

Lemma scope_of_request_witness :
  getScopeFromRequest demo_pull = "repository:library/alpine:pull" /\
  getScopeFromRequest
    (mkRequest "GET" (mkURL "https" "docker.io" "/v2/library/alpine/tags/list")
               "docker.io" EmptyString ∅) = EmptyString.
Proof.
  split.
  - refine (scope_of_request demo_pull ["library"; "alpine"] "manifests"
              "latest" _ _ _).
    + repeat constructor.
    + discriminate.
    + reflexivity.
  - refine (scope_of_request _ ["library"; "alpine"] "tags" "list" _ _ _).
    + repeat constructor.
    + discriminate.
    + reflexivity.
Defined.





End TokenFacts.

(** ** The auth interceptor: what reaches the upstream *)

Module PassThroughFacts.
Import GoStrings Http Config Middleware.
Import Terms Examples Examples3.

(** X20. The auth interceptor calls the rest of the chain once or twice,
    never more: first with the request as [applyAuth] leaves it, and, only
    after a bearer challenge with status 401 or 403 for which a token was
    had, once more with the same request carrying Authorization: Bearer.
    It returns an error exactly when the first call does, and then that
    error; a first response that is not such a challenge is returned as it
    is. *)
Theorem auth_calls_next_at_most_twice {S : Type} (net : Net)
    (m : AuthMiddleware) (req : Request) (next : Handler S) (now now' : Z)
    (s : S) :
  let r := AuthProcess net m req (logged next) now now' ([], s) in
  let req1 := (applyAuth m req now).1 in
  let m1 := (applyAuth m req now).2 in
  (r.2.1 = [req1] \/
   exists tok, r.2.1 = [req1; set_ReqHeader
                                (Header_Set (ReqHeader req1) "Authorization"
                                            ("Bearer " ++ tok)) req1]) /\
  (forall e, r.1.1 = inr e <-> (next req1 s).1 = inr e) /\
  (forall resp,
     (next req1 s).1 = inl resp ->
     (StatusCode resp <> 401 /\ StatusCode resp <> 403) \/
     HasPrefix (ToLower (Header_Get (RespHeader resp) "Www-Authenticate"))
               "bearer " = false ->
     r = (inl resp, m1, ([req1], (next req1 s).2))).
Proof.
  intros r req1 m1. unfold r, AuthProcess. fold req1 m1.
  destruct (applyAuth m req now) as [r0 m0]. cbn [fst snd] in *.
  subst req1 m1.
  assert (forall q st, logged next q st
            = ((next q st.2).1, ((st.1 ++ [q])%list, (next q st.2).2))) as Hlog.
  { intros q st. unfold logged. by destruct (next q st.2). }
  rewrite Hlog. cbn [fst snd app].
  destruct (next r0 s) as [[resp|err] s1] eqn:Hfirst; cbn [fst snd].
  2:{ split; [by left|]. split; [|done]. intros e. tauto. }
  unfold handleAuthChallenge, StatusUnauthorized, StatusForbidden.
  destruct (negb (StatusCode resp =? 401) && negb (StatusCode resp =? 403))
    eqn:Hst.
  { cbn [fst snd]. split; [by left|]. split; [done|].
    by intros resp' [= <-] _. }
  destruct (HasPrefix (ToLower (Header_Get (RespHeader resp) "Www-Authenticate"))
                      "bearer ") eqn:Hb; cbn [negb].
  2:{ cbn [fst snd]. split; [by left|]. split; [done|].
      by intros resp' [= <-] _. }
  assert (forall resp', (inl resp : Result) = inl resp' ->
            (StatusCode resp' <> 401 /\ StatusCode resp' <> 403) \/
            HasPrefix (ToLower (Header_Get (RespHeader resp') "Www-Authenticate"))
                      "bearer " = false -> False) as Hchal.
  { intros resp' [= <-] [[H1 H2]|H3]; [|congruence].
    apply andb_false_iff in Hst as [Hst|Hst];
      apply negb_false_iff, Z.eqb_eq in Hst; congruence. }
  unfold fetchTokenAndRetry.
  destruct (parseAuthHeader _ !! "realm") as [realm|].
  2:{ cbn [fst snd]. split; [by left|]. split; [done|].
      intros resp' E Hn. destruct (Hchal resp' E Hn). }
  destruct (getAnonymousToken net realm _ _) as [[tok expiresIn]|terr].
  2:{ cbn [fst snd]. split; [by left|]. split; [done|].
      intros resp' E Hn. destruct (Hchal resp' E Hn). }
  set (retryReq := set_ReqHeader _ r0). rewrite Hlog. cbn [fst snd app].
  destruct (next retryReq s1) as [[resp2|err2] s2]; cbn [fst snd].
  - split; [right; by exists tok|]. split; [done|].
    intros resp' E Hn. destruct (Hchal resp' E Hn).
  - split; [right; by exists tok|]. split; [done|].
    intros resp' E Hn. destruct (Hchal resp' E Hn).
Qed.

End PassThroughFacts.

(** ** Credentials for a registry, and the whitelist *)

Module AccessFacts.
Import GoStrings Http Config Middleware Proxy.
Import Terms Examples Examples3.

Lemma Header_Get_Set (h : Header) (key value : string) :
  Header_Get (Header_Set h key value) key = value.
Proof. unfold Header_Get, Header_Set. by rewrite lookup_insert_eq. Qed.

(** X21. What [ApplyToRequest] writes, [IsAuthenticated] reads. For
    credentials whose user name has no colon, the request that
    [ApplyToRequest] leaves is accepted by [IsAuthenticated] for the same
    credentials; [ApplyToRequest] writes the header, and says so, exactly
    when the user name and the password are both non-empty. *)
Theorem applied_credentials_are_accepted (a : Auth) (req : Request) :
  Contains (Username a) (ascii_of_nat 58) = false ->
  IsAuthenticated a (ApplyToRequest a req).1 = true /\
  ((ApplyToRequest a req).2 = true <->
     Username a <> EmptyString /\ Password a <> EmptyString) /\
  ((ApplyToRequest a req).2 = false -> (ApplyToRequest a req).1 = req).
Proof.
  intros Hcolon. unfold ApplyToRequest, IsAuthenticated.
  destruct (String.eqb_spec (Username a) EmptyString) as [Hu|Hu]; cbn [orb].
  { cbn [fst snd]. split; [done|]. split; [|done]. split; [done|tauto]. }
  destruct (String.eqb_spec (Password a) EmptyString) as [Hp|Hp]; cbn [orb fst snd].
  { split; [done|]. split; [|done]. split; [done|tauto]. }
  split; [|split; [done|done]].
  rewrite (BasicAuthFacts.BasicAuth_standard _ (Username a) (Password a)).
  - by rewrite !String.eqb_refl.
  - exact Hcolon.
  - apply Header_Get_Set.
Qed.

Lemma applied_credentials_are_accepted_witness :
  IsAuthenticated (mkAuth "admin" "s3cret")
    (ApplyToRequest (mkAuth "admin" "s3cret") demo_pull).1 = true.
Proof.
  exact (proj1 (applied_credentials_are_accepted (mkAuth "admin" "s3cret")
                  demo_pull eq_refl)).
Defined.

(** X22. The whitelist is asked about the host the request is routed to. The
    registry that [isRegistryAllowed] checks is, for every request and
    configuration, the upstream host the director chooses; so in whitelist
    mode the handler behind the gate answers 403 without calling the proxy
    exactly when that host is no configured registry, and hands every
    other request to the proxy. *)
Theorem whitelist_follows_route {S : Type} (proxy : HandlerFunc S)
    (cfg : Config) (w : ResponseWriter) (r : Request) (s : S) :
  let host := Host (Url (newDirector cfg r)) in
  isRegistryAllowed r cfg = IsRegistryAllowed cfg host /\
  proxied proxy cfg w r s =
    if WhitelistMode cfg && negb (bool_decide (is_Some (Registries cfg !! host)))
    then (http_Error w "Registry not allowed" 403, s)
    else proxy w r s.
Proof.
  intros host.
  assert (isRegistryAllowed r cfg = IsRegistryAllowed cfg host) as Hsame.
  { unfold host, isRegistryAllowed, newDirector.
    destruct ((2 <=? length _)%nat && String.eqb _ "v2"); cbn [andb]; [|done].
    destruct (Contains _ (ascii_of_nat 46)); [done|].
    by destruct (negb _). }
  split; [exact Hsame|].
  unfold proxied. rewrite Hsame. unfold IsRegistryAllowed, StatusForbidden.
  by destruct (WhitelistMode cfg).
Qed.

End AccessFacts.

(** ** The configuration after its defaults are applied *)

Module DefaultsFacts.
Import GoStrings Http Config ConfigLoad Proxy.
Import Terms Examples Examples3.

Lemma flagged_idem (d : RegistrySettings) : flagged (flagged d) = flagged d.
Proof.
  unfold flagged. simpl.
  by destruct (FollowRedirects d), (Insecure d).
Qed.

Lemma merged_idem (d rs : RegistrySettings) :
  merged d (merged d rs) = merged d rs.
Proof.
  unfold merged. cbn [SAuth CacheDir CacheMaxSize UpstreamProxy
                      FollowRedirects Insecure].
  f_equal.
  - destruct (String.eqb (Username (SAuth rs)) EmptyString) eqn:E; cbn [negb].
    + by destruct (negb _).
    + by rewrite E.
  - destruct (String.eqb (CacheDir rs) EmptyString) eqn:E; cbn [negb].
    + by destruct (negb _).
    + by rewrite E.
  - destruct (CacheMaxSize rs =? 0) eqn:E; cbn [negb].
    + by destruct (negb _).
    + by rewrite E.
  - destruct (String.eqb (UpstreamProxy rs) EmptyString) eqn:E; cbn [negb].
    + by destruct (negb _).
    + by rewrite E.
  - by destruct (FollowRedirects rs), (FollowRedirects d).
  - by destruct (Insecure rs), (Insecure d).
Qed.

(** X23. [applyDefaults] is idempotent: applying the defaults to a
    configuration that has them applied changes nothing. *)
Theorem applyDefaults_idempotent (c : Config) :
  applyDefaults (applyDefaults c) = applyDefaults c.
Proof.
  unfold applyDefaults. cbn [Port LogLevel DefaultRegistry BaseURL
                             WhitelistMode CAuth Defaults Registries].
  rewrite flagged_idem. f_equal.
  rewrite <- map_fmap_compose. apply map_fmap_ext.
  intros name rs _. apply merged_idem.
Qed.

(** The fields of a registry that sets nothing. *)
Lemma merged_nothing (d : RegistrySettings) :
  merged d (mkSettings (mkAuth EmptyString EmptyString) EmptyString 0
                       EmptyString None None) = d.
Proof. by destruct d. Qed.

(** After [applyDefaults] the settings of a name are the defaults with
    their flags set, overlaid with what the registry of that name sets. *)
Lemma settings_merged (c : Config) (name : string) :
  GetRegistrySettings (applyDefaults c) name
    = merged (flagged (Defaults c))
             (default (mkSettings (mkAuth EmptyString EmptyString) EmptyString
                                  0 EmptyString None None)
                      (Registries c !! name)).
Proof.
  unfold GetRegistrySettings, applyDefaults. cbn [Registries Defaults].
  rewrite lookup_fmap. destruct (Registries c !! name) as [rs|]; cbn.
  - done.
  - by rewrite merged_nothing.
Qed.

(** X24. The settings of a registry after [applyDefaults]. Whatever name is
    asked for, [GetRegistrySettings] returns settings in which both flags
    are set: follow_redirects is the registry's own value, else that of
    the defaults, else true; insecure is the registry's own, else that of
    the defaults, else false. The directory, the maximum size and the
    upstream proxy are the registry's own when they are not empty or zero,
    else those of the defaults, so a registry cannot switch a default off
    by an empty string or a zero; the credentials are the registry's own
    pair when its user name is not empty, else the pair of the defaults. *)
Theorem settings_after_defaults (c : Config) (name : string) :
  let st := GetRegistrySettings (applyDefaults c) name in
  let own := default (mkSettings (mkAuth EmptyString EmptyString) EmptyString 0
                                 EmptyString None None)
                     (Registries c !! name) in
  FollowRedirects st
    = Some (default (default true (FollowRedirects (Defaults c)))
                    (FollowRedirects own)) /\
  Insecure st
    = Some (default (default false (Insecure (Defaults c))) (Insecure own)) /\
  CacheDir st
    = (if String.eqb (CacheDir own) EmptyString
       then CacheDir (Defaults c) else CacheDir own) /\
  CacheMaxSize st
    = (if CacheMaxSize own =? 0
       then CacheMaxSize (Defaults c) else CacheMaxSize own) /\
  UpstreamProxy st
    = (if String.eqb (UpstreamProxy own) EmptyString
       then UpstreamProxy (Defaults c) else UpstreamProxy own) /\
  SAuth st
    = (if String.eqb (Username (SAuth own)) EmptyString
       then SAuth (Defaults c) else SAuth own).
Proof.
  intros st own. unfold st. rewrite settings_merged. fold own.
  unfold merged, flagged.
  cbn [SAuth CacheDir CacheMaxSize UpstreamProxy FollowRedirects Insecure].
  repeat split.
  - by destruct (FollowRedirects own), (FollowRedirects (Defaults c)).
  - by destruct (Insecure own), (Insecure (Defaults c)).
  - by destruct (String.eqb _ _).
  - by destruct (_ =? _).
  - by destruct (String.eqb _ _).
  - by destruct (String.eqb _ _).
Qed.

Lemma director_scheme (cfg : Config) (req : Request) :
  let r := newDirector cfg req in
  Scheme (Url r) =
    match Insecure (GetRegistrySettings cfg (Host (Url r))) with
    | Some true => "http"
    | _ => "https"
    end.
Proof.
  unfold newDirector.
  destruct (_ && _); [destruct (Contains _ _); [|destruct (negb _)] |];
    reflexivity.
Qed.

(** X25. The upstream is reached over TLS unless it is declared insecure.
    With the configuration as [LoadConfig] returns it, the director sets
    the scheme of the upstream URL to https, except when insecure is true
    for the registry the request is routed to, or, where the registry does
    not say, true in the defaults; then the scheme is http. *)
Theorem upstream_is_https_unless_insecure (c : Config) (req : Request) :
  let r := newDirector (applyDefaults c) req in
  let insecure :=
    default (default false (Insecure (Defaults c)))
            (Registries c !! Host (Url r) ≫= Insecure) in
  Scheme (Url r) = if insecure then "http" else "https".
Proof.
  intros r insecure. unfold r. rewrite director_scheme. fold r.
  rewrite settings_merged. unfold insecure, merged, flagged.
  cbn [Insecure].
  destruct (Registries c !! Host (Url r)) as [rs|]; cbn.
  - destruct (Insecure rs) as [[]|]; cbn; try reflexivity.
    by destruct (Insecure (Defaults c)) as [[]|].
  - by destruct (Insecure (Defaults c)) as [[]|].
Qed.

End DefaultsFacts.

(** ** The chain of interceptors *)

Module PipelineFacts.
Import Http Middleware Pipeline.

Section Chain.
Context {S : Type}.
Implicit Types (p : Pipeline S) (m : Pipeline.Middleware S).

Lemma loop_nested (ms : list (Pipeline.Middleware S))
    (final : option (Handler S)) :
  fold_left wrap (rev ms) final = nested ms final.
Proof.
  induction ms as [|m ms IH]; [done|].
  cbn [rev nested]. rewrite fold_left_app. cbn [fold_left].
  by rewrite IH.
Qed.

Lemma nested_app (ms : list (Pipeline.Middleware S))
    (m : Pipeline.Middleware S) (final : option (Handler S)) :
  nested (ms ++ [m]) final = nested ms (wrap final m).
Proof.
  induction ms as [|m0 ms IH]; [done|].
  cbn [app nested]. by rewrite IH.
Qed.

Lemma Execute_nested p (req : Request) (s : S) :
  Execute p req s =
    match nested (middlewares p) (finalHandler p) with
    | Some h => h req s
    | None => (inr ErrNotSupported, s)
    end.
Proof.
  unfold Execute. destruct (decide _) as [E|_].
  - by destruct (middlewares p).
  - by rewrite loop_nested.
Qed.

(** X26. [Execute] runs the interceptors in the order in which [Use] added
    them, the first one outermost, each with the rest of the chain as its
    [next] and the final handler innermost. Adding an interceptor with
    [Use] is the same as wrapping the final handler in it. A pipeline
    without interceptors is its final handler, and answers the error
    ErrNotSupported when it has none. *)
Theorem Execute_order p m (m1 m2 : Pipeline.Middleware S)
    (h : option (Handler S)) (req : Request) (s : S) :
  Execute p req s =
    match nested (middlewares p) (finalHandler p) with
    | Some h => h req s
    | None => (inr ErrNotSupported, s)
    end /\
  Execute (Use p m) req s =
    Execute (SetFinalHandler p (Some (fun r => Process m r (finalHandler p))))
            req s /\
  Execute (SetFinalHandler (Use (Use NewPipeline m1) m2) h) req s
    = Process m1 req (Some (fun r => Process m2 r h)) s /\
  Execute NewPipeline req s = (inr ErrNotSupported, s).
Proof.
  split; [apply Execute_nested|]. split; [|split; reflexivity].
  rewrite !Execute_nested. cbn [Use SetFinalHandler middlewares finalHandler].
  by rewrite nested_app.
Qed.

End Chain.

End PipelineFacts.

(** ** The cache manager *)

Module ManagerFacts.
Import GoStrings Http Config Middleware Caches.
Import LRU Invariants InvariantFacts RunTerms.
Import Terms Examples Examples3.

(** A host that has its cache keeps it: [GetCache] changes nothing. *)
Lemma GetCache_present `{EntryCodec} cm host faults fs c :
  caches cm !! host = Some c -> GetCache cm host faults fs = (cm, fs).
Proof. intros Hc. unfold GetCache. by rewrite Hc. Qed.

(** X27. A cache is constructed once for a host. After [GetCache] the host
    has a cache, whatever the operating system did; the caches of the
    other hosts are untouched; and a second [GetCache] for the host
    changes neither the manager nor any file. When the directory of the
    host cannot be created, the cache that takes its place has no
    directory and no limit, and the files are left alone. *)
Theorem GetCache_once `{EntryCodec} (cm : CacheManager) (host : string)
    (faults faults' : NewFaults) (fs : FS) :
  let r := GetCache cm host faults fs in
  is_Some (caches r.1 !! host) /\
  (forall h, h <> host -> caches r.1 !! h = caches cm !! h) /\
  GetCache r.1 host faults' r.2 = r /\
  (caches cm !! host = None ->
   CacheDir (GetRegistrySettings (cm_cfg cm) host) <> EmptyString ->
   mkdirFails faults = true ->
   caches r.1 !! host = Some (emptyCache 0 EmptyString) /\ r.2 = fs).
Proof.
  intros r.
  assert (is_Some (caches r.1 !! host)) as Hhas
    by apply InterceptorFacts.GetCache_has.
  split; [exact Hhas|]. split; [|split].
  - intros h Hne. unfold r, GetCache.
    destruct (caches cm !! host); [done|].
    destruct (NewLRUCache _ _ _ _ _) as [[c|] d]; cbn [fst caches];
      by rewrite lookup_insert_ne.
  - destruct Hhas as [c Hc]. rewrite (GetCache_present _ _ _ _ c Hc).
    by destruct r.
  - intros Hnone Hdir Hmk. unfold r, GetCache. rewrite Hnone.
    unfold NewLRUCache. rewrite Hmk.
    rewrite (proj2 (String.eqb_neq _ _) Hdir). cbn [negb andb fst snd caches].
    split; [apply lookup_insert_eq | done].
Qed.

Lemma GetCache_once_witness :
  let r := GetCache (H := JsonLines.codec) demo_cm "docker.io"
                    (mkNewFaults true LoadOk) demo_fs in
  caches r.1 !! "docker.io" = Some (emptyCache 0 EmptyString) /\ r.2 = demo_fs.
Proof.
  refine (proj2 (proj2 (proj2 (GetCache_once (H := JsonLines.codec) demo_cm
            "docker.io" (mkNewFaults true LoadOk) (mkNewFaults true LoadOk)
            demo_fs))) _ _ _).
  - reflexivity.
  - vm_compute. discriminate.
  - reflexivity.
Defined.

(** A cache that has nothing to save. *)
Lemma Persist_saved `{EntryCodec} now fault c d :
  saved c -> Persist now fault c d = (None, c, d).
Proof.
  intros [Hclean|Hno].
  - by apply CacheFacts.Persist_clean.
  - by apply CacheFacts.Persist_no_dir.
Qed.

Lemma Persist_ok `{EntryCodec} now c d :
  (Persist now PersistOk c d).1.1 = None /\ saved (Persist now PersistOk c d).1.2.
Proof.
  unfold Persist, saved, persistencePath.
  destruct (persistDirty c) eqn:Hdirty; cbn [negb]; [|by split; [|left]].
  destruct (decide (cacheDir c = EmptyString)) as [Hno|Hdir].
  { rewrite (decide_True (P := EmptyString = EmptyString)) by done.
    split; [done | by right]. }
  rewrite (decide_False (P := persistenceName = EmptyString)) by done.
  split; [done | by left].
Qed.

Lemma dir_of_insert (fs : FS) (dir path : string) :
  dir_of (<[dir := dir_of fs dir]> fs) path = dir_of fs path.
Proof.
  unfold dir_of. destruct (decide (path = dir)) as [->|Hne].
  - by rewrite lookup_insert_eq.
  - by rewrite lookup_insert_ne.
Qed.

(** One cache persisted: the other hosts keep their caches, the host
    keeps its index, and with no failure it has nothing left to save. *)
Lemma persistHost_spec `{EntryCodec} now fault (st : CacheManager * FS) host :
  let st' := persistHost now fault st host in
  cm_cfg st'.1 = cm_cfg st.1 /\
  (forall h, h <> host -> caches st'.1 !! h = caches st.1 !! h) /\
  match caches st.1 !! host with
  | None => caches st'.1 !! host = None
  | Some c =>
      exists c', caches st'.1 !! host = Some c' /\
        ll c' = ll c /\ cache c' = cache c /\ elems c' = elems c /\
        size c' = size c /\
        (saved c -> c' = c) /\ (fault = PersistOk -> saved c')
  end.
Proof.
  cbv zeta. unfold persistHost.
  destruct (caches st.1 !! host) as [c|] eqn:Hc.
  2:{ by rewrite Hc. }
  pose proof (Persist_index now fault c (dir_of st.2 (cacheDir c)))
    as (He & Hl & Hca & Hz & _). cbv zeta in He, Hl, Hca, Hz.
  pose proof (Persist_ok now c (dir_of st.2 (cacheDir c))) as [_ Hok].
  pose proof (fun Hs => Persist_saved now fault c (dir_of st.2 (cacheDir c)) Hs)
    as Hsaved.
  destruct (Persist now fault c _) as [[err c'] d'] eqn:HP. cbv zeta.
  cbn [fst snd caches cm_cfg] in *.
  split; [done|]. split.
  - intros h Hne. by rewrite lookup_insert_ne.
  - exists c'. rewrite lookup_insert_eq. repeat split; try done.
    + intros Hs. by injection (Hsaved Hs).
    + intros ->. by rewrite HP in Hok.
Qed.

(** X28. [PersistAll] saves every cache. Whatever the order in which the
    caches are taken, if the operating system fails no call, then after
    [PersistAll] every cache of the manager either has its dirty flag
    clear or has no directory, and holds the index, the list and the size
    counter it had; a second [PersistAll], in any order and with any
    failures, changes no cache and no file. *)
Theorem PersistAll_saves `{EntryCodec} (order order' : list string)
    (now now' : Z) (faults' : string -> PersistFault) (cm : CacheManager)
    (fs : FS) :
  (forall host, is_Some (caches cm !! host) -> host ∈ order) ->
  let r := PersistAll order now (fun _ => PersistOk) cm fs in
  (forall host c, caches cm !! host = Some c ->
     exists c', caches r.1 !! host = Some c' /\ saved c' /\
       ll c' = ll c /\ cache c' = cache c /\ size c' = size c) /\
  (forall host, caches cm !! host = None -> caches r.1 !! host = None) /\
  let r' := PersistAll order' now' faults' r.1 r.2 in
  caches r'.1 = caches r.1 /\ forall path, dir_of r'.2 path = dir_of r.2 path.
Proof.
  intros Hall r.
  assert (forall (l : list string) (st : CacheManager * FS),
            let st' := fold_left (fun st host => persistHost now PersistOk st host)
                                 l st in
            forall host,
              match caches st.1 !! host with
              | None => caches st'.1 !! host = None
              | Some c =>
                  exists c', caches st'.1 !! host = Some c' /\
                    ll c' = ll c /\ cache c' = cache c /\ size c' = size c /\
                    (saved c \/ host ∈ l -> saved c')
              end) as Hfold.
  { induction l as [|h l IH]; intros st st' host.
    - subst st'. cbn [fold_left]. destruct (caches st.1 !! host) as [c|] eqn:E;
        [|done].
      exists c. repeat split; try done.
      intros [Hs | Hin%elem_of_nil]; done.
    - subst st'. cbn [fold_left].
      pose proof (persistHost_spec now PersistOk st h) as (_ & Hother & Hhost).
      cbv zeta in Hother, Hhost.
      specialize (IH (persistHost now PersistOk st h) host). cbv zeta in IH.
      destruct (decide (host = h)) as [->|Hne].
      + destruct (caches st.1 !! h) as [c|] eqn:E.
        * destruct Hhost as (c1 & Hc1 & Hl1 & Hca1 & _ & Hz1 & _ & Hs1).
          rewrite Hc1 in IH.
          destruct IH as (c' & Hc' & Hl' & Hca' & Hz' & Hs').
          exists c'. rewrite Hl', Hca', Hz'. repeat split; try done.
          intros _. apply Hs'. left. by apply Hs1.
        * by rewrite Hhost in IH.
      + rewrite (Hother host Hne) in IH.
        destruct (caches st.1 !! host) as [c|] eqn:E; [|done].
        destruct IH as (c' & Hc' & Hl' & Hca' & Hz' & Hs').
        exists c'. repeat split; try done.
        intros [Hs | [?|Hin]%elem_of_cons]; [by apply Hs'; left | done |
                                              by apply Hs'; right]. }
  assert (forall host,
            match caches cm !! host with
            | None => caches r.1 !! host = None
            | Some c =>
                exists c', caches r.1 !! host = Some c' /\
                  ll c' = ll c /\ cache c' = cache c /\ size c' = size c /\
                  (saved c \/ host ∈ order -> saved c')
            end) as Hr.
  { intros host. exact (Hfold order (cm, fs) host). }
  clear Hfold. clearbody r.
  split; [|split].
  - intros host c Hc. specialize (Hr host). rewrite Hc in Hr.
    destruct Hr as (c' & Hc' & Hl' & Hca' & Hz' & Hs').
    exists c'. split; [exact Hc'|]. split; [|done].
    apply Hs'. right. apply Hall. by rewrite Hc.
  - intros host Hc. specialize (Hr host). by rewrite Hc in Hr.
  - assert (forall host c, caches r.1 !! host = Some c -> saved c) as Hsaved.
    { intros host c' Hc'. specialize (Hr host).
      destruct (caches cm !! host) as [c|] eqn:E; [|congruence].
      destruct Hr as (c'' & Hc'' & _ & _ & _ & Hs).
      assert (c'' = c') as -> by congruence.
      apply Hs. right. apply Hall. by rewrite E. }
    intros r'.
    assert (forall (l : list string) (st : CacheManager * FS),
              caches st.1 = caches r.1 ->
              (forall path, dir_of st.2 path = dir_of r.2 path) ->
              let st' := fold_left
                           (fun st host => persistHost now' (faults' host) st host)
                           l st in
              caches st'.1 = caches r.1 /\
              forall path, dir_of st'.2 path = dir_of r.2 path) as Hagain.
    { induction l as [|h l IH]; intros st Hc Hd; [by split|].
      cbn [fold_left]. apply IH.
      - unfold persistHost. destruct (caches st.1 !! h) as [c|] eqn:E; [|done].
        rewrite Persist_saved by (apply (Hsaved h); by rewrite <- Hc).
        cbn [fst caches]. rewrite <- Hc. by apply insert_id.
      - intros path. unfold persistHost.
        destruct (caches st.1 !! h) as [c|] eqn:E; [|apply Hd].
        rewrite Persist_saved by (apply (Hsaved h); by rewrite <- Hc).
        cbn [snd]. destruct (String.eqb _ _); [apply Hd|].
        rewrite dir_of_insert. apply Hd. }
    apply (Hagain order' (r.1, r.2)); done.
Qed.

Lemma PersistAll_saves_witness :
  let cm := mkCacheManager demo_cfg
              {[ "docker.io" := set_persistDirty true demo_cache ]} in
  let r := PersistAll (H := JsonLines.codec) ["docker.io"] 9
                      (fun _ => PersistOk) cm Examples4.warm_fs in
  exists c', caches r.1 !! "docker.io" = Some c' /\ saved c' /\
             ll c' = ll demo_cache /\ cache c' = cache demo_cache /\
             size c' = size demo_cache.
Proof.
  intros cm r.
  refine (proj1 (PersistAll_saves (H := JsonLines.codec) ["docker.io"] [] 9 9
                   (fun _ => PersistOk) cm Examples4.warm_fs _)
                "docker.io" (set_persistDirty true demo_cache) _).
  - intros host [c Hc]. destruct (decide (host = "docker.io")) as [->|Hne].
    + apply list_elem_of_here.
    + unfold cm in Hc. cbn [caches] in Hc.
      rewrite lookup_singleton_ne in Hc by done. discriminate.
  - reflexivity.
Defined.

End ManagerFacts.

(** ** The cache interceptor: a blob that was fetched is served from the
    cache *)

Module StreamFacts.
Import GoStrings Http Config Middleware Caches PathFacts.
Import LRU Invariants InvariantFacts RunTerms.
Import Terms Examples Examples3 Examples4.

Lemma take_bytes_all (s : string) : take_bytes (String.length s) s = s.
Proof.
  unfold take_bytes. induction s as [|a s IH]; [done|].
  simpl. by rewrite IH.
Qed.

Lemma GetReader_cacheDir key now c d :
  cacheDir (GetReader key now c d).2 = cacheDir c.
Proof.
  unfold GetReader. destruct (cache c !! key) as [ee|]; [|done].
  set (c2 := set_Value ee _ (MoveToFront ee c)).
  assert (cacheDir c2 = cacheDir c) as Hc2.
  { unfold c2, set_Value, MoveToFront. by destruct (decide _). }
  destruct (d !! key); [exact Hc2|].
  destruct (cache c2 !! key); exact Hc2.
Qed.

(** X29. A download whose bytes do not hash to the digest of the request
    is never cached. When a client has read any number of bytes of an
    upstream body that the cache interceptor wrapped and has closed it,
    and the digest of the bytes it read is not the digest in the path,
    because the download was cut short or the upstream sent other bytes,
    then, whatever the operating system did, every cache of the manager
    and every file is as it was before. *)
Theorem unverified_download_is_not_cached `{EntryCodec} (cm : CacheManager)
    (fs : FS) (data host digest : string) (n : nat) (now : Z)
    (fault : PutFault) :
  actualDigest (take_bytes n data) <> digest ->
  let r := readAndClose (CacheWriter (Stream data) host digest) n now fault
                        cm fs in
  cm_cfg r.1 = cm_cfg cm /\ caches r.1 = caches cm /\
  forall path, dir_of r.2 path = dir_of fs path.
Proof.
  intros Hne r. unfold r, readAndClose. cbn [bytes].
  destruct (caches cm !! host) as [c|] eqn:Hc; [|done].
  set (part := take_bytes n data) in *.
  assert (exists e, Put digest part digest now fault c (dir_of fs (cacheDir c))
                    = (e, c, dir_of fs (cacheDir c))) as [e ->].
  { destruct (decide (cacheDir c = EmptyString)) as [Hno|Hdir].
    - unfold Put. rewrite decide_True by done. destruct fault; eauto.
    - destruct (CacheFacts.Put_mismatch_any_fault digest part digest now fault
                  c (dir_of fs (cacheDir c)) Hdir Hne) as [e' ->]. eauto. }
  cbn [fst snd cm_cfg caches]. split; [done|]. split; [by apply insert_id|].
  intros path. destruct (String.eqb _ _); [done|].
  apply ManagerFacts.dir_of_insert.
Qed.

Lemma unverified_download_is_not_cached_witness :
  let r := readAndClose (H := JsonLines.codec)
             (CacheWriter (Stream "efgh") "docker.io" (actualDigest "efgh"))
             2 7 PutOk warm_cm warm_fs in
  cm_cfg r.1 = cm_cfg warm_cm /\ caches r.1 = caches warm_cm /\
  forall path, dir_of r.2 path = dir_of warm_fs path.
Proof.
  apply (unverified_download_is_not_cached (H := JsonLines.codec) warm_cm
           warm_fs "efgh" "docker.io" (actualDigest "efgh") 2 7 PutOk).
  vm_compute. discriminate.
Defined.

(** X30. A blob that was fetched through the interceptor is served from the
    cache afterwards. Take a blob request that misses in the cache of its
    host, a cache with a directory; the upstream answers 200 with a body
    whose bytes hash to the digest in the path and fit the limit of the
    cache. Then the interceptor returns the response of the upstream with
    its body wrapped; once the client has read the body to its end and
    closed it, and the operating system failed nothing, the same request
    is answered from the cache, with status 200, the bytes of the upstream
    as body and their number as ContentLength, and the upstream is not
    called again. *)
Theorem fetched_blob_is_served_from_cache `{EntryCodec} {S S' : Type}
    (cm : CacheManager) (req : Request) (next : Handler S)
    (next' : Handler S') (now now1 now2 : Z) (faults faults' : NewFaults)
    (fs : FS) (s s1 : S) (s' : S') (resp : Response) (data : string)
    (c : Cache) :
  let digest := final_segment (Path (Url req)) in
  let host := Host (Url req) in
  let g := GetCache cm host faults fs in
  isBlobRequest req = true ->
  caches g.1 !! host = Some c -> wf c -> cacheDir c <> EmptyString ->
  (GetReader digest now c (dir_of g.2 (cacheDir c))).1 = None ->
  next req s = (inl resp, s1) ->
  StatusCode resp = 200 -> Body_ resp = Stream data ->
  digest = actualDigest data ->
  (0 < maxSize c -> Z.of_nat (String.length data) <= maxSize c) ->
  exists cm1 fs1,
    CacheProcess cm req next now faults fs s
      = (inl (set_Body (CacheWriter (Stream data) host digest) resp),
         cm1, fs1, s1) /\
    let st2 := readAndClose (CacheWriter (Stream data) host digest)
                            (String.length data) now1 PutOk cm1 fs1 in
    exists cm3,
      CacheProcess st2.1 req (logged next') now2 faults' st2.2 ([], s')
        = (inl (mkResponse 200 (File digest data) ∅
                           (Z.of_nat (String.length data)) (Some req)),
           cm3, st2.2, ([], s')).
Proof.
  intros digest host g Hblob Hc Hwf Hdir Hmiss Hnext Hok Hbody Hdig Hfit.
  destruct (InterceptorFacts.blob_digest req Hblob) as [Hd Hne].
  fold digest in Hd, Hne.
  assert (String.eqb digest EmptyString = false) as Hneb
    by (by apply String.eqb_neq).
  unfold CacheProcess at 1. unfold tryServeFromCache, cacheResponse.
  rewrite Hblob, Hd, Hneb. cbn [negb orb]. fold host. fold g.
  destruct g as [cmg fsg] eqn:Hg. cbn [fst snd] in Hc, Hmiss.
  rewrite Hc.
  pose proof (GetReader_wf digest now c (dir_of fsg (cacheDir c)) Hwf)
    as (Hwf1 & Hmax1 & _).
  pose proof (GetReader_cacheDir digest now c (dir_of fsg (cacheDir c)))
    as Hcd1. cbv zeta in Hwf1, Hmax1.
  destruct (GetReader digest now c (dir_of fsg (cacheDir c)))
    as [res cmiss] eqn:Hget. cbn [fst snd] in Hmiss, Hwf1, Hmax1, Hcd1.
  subst res. rewrite Hnext, Hok. cbn [Z.eqb Pos.eqb StatusOK negb].
  change (200 =? StatusOK) with true. cbn [negb].
  set (cm1 := mkCacheManager (cm_cfg cmg) (<[host := cmiss]> (caches cmg))).
  assert (caches cm1 !! host = Some cmiss) as Hc1 by apply lookup_insert_eq.
  rewrite (ManagerFacts.GetCache_present cm1 host faults fsg cmiss Hc1).
  rewrite Hbody.
  exists cm1, fsg. split; [reflexivity|].
  unfold readAndClose. rewrite Hc1. cbn [bytes]. rewrite take_bytes_all.
  clearbody digest. subst digest.
  set (key := actualDigest data) in *.
  pose proof (EvictionFacts.Put_stores key data now1 cmiss
                (dir_of fsg (cacheDir cmiss)) Hwf1) as Hput.
  rewrite Hcd1, Hmax1 in Hput. rewrite Hcd1.
  specialize (Hput Hdir Hfit
                (BackingFacts.plain_key_not_temp key _
                   (BackingFacts.digest_plain data))).
  cbv zeta in Hput. fold key in Hput.
  destruct (Put key data key now1 PutOk cmiss (dir_of fsg (cacheDir c)))
    as [[err c'] d'] eqn:HPut. cbn [fst snd] in Hput.
  destruct Hput as (_ & _ & Hcd' & _ & ee & Hee & Hval & Hfile).
  rewrite (proj2 (String.eqb_neq _ _) Hdir). cbv zeta. cbn [fst snd].
  set (cm2 := mkCacheManager (cm_cfg cm1) (<[host := c']> (caches cm1))).
  set (fs2 := <[cacheDir c := d']> fsg).
  assert (caches cm2 !! host = Some c') as Hc2 by apply lookup_insert_eq.
  unfold CacheProcess, tryServeFromCache.
  rewrite Hblob, Hd, Hneb. cbn [negb]. fold host.
  rewrite (ManagerFacts.GetCache_present cm2 host faults' fs2 c' Hc2).
  rewrite Hc2, Hcd'.
  assert (dir_of fs2 (cacheDir c) = d') as ->
    by (unfold dir_of, fs2; by rewrite lookup_insert_eq).
  assert (Size (Value (MoveToFront ee c') ee) = Z.of_nat (String.length data))
    as Hsz.
  { unfold Value in Hval. unfold Value, MoveToFront.
    destruct (decide _); cbn [elems set_ll]; by rewrite Hval. }
  unfold GetReader. rewrite Hee, Hfile. cbv zeta. rewrite Hsz.
  eexists. reflexivity.
Qed.

Lemma fetched_blob_is_served_from_cache_witness :
  exists cm1 fs1,
    CacheProcess (H := JsonLines.codec) warm_cm fresh_blob fresh_upstream 5
                 no_faults warm_fs 0%nat
      = (inl (mkResponse 200
                (CacheWriter (Stream "efgh") "docker.io" (actualDigest "efgh"))
                ∅ 4 None), cm1, fs1, 1%nat) /\
    let st2 := readAndClose (H := JsonLines.codec)
                 (CacheWriter (Stream "efgh") "docker.io" (actualDigest "efgh"))
                 4 6 PutOk cm1 fs1 in
    exists cm3,
      CacheProcess (H := JsonLines.codec) st2.1 fresh_blob
                   (logged fresh_upstream) 7 no_faults st2.2 ([], 1%nat)
        = (inl (mkResponse 200 (File (actualDigest "efgh") "efgh") ∅ 4
                           (Some fresh_blob)), cm3, st2.2, ([], 1%nat)).
Proof.
  refine (fetched_blob_is_served_from_cache (H := JsonLines.codec) warm_cm
            fresh_blob fresh_upstream fresh_upstream 5 6 7 no_faults no_faults
            warm_fs 0%nat 1%nat 1%nat
            (mkResponse 200 (Stream "efgh") ∅ 4 None) "efgh" demo_cache
            _ _ EvictionFacts.demo_cache_wf _ _ _ _ _ _ _).
  - reflexivity.
  - reflexivity.
  - discriminate.
  - vm_compute. reflexivity.
  - reflexivity.
  - reflexivity.
  - reflexivity.
  - vm_compute. reflexivity.
  - intros _. vm_compute. discriminate.
Defined.

End StreamFacts.
